(** * Collaborative editor: operation algebra, change detector and relay

    A shallow embedding of the TypeScript operation algebra ([OTEngine]),
    the change detector ([detectChange]) and the socket relay
    ([server.js]) with its REST endpoints, of the user registry
    ([UserManager]) and of the line and column computation of the cursor
    overlay ([Cursor.tsx]), together with the properties the
    specification states about them and further properties of the code.

    Conventions.
    - A JavaScript [number] holding an index, a length, a version or a
      timestamp is a [Z]; the arithmetic used by the code ([+], [-],
      comparisons, [Math.min]) is exact on the integers it meets.
    - A JavaScript string is a [string]; its elements stand for code units,
      [String.length] for [.length], [String.ltb] for [<] on strings
      (lexicographic on code units) and [String.eqb] for [===].
    - [String.prototype.substring] is a builtin; it is embedded below from
      its ECMAScript definition (clamp both indices, swap when reversed). *)

From Stdlib Require Import ZArith Lia.
From stdpp Require Import gmap strings list fin_maps pretty.

Local Open Scope Z_scope.

(** ** The [substring] builtin *)

Module JS.

(** [min(max(x, 0), len)] : the clamping [substring] applies to an index. *)
Definition clamp (len x : Z) : Z := Z.min (Z.max x 0) len.

Definition strlen (s : string) : Z := Z.of_nat (String.length s).

(** [s.substring(indexStart, indexEnd)]; [indexEnd = None] is the call
    with one argument. *)
Definition substring (s : string) (indexStart : Z) (indexEnd : option Z)
  : string :=
  let len := strlen s in
  let intStart := clamp len indexStart in
  let intEnd := match indexEnd with
                | None => len
                | Some e => clamp len e
                end in
  let from := Z.min intStart intEnd in
  let to := Z.max intStart intEnd in
  String.substring (Z.to_nat from) (Z.to_nat (to - from)) s.

(** A string-or-null used as a condition: [null] and the empty string
    are falsy. The result is the string when the test succeeds. *)
Definition when_truthy (v : option string) : option string :=
  match v with
  | None => None
  | Some s => if String.eqb s "" then None else Some s
  end.

(** A [Map] with string keys whose iteration order is observed:
    entries in insertion order, [set] on a present key keeps its place. *)
Definition Map (V : Type) : Type := list (string * V).

Fixpoint map_set {V} (k : string) (v : V) (m : Map V) : Map V :=
  match m with
  | [] => [(k, v)]
  | (k', v') :: rest =>
      if String.eqb k' k then (k, v) :: rest
      else (k', v') :: map_set k v rest
  end.

Fixpoint map_get {V} (k : string) (m : Map V) : option V :=
  match m with
  | [] => None
  | (k', v') :: rest => if String.eqb k' k then Some v' else map_get k rest
  end.

Fixpoint map_delete {V} (k : string) (m : Map V) : Map V :=
  match m with
  | [] => []
  | (k', v') :: rest =>
      if String.eqb k' k then map_delete k rest
      else (k', v') :: map_delete k rest
  end.

(** [Array.from(m.values())] *)
Definition map_values {V} (m : Map V) : list V := map snd m.

Definition map_size {V} (m : Map V) : Z := Z.of_nat (List.length m).

End JS.

(** ** operations.ts : the operation data model *)

Record BaseOperation := mkBase {
  id : string;
  userId : string;
  timestamp : Z;
  position : Z
}.

Record InsertOperation := mkInsert {
  ins_base :> BaseOperation;
  text : string
}.

Record DeleteOperation := mkDelete {
  del_base :> BaseOperation;
  length : Z
}.

(** [type Operation = InsertOperation | DeleteOperation], discriminated by
    the [type] field (['insert'] or ['delete']). The constructors are
    capitalised: [insert] and [delete] are the map operations of stdpp. *)
Inductive Operation :=
  | Insert (op : InsertOperation)
  | Delete (op : DeleteOperation).

Definition base (o : Operation) : BaseOperation :=
  match o with
  | Insert i => ins_base i
  | Delete d => del_base d
  end.

(** [{ ...op, position: p }] *)
Definition with_position (b : BaseOperation) (p : Z) : BaseOperation :=
  {| id := id b; userId := userId b; timestamp := timestamp b; position := p |}.

Definition ins_with_position (op : InsertOperation) (p : Z) : InsertOperation :=
  {| ins_base := with_position op p; text := text op |}.

Definition del_with_position (op : DeleteOperation) (p : Z) : DeleteOperation :=
  {| del_base := with_position op p; length := length op |}.

(** [{ ...op, length: l }] *)
Definition del_with_length (op : DeleteOperation) (l : Z) : DeleteOperation :=
  {| del_base := del_base op; length := l |}.

(** [{ ...op, text: t }] *)
Definition ins_with_text (op : InsertOperation) (t : string) : InsertOperation :=
  {| ins_base := ins_base op; text := t |}.

(** [Date.now()] and the identifier built by [generateOperationId] come
    from the environment; a call receives them as [Clock]. *)
Record Clock := mkClock {
  now : Z;
  fresh_id : string
}.

Definition createInsertOperation (env : Clock)
    (uid : string) (pos : Z) (txt : string) : InsertOperation :=
  {| ins_base := {| id := fresh_id env; userId := uid;
                    timestamp := now env; position := pos |};
     text := txt |}.

Definition createDeleteOperation (env : Clock)
    (uid : string) (pos : Z) (len : Z) : DeleteOperation :=
  {| del_base := {| id := fresh_id env; userId := uid;
                    timestamp := now env; position := pos |};
     length := len |}.

Definition detectChange (env : Clock)
    (oldText newText : string) (cursorPosition : Z) (uid : string)
  : option Operation :=
  if String.eqb oldText newText then None
  else
    let oldLen := JS.strlen oldText in
    let newLen := JS.strlen newText in
    if newLen >? oldLen then
      let insertedLength := newLen - oldLen in
      let pos := cursorPosition - insertedLength in
      let insertedText := JS.substring newText pos (Some cursorPosition) in
      Some (Insert (createInsertOperation env uid pos insertedText))
    else if newLen <? oldLen then
      let deletedLength := oldLen - newLen in
      let pos := cursorPosition in
      Some (Delete (createDeleteOperation env uid pos deletedLength))
    else None.

(** ** OTEngine *)

Module OTEngine.

Definition transformInsertInsert (op1 op2 : InsertOperation)
  : InsertOperation :=
  if position op2 <? position op1 then
    ins_with_position op1 (position op1 + JS.strlen (text op2))
  else if position op2 =? position op1 then
    if String.ltb (userId op2) (userId op1) then
      ins_with_position op1 (position op1 + JS.strlen (text op2))
    else op1
  else op1.

Definition transformInsertDelete (op1 : InsertOperation)
    (op2 : DeleteOperation) : InsertOperation :=
  if position op2 + length op2 <=? position op1 then
    ins_with_position op1 (position op1 - length op2)
  else if position op2 <? position op1 then
    ins_with_position op1 (position op2)
  else op1.

Definition transformDeleteInsert (op1 : DeleteOperation)
    (op2 : InsertOperation) : DeleteOperation :=
  if position op2 <=? position op1 then
    del_with_position op1 (position op1 + JS.strlen (text op2))
  else if position op2 <? position op1 + length op1 then
    del_with_length op1 (length op1 + JS.strlen (text op2))
  else op1.

Definition transformDeleteDelete (op1 op2 : DeleteOperation)
  : DeleteOperation :=
  if position op2 + length op2 <=? position op1 then
    del_with_position op1 (position op1 - length op2)
  else if position op2 >=? position op1 + length op1 then
    op1
  else if position op2 <=? position op1 then
    let overlap :=
      Z.min (position op2 + length op2 - position op1) (length op1) in
    del_with_length (del_with_position op1 (position op2))
                    (length op1 - overlap)
  else
    let overlap :=
      Z.min (position op1 + length op1 - position op2) (length op2) in
    del_with_length op1 (length op1 - overlap).

Definition transform (op1 op2 : Operation) : Operation :=
  match op1, op2 with
  | Insert i1, Insert i2 => Insert (transformInsertInsert i1 i2)
  | Insert i1, Delete d2 => Insert (transformInsertDelete i1 d2)
  | Delete d1, Insert i2 => Delete (transformDeleteInsert d1 i2)
  | Delete d1, Delete d2 => Delete (transformDeleteDelete d1 d2)
  end.

Definition applyInsert (txt : string) (op : InsertOperation) : string :=
  let before := JS.substring txt 0 (Some (position op)) in
  let after := JS.substring txt (position op) None in
  before +:+ text op +:+ after.

Definition applyDelete (txt : string) (op : DeleteOperation) : string :=
  let before := JS.substring txt 0 (Some (position op)) in
  let after := JS.substring txt (position op + length op) None in
  before +:+ after.

Definition apply (txt : string) (operation : Operation) : string :=
  match operation with
  | Insert op => applyInsert txt op
  | Delete op => applyDelete txt op
  end.

(** The [for (const otherOp of operations)] loop, with the loop variable
    [transformed] as accumulator. *)
Fixpoint transformAgainst (op : Operation) (operations : list Operation)
  : Operation :=
  match operations with
  | [] => op
  | otherOp :: rest => transformAgainst (transform op otherOp) rest
  end.

Definition compose (op1 op2 : Operation) : option Operation :=
  match op1, op2 with
  | Insert i1, Insert i2 =>
      if (position i1 + JS.strlen (text i1) =? position i2)
         && String.eqb (userId i1) (userId i2)
      then Some (Insert (ins_with_text i1 (text i1 +:+ text i2)))
      else None
  | Delete d1, Delete d2 =>
      if (position d1 =? position d2)
         && String.eqb (userId d1) (userId d2)
      then Some (Delete (del_with_length d1 (length d1 + length d2)))
      else None
  | _, _ => None
  end.

End OTEngine.

(** Sample operations for the scenarios. *)
Definition ins (uid : string) (p : Z) (t : string) : Operation :=
  Insert {| ins_base := mkBase "op" uid 0 p; text := t |}.
Definition del (uid : string) (p l : Z) : Operation :=
  Delete {| del_base := mkBase "op" uid 0 p; length := l |}.

(** ** server.js : the relay *)

Module Server.

Record User := mkUser {
  id : string;
  name : string;
  color : string;
  cursor : Z
}.

(** An entry of [doc.operations]:
    [{ ...operation, serverVersion, serverTimestamp }]. *)
Record LoggedOperation := mkLogged {
  logged : Operation;
  serverVersion : Z;
  serverTimestamp : Z
}.

Record Document := mkDocument {
  doc_id : string;
  content : string;
  version : Z;
  operations : list LoggedOperation;
  users : JS.Map User
}.

(** The variables of one [io.on('connection', ...)] closure, with what
    the relay reads of the socket: the [userName] of the handshake query
    and the rooms joined through [socket.join]. *)
Record Socket := mkSocket {
  handshake_userName : option string;
  rooms : gset string;
  currentDocumentId : option string;
  currentUser : option User
}.

(** The module-level state: [documents], [colorIndex], and the live
    connections keyed by [socket.id]. *)
Record Relay := mkRelay {
  documents : gmap string Document;
  colorIndex : Z;
  sockets : gmap string Socket
}.

Definition COLORS : list string :=
  ["#FF6B6B"; "#4ECDC4"; "#45B7D1"; "#FFA07A";
   "#98D8C8"; "#F7DC6F"; "#BB8FCE"; "#85C1E2"].

(** Messages the relay sends. *)
Inductive Payload :=
  | document_state (content : string) (version : Z) (users : list User)
  | operation_msg (operation : Operation) (version : Z)
  | user_joined (user : User) (users : list User)
  | user_left (userId : string) (users : list User)
  | cursor_update (userId : string) (position : Z).

Inductive LogLine :=
  | log_connected (socketId : string)
  | log_joining (socketId documentId : string)
  | log_user_count (documentId : string) (count : Z)
  | log_no_document
  | log_operation (socketId : string) (op : Operation)
  | log_disconnected (socketId : string).

(** What a handler does to the outside: [socket.emit], [io.to(room).emit],
    [console.log], [console.error]. *)
Inductive Effect :=
  | socket_emit (socketId : string) (msg : Payload)
  | io_to_emit (room : string) (msg : Payload)
  | console_log (line : LogLine)
  | console_error (line : LogLine).

Definition is_emit (e : Effect) : bool :=
  match e with
  | socket_emit _ _ | io_to_emit _ _ => true
  | _ => false
  end.

Definition set_users (doc : Document) (us : JS.Map User) : Document :=
  {| doc_id := doc_id doc; content := content doc; version := version doc;
     operations := operations doc; users := us |}.

Definition set_documents (st : Relay) (docs : gmap string Document)
  : Relay :=
  {| documents := docs; colorIndex := colorIndex st;
     sockets := sockets st |}.

(** [getDocument]: the document of that id, created empty when absent.
    The second component is the document map afterwards. *)
Definition getDocument (documentId : string)
    (docs : gmap string Document) : Document * gmap string Document :=
  match docs !! documentId with
  | Some doc => (doc, docs)
  | None =>
      let doc := {| doc_id := documentId; content := ""; version := 0;
                    operations := []; users := [] |} in
      (doc, <[documentId := doc]> docs)
  end.

Definition addUser (documentId socketId : string) (sock : Socket)
    (st : Relay) : User * Relay :=
  let '(doc, docs) := getDocument documentId (documents st) in
  let user :=
    {| id := socketId;
       name := match JS.when_truthy (handshake_userName sock) with
               | Some n => n
               | None => "User " +:+ pretty (JS.map_size (users doc) + 1)
               end;
       color := nth (Z.to_nat (colorIndex st
                               mod Z.of_nat (List.length COLORS)))
                    COLORS "";
       cursor := 0 |} in
  (user,
   {| documents :=
        <[documentId := set_users doc
                          (JS.map_set socketId user (users doc))]> docs;
      colorIndex := colorIndex st + 1;
      sockets := sockets st |}).

Definition removeUser (documentId socketId : string)
    (docs : gmap string Document) : gmap string Document :=
  match docs !! documentId with
  | Some doc =>
      <[documentId := set_users doc
                        (JS.map_delete socketId (users doc))]> docs
  | None => docs
  end.

(** [broadcastToDocument]: one [io.to(socketId).emit] per roster entry
    other than [excludeSocketId], in roster order. *)
Definition broadcastToDocument (documentId : string) (msg : Payload)
    (excludeSocketId : option string) (docs : gmap string Document)
  : list Effect :=
  match docs !! documentId with
  | None => []
  | Some doc =>
      flat_map
        (fun entry : string * User =>
           if bool_decide (Some (fst entry) = excludeSocketId) then []
           else [io_to_emit (fst entry) msg])
        (users doc)
  end.

(** The new socket and its closure, [currentDocumentId] and
    [currentUser] both [null]. *)
Definition on_connection (socketId : string) (userName : option string)
    (st : Relay) : Relay * list Effect :=
  ({| documents := documents st; colorIndex := colorIndex st;
      sockets := <[socketId := {| handshake_userName := userName;
                                  rooms := {[socketId]};
                                  currentDocumentId := None;
                                  currentUser := None |}]> (sockets st) |},
   [console_log (log_connected socketId)]).

Definition on_join_document (socketId documentId : string)
    (sock : Socket) (st : Relay) : Relay * list Effect :=
  (* Leave previous document if any *)
  let '(rooms1, docs1) :=
    match JS.when_truthy (currentDocumentId sock) with
    | Some previous =>
        (rooms sock ∖ {[previous]},
         removeUser previous socketId (documents st))
    | None => (rooms sock, documents st)
    end in
  (* Join new document *)
  let rooms2 := rooms1 ∪ {[documentId]} in
  let '(_, docs2) := getDocument documentId docs1 in
  let '(user, st3) := addUser documentId socketId sock
                        (set_documents st docs2) in
  (* [doc] is the object [addUser] has just updated *)
  let doc := fst (getDocument documentId (documents st3)) in
  let roster := JS.map_values (users doc) in
  ({| documents := documents st3; colorIndex := colorIndex st3;
      sockets := <[socketId := {| handshake_userName :=
                                    handshake_userName sock;
                                  rooms := rooms2;
                                  currentDocumentId := Some documentId;
                                  currentUser := Some user |}]>
                   (sockets st3) |},
   [console_log (log_joining socketId documentId);
    socket_emit socketId
      (document_state (content doc) (version doc) roster)]
   ++ broadcastToDocument documentId (user_joined user roster)
        (Some socketId) (documents st3)
   ++ [console_log (log_user_count documentId
                      (JS.map_size (users doc)))]).

(** The text the ['operation'] handler stores in [doc.content]. *)
Definition applyToContent (txt : string) (operation : Operation)
  : string :=
  match operation with
  | Insert op =>
      let before := JS.substring txt 0 (Some (position op)) in
      let after := JS.substring txt (position op) None in
      before +:+ text op +:+ after
  | Delete op =>
      let before := JS.substring txt 0 (Some (position op)) in
      let after := JS.substring txt (position op + length op) None in
      before +:+ after
  end.

Definition on_operation (socketId : string) (dateNow : Z)
    (operation : Operation) (sock : Socket) (st : Relay)
  : Relay * list Effect :=
  match JS.when_truthy (currentDocumentId sock) with
  | None => (st, [console_error log_no_document])
  | Some current =>
      let '(doc, docs1) := getDocument current (documents st) in
      let version' := version doc + 1 in
      let doc' :=
        {| doc_id := doc_id doc;
           content := applyToContent (content doc) operation;
           version := version';
           operations := operations doc
                         ++ [{| logged := operation;
                                serverVersion := version';
                                serverTimestamp := dateNow |}];
           users := users doc |} in
      let docs2 := <[current := doc']> docs1 in
      (set_documents st docs2,
       console_log (log_operation socketId operation)
       :: broadcastToDocument current (operation_msg operation version')
            (Some socketId) docs2)
  end.

Definition on_cursor_position (socketId : string) (pos : Z)
    (sock : Socket) (st : Relay) : Relay * list Effect :=
  match JS.when_truthy (currentDocumentId sock), currentUser sock with
  | Some current, Some _ =>
      let '(doc, docs1) := getDocument current (documents st) in
      match JS.map_get socketId (users doc) with
      | Some user =>
          let user' := {| id := id user; name := name user;
                          color := color user; cursor := pos |} in
          let docs2 :=
            <[current := set_users doc
                           (JS.map_set socketId user' (users doc))]>
              docs1 in
          (set_documents st docs2,
           broadcastToDocument current (cursor_update socketId pos)
             (Some socketId) docs2)
      | None => (set_documents st docs1, [])
      end
  | _, _ => (st, [])
  end.

(** After ['disconnect'] the socket delivers no further event: it leaves
    [sockets]. *)
Definition on_disconnect (socketId : string) (sock : Socket) (st : Relay)
  : Relay * list Effect :=
  let gone := delete socketId (sockets st) in
  match JS.when_truthy (currentDocumentId sock) with
  | Some current =>
      let docs1 := removeUser current socketId (documents st) in
      let '(doc, docs2) := getDocument current docs1 in
      ({| documents := docs2; colorIndex := colorIndex st;
          sockets := gone |},
       console_log (log_disconnected socketId)
       :: broadcastToDocument current
            (user_left socketId (JS.map_values (users doc))) None docs2)
  | None =>
      ({| documents := documents st; colorIndex := colorIndex st;
          sockets := gone |},
       [console_log (log_disconnected socketId)])
  end.

(** What reaches the relay. [operation] carries the value [Date.now()]
    returns while it is handled. *)
Inductive Event :=
  | connection (userName : option string)
  | join_document (documentId : string)
  | operation (dateNow : Z) (op : Operation)
  | cursor_position (pos : Z)
  | disconnect.

(** An event of a socket that is not connected reaches no handler. *)
Definition handle (socketId : string) (ev : Event) (st : Relay)
  : Relay * list Effect :=
  match ev with
  | connection userName => on_connection socketId userName st
  | _ =>
      match sockets st !! socketId with
      | None => (st, [])
      | Some sock =>
          match ev with
          | connection userName => on_connection socketId userName st
          | join_document documentId =>
              on_join_document socketId documentId sock st
          | operation dateNow op =>
              on_operation socketId dateNow op sock st
          | cursor_position pos => on_cursor_position socketId pos sock st
          | disconnect => on_disconnect socketId sock st
          end
      end
  end.

Fixpoint run (evs : list (string * Event)) (st : Relay)
  : Relay * list Effect :=
  match evs with
  | [] => (st, [])
  | (socketId, ev) :: rest =>
      let '(st1, out1) := handle socketId ev st in
      let '(st2, out2) := run rest st1 in
      (st2, out1 ++ out2)
  end.

Definition initial : Relay :=
  {| documents := ∅; colorIndex := 0; sockets := ∅ |}.

End Server.

(** ** server.js : the REST endpoints *)

Module Api.

Inductive Response :=
  | health (status : string) (documents : Z) (timestamp : string)
  | document (id : string) (content : string) (version : Z)
      (activeUsers : Z)
  | not_found (error : string).


(** [GET /api/documents/:id] *)
Definition get_document (id : string) (st : Server.Relay) : Response :=
  match Server.documents st !! id with
  | None => not_found "Document not found"
  | Some doc =>
      document (Server.doc_id doc) (Server.content doc) (Server.version doc)
        (JS.map_size (Server.users doc))
  end.

End Api.

(** ** UserManager *)

Module UserManager.

(** A field value of a user object, a number or a string; an object is
    the finite map of its own enumerable properties. *)
Inductive Value :=
  | Num (n : Z)
  | Str (s : string).

(** [this.users] *)
Record t := mk {
  users : JS.Map (gmap string Value)
}.

Definition new : t := {| users := [] |}.

(** [{ ...userData, joinedAt: Date.now() }] under [userId]. *)
Definition addUser (dateNow : Z) (userId : string)
    (userData : gmap string Value) (m : t) : t :=
  {| users := JS.map_set userId (<["joinedAt" := Num dateNow]> userData)
                (users m) |}.

Definition removeUser (userId : string) (m : t) : t :=
  {| users := JS.map_delete userId (users m) |}.

(** [undefined] is [None]. *)
Definition getUser (userId : string) (m : t) : option (gmap string Value) :=
  JS.map_get userId (users m).

Definition getAllUsers (m : t) : list (gmap string Value) :=
  JS.map_values (users m).

(** The stored object is updated in place; an object is always truthy. *)
Definition updateCursor (userId : string) (position : Value) (m : t) : t :=
  match JS.map_get userId (users m) with
  | Some user =>
      {| users := JS.map_set userId (<["cursor" := position]> user)
                    (users m) |}
  | None => m
  end.

End UserManager.

(** ** Cursor.tsx : line and column of a remote cursor *)

Module CursorView.

(** The line feed, code unit 10. *)
Definition newline : Ascii.ascii :=
  Ascii.Ascii false true false true false false false false.

(** [s.split('\n')]: the pieces between the line feeds; never empty. *)
Fixpoint split_lines (s : string) : list string :=
  match s with
  | EmptyString => [EmptyString]
  | String c rest =>
      if Ascii.eqb c newline then EmptyString :: split_lines rest
      else match split_lines rest with
           | line :: more => String c line :: more
           | [] => [String c EmptyString]
           end
  end.

(** The line and the column of a remote cursor, as the effect of
    [Cursor] computes them before turning them into pixels. [lines] is
    never empty, so [lines[lineNumber]] is always defined. *)
Definition lineColumn (content : string) (cursorPosition : Z) : Z * Z :=
  let textBeforeCursor := JS.substring content 0 (Some cursorPosition) in
  let lines := split_lines textBeforeCursor in
  let lineNumber := Z.of_nat (List.length lines) - 1 in
  let columnNumber :=
    JS.strlen (nth (Z.to_nat lineNumber) lines EmptyString) in
  (lineNumber, columnNumber).

End CursorView.

(** * Vocabulary of the properties *)

Section AlgebraTerms.

Import OTEngine.

(** A string as the sequence of its code units. *)
Definition chars (s : string) : list Ascii.ascii :=
  String.list_ascii_of_string s.

(** The text after an insert of [x] at [p], and after a delete of [k]
    units at [p], on sequences of code units. *)
Definition ins_at {A} (p : nat) (x l : list A) : list A :=
  take p l ++ x ++ drop p l.

Definition del_at {A} (p k : nat) (l : list A) : list A :=
  take p l ++ drop (p + k) l.

(** The attribute constraints of the data model, without the demand that
    an insert's text or a delete's range be non-empty. *)
Definition well_formed (o : Operation) : Prop :=
  match o with
  | Insert i => 0 <= position i
  | Delete d => 0 <= position d /\ 0 <= length d
  end.

(** [o] is valid on [txt]: its indices lie inside the text. *)
Definition valid_on (txt : string) (o : Operation) : Prop :=
  match o with
  | Insert i => 0 <= position i <= JS.strlen txt
  | Delete d =>
      0 <= position d /\ 0 <= length d
      /\ position d + length d <= JS.strlen txt
  end.

(** Two concurrent operations conflict when an insert falls strictly
    inside the range of the other's delete, or when both insert at the
    same position under the same user id. *)
Definition conflicting (a b : Operation) : Prop :=
  match a, b with
  | Insert i1, Insert i2 =>
      position i1 = position i2 /\ userId i1 = userId i2
  | Insert i, Delete d | Delete d, Insert i =>
      position d < position i < position d + length d
  | Delete _, Delete _ => False
  end.

(** TP1 for the pair [a], [b] on the base [s]. *)
Definition tp1 (s : string) (a b : Operation) : Prop :=
  apply (apply s a) (transform b a) = apply (apply s b) (transform a b).

(** The frame of [transform]: what may differ between [a] and
    [transform a b]. *)
Definition same_but_indices (a a' : Operation) : Prop :=
  match a, a' with
  | Insert i, Insert i' =>
      id i' = id i /\ userId i' = userId i /\ timestamp i' = timestamp i
      /\ text i' = text i
  | Delete d, Delete d' =>
      id d' = id d /\ userId d' = userId d /\ timestamp d' = timestamp d
  | _, _ => False
  end.

(** What the specification lets a call of [apply] do: return the new
    text, or fail with [OutOfRange]. *)
Inductive ApplyResult :=
  | Applied (txt : string)
  | OutOfRange.

(** [apply], [applyInsert] and [applyDelete] contain no [throw] and no
    range test, and [substring] accepts every index: a call always
    returns. *)
Definition apply_result (txt : string) (operation : Operation)
  : ApplyResult :=
  Applied (apply txt operation).

(** The two shapes for which [compose] yields an operation. *)
Definition composable (a b c : Operation) : Prop :=
  (exists i1 i2 : InsertOperation,
      a = Insert i1 /\ b = Insert i2
      /\ position i2 = position i1 + JS.strlen (text i1)
      /\ userId i1 = userId i2
      /\ c = Insert (ins_with_text i1 (text i1 +:+ text i2)))
  \/ (exists d1 d2 : DeleteOperation,
        a = Delete d1 /\ b = Delete d2
        /\ position d2 = position d1
        /\ userId d1 = userId d2
        /\ c = Delete (del_with_length d1 (length d1 + length d2))).

(** An operation that changes no text: an insert of the empty string, a
    delete of zero units. *)
Definition is_noop (o : Operation) : Prop :=
  match o with
  | Insert i => text i = ""
  | Delete d => length d = 0
  end.

(** [compose] of three operations, grouped to the left and to the right. *)
Definition compose_left (a b c : Operation) : option Operation :=
  match compose a b with
  | Some ab => compose ab c
  | None => None
  end.

Definition compose_right (a b c : Operation) : option Operation :=
  match compose b c with
  | Some bc => compose a bc
  | None => None
  end.

End AlgebraTerms.

Section RelayTerms.

Import Server.

(** Replaying a log from the empty text. *)
Definition replay (log : list LoggedOperation) : string :=
  fold_left (fun txt entry => OTEngine.apply txt (logged entry)) log "".

(** The document invariant of the data model. *)
Definition doc_inv (doc : Document) : Prop :=
  version doc = Z.of_nat (List.length (operations doc))
  /\ replay (operations doc) = content doc.

Definition docs_inv (docs : gmap string Document) : Prop :=
  map_Forall (fun _ doc => doc_inv doc) docs.

Definition relay_inv (st : Relay) : Prop := docs_inv (documents st).

(** The clamping of the specification, in its words: an insert's
    position is brought into [0, len], a delete's into
    [0, len - length]; a zero-length delete is dropped ([None]). *)
Definition clamp_as_specified (txt : string) (o : Operation)
  : option Operation :=
  let len := JS.strlen txt in
  match o with
  | Insert i =>
      Some (Insert (ins_with_position i (Z.max 0 (Z.min (position i) len))))
  | Delete d =>
      if length d =? 0 then None
      else Some (Delete (del_with_position d
                  (Z.max 0 (Z.min (position d) (len - length d)))))
  end.

(** One user in document ["d"], whose content is ["abc"] at version 1. *)
Definition joined_abc : Relay :=
  (run [("s1", connection None); ("s1", join_document "d");
        ("s1", operation 100 (ins "s1" 0 "abc"))] initial).1.

(** A second user, Bob, joins document ["d"] after that. *)
Definition two_joined : Relay :=
  (run [("s2", connection (Some "Bob")); ("s2", join_document "d")]
       joined_abc).1.

Definition summary (st : Relay) (documentId : string)
  : option (string * Z * nat) :=
  (fun doc => (content doc, version doc, List.length (operations doc)))
    <$> documents st !! documentId.

(** [currentDocumentId] of a connection stays [null] until that
    connection sends [join-document]. *)
Definition never_joined (socketId : string) (st : Relay) : Prop :=
  forall sock, sockets st !! socketId = Some sock ->
               currentDocumentId sock = None.

End RelayTerms.

Section RelayFrameTerms.

Import Server.

(** [doc'] has the text state of [doc]. *)
Definition same_text (doc doc' : Document) : Prop :=
  doc_id doc' = doc_id doc /\ content doc' = content doc
  /\ version doc' = version doc /\ operations doc' = operations doc.

(** [doc'] is [doc] some committed operations later. *)
Definition extends (doc doc' : Document) : Prop :=
  doc_id doc' = doc_id doc /\ version doc <= version doc'
  /\ operations doc `prefix_of` operations doc'.

(** The document a connection would submit to. *)
Definition current_document (socketId : string) (st : Relay)
  : option string :=
  match sockets st !! socketId with
  | Some sock => JS.when_truthy (currentDocumentId sock)
  | None => None
  end.

Definition is_operation (ev : Event) : bool :=
  match ev with
  | operation _ _ => true
  | _ => false
  end.

(** The roster of a document; empty when the document does not exist. *)
Definition roster (st : Relay) (documentId : string) : JS.Map User :=
  match documents st !! documentId with
  | Some doc => users doc
  | None => []
  end.

(** Every connection that has a current document has it in the map. *)
Definition current_exists (st : Relay) : Prop :=
  forall socketId sock current,
    sockets st !! socketId = Some sock ->
    JS.when_truthy (currentDocumentId sock) = Some current ->
    is_Some (documents st !! current).

(** [docs'] holds every document of [docs], related by [R]. *)
Definition docs_rel (R : Document -> Document -> Prop)
    (docs docs' : gmap string Document) : Prop :=
  forall id doc, docs !! id = Some doc ->
                 exists doc', docs' !! id = Some doc' /\ R doc doc'.

(** The keys of a [Map], in insertion order. *)
Definition map_keys {V} (m : JS.Map V) : list string := map fst m.

(** The roster of a document in a document map. *)
Definition users_of (docs : gmap string Document) (documentId : string)
  : JS.Map User :=
  match docs !! documentId with
  | Some doc => users doc
  | None => []
  end.

(** A roster entry is stored under its own socket id and wears a colour
    of the palette. *)
Definition good_user (k : string) (u : User) : Prop :=
  id u = k /\ color u ∈ COLORS.

(** A roster has no socket id twice and only such entries. *)
Definition roster_wf (m : JS.Map User) : Prop :=
  NoDup (map_keys m) /\ forall k u, (k, u) ∈ m -> good_user k u.

Definition is_connection (ev : Event) : bool :=
  match ev with
  | connection _ => true
  | _ => false
  end.

(** Rosters and connections agree: every roster is well formed; a
    connection with a current document is enrolled in the roster of that
    document; and every entry of the roster of a document with a non-empty
    id belongs to a live connection whose current document it is. *)
Definition relay_wf (st : Relay) : Prop :=
  0 <= colorIndex st
  /\ (forall d, roster_wf (roster st d))
  /\ (forall s sock d,
        sockets st !! s = Some sock ->
        JS.when_truthy (currentDocumentId sock) = Some d ->
        s ∈ map_keys (roster st d))
  /\ (forall d k,
        k ∈ map_keys (roster st d) -> d <> "" ->
        exists sock, sockets st !! k = Some sock
                     /\ currentDocumentId sock = Some d).

(** The roster of [x] once the connection has left its previous
    document. *)
Definition roster_left (socketId : string) (sock : Socket) (st : Relay)
    (x : string) : JS.Map User :=
  if decide (JS.when_truthy (currentDocumentId sock) = Some x)
  then JS.map_delete socketId (roster st x)
  else roster st x.

(** Socket ids are not reused while in use: a [connection] event comes
    for an id that is not connected. *)
Fixpoint fresh_connections (evs : list (string * Event)) (st : Relay)
  : Prop :=
  match evs with
  | [] => True
  | (s, ev) :: rest =>
      (is_connection ev = true -> sockets st !! s = None)
      /\ fresh_connections rest (handle s ev st).1
  end.

(** [io.to(room).emit] reaches every connected socket that is in [room]:
    a socket is in the room of its own id from its connection on, and in
    the rooms it has joined and not left. *)
Definition in_room (st : Relay) (socketId room : string) : bool :=
  match sockets st !! socketId with
  | Some sock => bool_decide (room ∈ rooms sock)
  | None => false
  end.

(** The operation an effect delivers to the socket [socketId], if any,
    the rooms being those of [st]. *)
Definition operation_for (st : Relay) (socketId : string) (e : Effect)
  : option Operation :=
  match e with
  | io_to_emit room (operation_msg op _) =>
      if in_room st socketId room then Some op else None
  | socket_emit target (operation_msg op _) =>
      if decide (target = socketId) then Some op else None
  | _ => None
  end.

(** The operations of the [operation] messages the socket [socketId]
    receives over a run, in the order they are sent. The emits of a
    handler are delivered by the rooms as they are once it has run: a
    handler changes the rooms of its own socket only, and does so before
    it emits. *)
Fixpoint operations_received (socketId : string)
    (evs : list (string * Event)) (st : Relay) : list Operation :=
  match evs with
  | [] => []
  | (s, ev) :: rest =>
      let out := handle s ev st in
      omap (operation_for out.1 socketId) out.2
      ++ operations_received socketId rest out.1
  end.

(** A socket whose id is the name of a room: ["d"] is in document ["e"]
    with ["q"], and ["p"] is alone in the document ["d"]. *)
Definition room_named_like_socket : Relay :=
  (run [("p", connection None); ("p", join_document "d");
        ("d", connection None); ("d", join_document "e");
        ("q", connection None); ("q", join_document "e")] initial).1.

(** What a client does with them: [content = apply(content, operation)]
    for each in turn. *)
Definition apply_all (txt : string) (ops : list Operation) : string :=
  fold_left OTEngine.apply ops txt.

End RelayFrameTerms.

Section CursorTerms.

Import CursorView.

(** The number of line feeds in a sequence of code units. *)
Definition line_feeds (l : list Ascii.ascii) : nat :=
  List.length (filter (fun c => c = newline) l).

End CursorTerms.

(** * Proofs *)

(** ** Strings as sequences of code units *)

Section Chars.

Lemma chars_inj s t : chars s = chars t -> s = t.
Proof.
  intros E.
  rewrite <- (String.string_of_list_ascii_of_string s),
          <- (String.string_of_list_ascii_of_string t).
  unfold chars in E. now rewrite E.
Qed.

Lemma chars_app s t : chars (s +:+ t) = chars s ++ chars t.
Proof. induction s as [|c s IH]; simpl; [reflexivity | now rewrite <- IH]. Qed.

Lemma chars_length s : String.length s = List.length (chars s).
Proof. induction s; simpl; congruence. Qed.

Lemma strlen_chars s : JS.strlen s = Z.of_nat (List.length (chars s)).
Proof. unfold JS.strlen. now rewrite chars_length. Qed.

Lemma strlen_nonneg s : 0 <= JS.strlen s.
Proof. unfold JS.strlen. lia. Qed.

Lemma strlen_app s t : JS.strlen (s +:+ t) = JS.strlen s + JS.strlen t.
Proof. rewrite !strlen_chars, chars_app, length_app. lia. Qed.

Lemma chars_substring n m s :
  chars (String.substring n m s) = take m (drop n (chars s)).
Proof.
  revert n m. induction s as [|c s IH]; intros [|n] [|m]; simpl;
    try reflexivity.
  - f_equal. apply (IH 0%nat m).
  - apply (IH n 0%nat).
  - apply (IH n (S m)).
Qed.

(** [s.substring(0, p)] keeps the first [p] units, [s.substring(p)] drops
    them, whatever [p] is: [Z.to_nat] and [take]/[drop] absorb the
    clamping. *)
Lemma chars_substring_prefix s p :
  chars (JS.substring s 0 (Some p)) = take (Z.to_nat p) (chars s).
Proof.
  unfold JS.substring, JS.clamp. rewrite chars_substring.
  pose proof (strlen_chars s) as L.
  replace (Z.to_nat (Z.min (Z.min (Z.max 0 0) (JS.strlen s))
                           (Z.min (Z.max p 0) (JS.strlen s)))) with 0%nat
    by lia.
  rewrite drop_0.
  destruct (Z_le_gt_dec p (JS.strlen s)) as [Hle|Hgt].
  - f_equal. lia.
  - rewrite !take_ge by lia. reflexivity.
Qed.

Lemma chars_substring_suffix s p :
  chars (JS.substring s p None) = drop (Z.to_nat p) (chars s).
Proof.
  unfold JS.substring, JS.clamp. rewrite chars_substring.
  pose proof (strlen_chars s) as L.
  destruct (Z_le_gt_dec p (JS.strlen s)) as [Hle|Hgt].
  - rewrite take_ge by (rewrite length_drop; lia). f_equal. lia.
  - rewrite take_ge by (rewrite length_drop; lia).
    rewrite !drop_ge by lia. reflexivity.
Qed.

(** In range, [s.substring(a, b)] is the units [a .. b - 1]. *)
Lemma chars_substring_range s a b :
  0 <= a <= b -> b <= JS.strlen s ->
  chars (JS.substring s a (Some b))
  = take (Z.to_nat (b - a)) (drop (Z.to_nat a) (chars s)).
Proof.
  intros Hab Hb. unfold JS.substring, JS.clamp. rewrite chars_substring.
  do 2 f_equal; lia.
Qed.

Lemma chars_applyInsert txt op :
  chars (OTEngine.applyInsert txt op)
  = take (Z.to_nat (position op)) (chars txt)
    ++ chars (text op) ++ drop (Z.to_nat (position op)) (chars txt).
Proof.
  unfold OTEngine.applyInsert.
  now rewrite !chars_app, chars_substring_prefix, chars_substring_suffix.
Qed.

Lemma chars_applyDelete txt op :
  chars (OTEngine.applyDelete txt op)
  = take (Z.to_nat (position op)) (chars txt)
    ++ drop (Z.to_nat (position op + length op)) (chars txt).
Proof.
  unfold OTEngine.applyDelete.
  now rewrite !chars_app, chars_substring_prefix, chars_substring_suffix.
Qed.

End Chars.

(** ** Inserting into and deleting from a sequence *)

Section Segments.

Context {A : Type}.
Implicit Types (l x y : list A) (p q k m i : nat).

(** Element [i] of the sequence after an insert: before [p] it is the old
    element, then come the inserted ones, then the old ones moved right. *)
Lemma ins_at_lookup p x l i :
  (p <= List.length l)%nat ->
  ins_at p x l !! i
  = if (i <? p)%nat then l !! i
    else if (i <? p + List.length x)%nat then x !! (i - p)%nat
    else l !! (i - List.length x)%nat.
Proof.
  intros Hp. unfold ins_at.
  destruct (Nat.ltb_spec i p).
  - rewrite lookup_app_l by (rewrite length_take; lia).
    now rewrite lookup_take_lt.
  - rewrite lookup_app_r by (rewrite length_take; lia).
    rewrite length_take, Nat.min_l by lia.
    destruct (Nat.ltb_spec i (p + List.length x)).
    + now rewrite lookup_app_l by lia.
    + rewrite lookup_app_r by lia. rewrite lookup_drop. f_equal. lia.
Qed.

(** After a delete: before [p] the old element, from [p] on the old ones
    moved left by [k]. *)
Lemma del_at_lookup p k l i :
  del_at p k l !! i = if (i <? p)%nat then l !! i else l !! (i + k)%nat.
Proof.
  unfold del_at. destruct (Nat.ltb_spec i p).
  - destruct (decide (i < List.length l)%nat).
    + rewrite lookup_app_l by (rewrite length_take; lia).
      now rewrite lookup_take_lt.
    + rewrite lookup_app_r by (rewrite length_take; lia).
      rewrite lookup_drop, length_take.
      rewrite (lookup_ge_None_2 l i) by lia. apply lookup_ge_None_2. lia.
  - destruct (decide (p <= List.length l)%nat).
    + rewrite lookup_app_r by (rewrite length_take; lia).
      rewrite lookup_drop, length_take. f_equal. lia.
    + rewrite lookup_app_r by (rewrite length_take; lia).
      rewrite lookup_drop, length_take.
      rewrite (lookup_ge_None_2 l (i + k)) by lia.
      apply lookup_ge_None_2. lia.
Qed.

Lemma length_ins_at p x l :
  List.length (ins_at p x l) = (List.length l + List.length x)%nat.
Proof.
  unfold ins_at. rewrite !length_app, length_take, length_drop. lia.
Qed.

Lemma length_del_at p k l :
  (p + k <= List.length l)%nat ->
  List.length (del_at p k l) = (List.length l - k)%nat.
Proof.
  intros H. unfold del_at.
  rewrite !length_app, length_take, length_drop. lia.
Qed.

End Segments.

(** Equality of two sequences built with [ins_at] and [del_at], element
    by element; the index arithmetic is left to [lia]. *)
Ltac by_lookup :=
  apply list_eq; intros ?;
  repeat first
    [ rewrite del_at_lookup
    | rewrite ins_at_lookup
        by (rewrite ?length_ins_at, ?length_del_at by lia; lia) ];
  repeat match goal with
         | |- context [(?a <? ?b)%nat] => destruct (Nat.ltb_spec a b)
         end;
  try lia; try (f_equal; lia).

Section SegmentLaws.

Context {A : Type}.
Implicit Types (l x y : list A) (p q k m : nat).

(** Two inserts, the one at [q] to the left of the one at [p]. *)
Lemma ins_ins p q x y l :
  (q <= p <= List.length l)%nat ->
  ins_at q y (ins_at p x l) = ins_at (p + List.length y) x (ins_at q y l).
Proof. intros H. by_lookup. Qed.

(** A delete that ends at or before the insertion point. *)
Lemma del_before_ins p q k x l :
  (q + k <= p <= List.length l)%nat ->
  ins_at (p - k) x (del_at q k l) = del_at q k (ins_at p x l).
Proof. intros H. by_lookup. Qed.

(** An insert at or before the start of the deleted range. *)
Lemma ins_before_del p q k x l :
  (p <= q)%nat -> (q + k <= List.length l)%nat ->
  ins_at p x (del_at q k l) = del_at (q + List.length x) k (ins_at p x l).
Proof. intros H1 H2. by_lookup. Qed.

(** Two deletes of disjoint ranges. *)
Lemma del_del_disjoint p q k m l :
  (q + m <= p)%nat -> (p + k <= List.length l)%nat ->
  del_at q m (del_at p k l) = del_at (p - m) k (del_at q m l).
Proof. intros H1 H2. by_lookup. Qed.

(** A delete around the gap a previous delete left. *)
Lemma del_del_nested p q j k l :
  (q <= p <= q + j)%nat ->
  del_at q j (del_at p k l) = del_at q (j + k) l.
Proof. intros H. by_lookup. Qed.

(** A zero-length delete is the identity. *)
Lemma del_at_0 p l : del_at p 0 l = l.
Proof. by_lookup. Qed.

End SegmentLaws.

Lemma chars_applyInsert_at txt (op : InsertOperation) :
  chars (OTEngine.applyInsert txt op)
  = ins_at (Z.to_nat (position op)) (chars (text op)) (chars txt).
Proof. apply chars_applyInsert. Qed.

Lemma chars_applyDelete_at txt (op : DeleteOperation) :
  0 <= position op -> 0 <= length op ->
  chars (OTEngine.applyDelete txt op)
  = del_at (Z.to_nat (position op)) (Z.to_nat (length op)) (chars txt).
Proof.
  intros Hp Hk. rewrite chars_applyDelete. unfold del_at.
  do 2 f_equal. lia.
Qed.

(** From an equation between texts to one between [ins_at]/[del_at]
    sequences. *)
Ltac to_segments :=
  apply chars_inj; simpl;
  rewrite ?chars_applyInsert_at;
  rewrite ?chars_applyDelete_at by (simpl; lia);
  rewrite ?chars_applyInsert_at;
  rewrite ?chars_applyDelete_at by (simpl; lia);
  simpl.

(** ** Properties of the operation algebra *)

Section Transform.

Import OTEngine.

(** Every branch of the four pairwise transforms returns [op1] itself or
    a copy of it with [position] (and, for a delete, [length])
    overwritten. *)
Lemma transformInsertInsert_shape op1 op2 :
  exists p, transformInsertInsert op1 op2 = ins_with_position op1 p.
Proof.
  unfold transformInsertInsert.
  exists (position (transformInsertInsert op1 op2)).
  unfold transformInsertInsert.
  destruct op1 as [[i u t p] x]; simpl.
  repeat match goal with |- context [if ?c then _ else _] => destruct c end;
    reflexivity.
Qed.

Lemma transformInsertDelete_shape op1 op2 :
  exists p, transformInsertDelete op1 op2 = ins_with_position op1 p.
Proof.
  exists (position (transformInsertDelete op1 op2)).
  unfold transformInsertDelete.
  destruct op1 as [[i u t p] x]; simpl.
  repeat match goal with |- context [if ?c then _ else _] => destruct c end;
    reflexivity.
Qed.

Lemma transformDeleteInsert_shape op1 op2 :
  exists p l, transformDeleteInsert op1 op2
              = del_with_length (del_with_position op1 p) l.
Proof.
  exists (position (transformDeleteInsert op1 op2)),
         (length (transformDeleteInsert op1 op2)).
  unfold transformDeleteInsert.
  destruct op1 as [[i u t p] x]; simpl.
  repeat match goal with |- context [if ?c then _ else _] => destruct c end;
    reflexivity.
Qed.

Lemma transformDeleteDelete_shape op1 op2 :
  exists p l, transformDeleteDelete op1 op2
              = del_with_length (del_with_position op1 p) l.
Proof.
  exists (position (transformDeleteDelete op1 op2)),
         (length (transformDeleteDelete op1 op2)).
  unfold transformDeleteDelete.
  destruct op1 as [[i u t p] x]; simpl.
  repeat match goal with |- context [if ?c then _ else _] => destruct c end;
    reflexivity.
Qed.

(** C10. [transform a b] keeps the variant of [a] (an insert stays an
    insert, a delete stays a delete) and its [id], [userId] and
    [timestamp]; an insert also keeps its [text]. The result is [a] with
    [position] overwritten and, for a delete, [length] overwritten too. *)
Theorem transform_frame (a b : Operation) :
  same_but_indices a (transform a b)
  /\ match a with
     | Insert i => exists p, transform a b = Insert (ins_with_position i p)
     | Delete d =>
         exists p l, transform a b
                     = Delete (del_with_length (del_with_position d p) l)
     end.
Proof.
  destruct a as [i|d], b as [i2|d2]; simpl.
  - destruct (transformInsertInsert_shape i i2) as [p ->]. simpl. eauto 10.
  - destruct (transformInsertDelete_shape i d2) as [p ->]. simpl. eauto 10.
  - destruct (transformDeleteInsert_shape d i2) as [p [l ->]]. simpl.
    eauto 10.
  - destruct (transformDeleteDelete_shape d d2) as [p [l ->]]. simpl.
    eauto 10.
Qed.

(** X9. Transforming against a queue given in two batches is transforming
    against the first batch and then against the second. *)
Theorem transformAgainst_app op xs ys :
  transformAgainst op (xs ++ ys)
  = transformAgainst (transformAgainst op xs) ys.
Proof. revert op. induction xs as [|x xs IH]; intros op; simpl; auto. Qed.

(** C6. [transformAgainst op [q1; ..; qn]] is the left fold of [transform]
    over the queue: [transform (.. (transform op q1) ..) qn]. *)
Theorem transformAgainst_fold_left (op : Operation) (qs : list Operation) :
  transformAgainst op qs = fold_left transform qs op.
Proof.
  revert op. induction qs as [|q qs IH]; intros op.
  - reflexivity.
  - simpl. apply IH.
Qed.

(** On distinct strings [<] is a strict total order: exactly one of
    [s < t], [t < s] holds. *)
Lemma ltb_antisym_neq s t :
  s <> t -> String.ltb t s = negb (String.ltb s t).
Proof.
  intros Hne. unfold String.ltb.
  rewrite (String.compare_antisym t s).
  destruct (String.compare s t) eqn:E; simpl; try reflexivity.
  apply String.compare_eq_iff in E. contradiction.
Qed.

Lemma ltb_asym s t : String.ltb s t = true -> String.ltb t s = false.
Proof.
  unfold String.ltb. rewrite (String.compare_antisym t s).
  destruct (String.compare s t); simpl; congruence.
Qed.

Lemma ltb_total s t :
  String.ltb s t = false -> String.ltb t s = false -> s = t.
Proof.
  unfold String.ltb. rewrite (String.compare_antisym t s).
  destruct (String.compare s t) eqn:E; simpl; try congruence.
  intros _ _. now apply String.compare_eq_iff.
Qed.

(** *** Convergence outside the conflicts *)

Lemma tp1_insert_insert s (a b : InsertOperation) :
  valid_on s (Insert a) -> valid_on s (Insert b) ->
  ~ conflicting (Insert a) (Insert b) ->
  tp1 s (Insert a) (Insert b).
Proof.
  unfold tp1. simpl. intros Ha Hb Hc. unfold transformInsertInsert.
  pose proof (strlen_chars s) as Ls.
  pose proof (strlen_chars (text a)) as La.
  pose proof (strlen_chars (text b)) as Lb.
  destruct (Z.ltb_spec (position b) (position a));
    destruct (Z.ltb_spec (position a) (position b)); try lia.
  - destruct (Z.eqb_spec (position a) (position b)); try lia.
    to_segments. by_lookup.
  - destruct (Z.eqb_spec (position b) (position a)); try lia.
    to_segments. by_lookup.
  - destruct (Z.eqb_spec (position b) (position a)); try lia.
    destruct (Z.eqb_spec (position a) (position b)); try lia.
    destruct (String.ltb (userId b) (userId a)) eqn:Hba.
    + rewrite (ltb_asym _ _ Hba). to_segments. by_lookup.
    + destruct (String.ltb (userId a) (userId b)) eqn:Hab.
      * to_segments. by_lookup.
      * exfalso. apply Hc. split; [congruence|]. now apply ltb_total.
Qed.

Lemma tp1_delete_insert s (a : DeleteOperation) (b : InsertOperation) :
  valid_on s (Delete a) -> valid_on s (Insert b) ->
  ~ conflicting (Delete a) (Insert b) ->
  tp1 s (Delete a) (Insert b).
Proof.
  unfold tp1. simpl. intros (Hp & Hk & Hr) Hb Hc.
  unfold transformInsertDelete, transformDeleteInsert.
  pose proof (strlen_chars s) as Ls.
  pose proof (strlen_chars (text b)) as Lb.
  destruct (Z.leb_spec (position a + length a) (position b));
    destruct (Z.leb_spec (position b) (position a));
    repeat match goal with
           | |- context [Z.ltb ?x ?y] => destruct (Z.ltb_spec x y)
           end;
    try lia; to_segments; by_lookup.
Qed.

Lemma tp1_delete_delete s (a b : DeleteOperation) :
  valid_on s (Delete a) -> valid_on s (Delete b) ->
  tp1 s (Delete a) (Delete b).
Proof.
  unfold tp1. simpl. intros (Hp & Hk & Hr) (Hq & Hm & Hr').
  unfold transformDeleteDelete.
  pose proof (strlen_chars s) as Ls.
  repeat match goal with
         | |- context [Z.leb ?x ?y] => destruct (Z.leb_spec x y)
         | |- context [Z.geb ?x ?y] => destruct (Z.geb_spec x y)
         end;
    try lia; to_segments; by_lookup.
Qed.

(** X1. TP1 holds for every pair of operations valid on the same base, the
    conflicting pairs apart: two deletes always converge, an insert and a
    delete converge unless the insert falls strictly inside the deleted
    range, two inserts converge unless they share position and user id. *)
Theorem tp1_without_conflict s a b :
  valid_on s a -> valid_on s b -> ~ conflicting a b -> tp1 s a b.
Proof.
  destruct a as [i1|d1], b as [i2|d2]; intros Ha Hb Hc.
  - now apply tp1_insert_insert.
  - symmetry. apply tp1_delete_insert; trivial.
  - now apply tp1_delete_insert.
  - now apply tp1_delete_delete.
Qed.

Lemma tp1_without_conflict_witness :
  tp1 "abcdefgh" (del "A" 2 3) (del "B" 3 3).
Proof.
  apply tp1_without_conflict; simpl; unfold JS.strlen; simpl; lia.
Defined.

(** C4. Two inserts at the same position by distinct users: the tie is
    broken by comparing the user ids as strings. If [b.userId < a.userId]
    then [a] moves right by the length of [b]'s text, otherwise [a] is
    returned unchanged; exactly one of the two operations moves, and on
    every base on which the position is valid the two orders converge. On
    the base ["ab"], with A inserting ["X"] at 1 and B inserting ["Y"] at
    1, both orders give ["aXYb"]. *)
Theorem transform_insert_tie_break :
  (forall a b : InsertOperation,
      position a = position b ->
      userId a <> userId b ->
      transform (Insert a) (Insert b)
      = Insert (if String.ltb (userId b) (userId a)
                then ins_with_position a (position a + JS.strlen (text b))
                else a)
      /\ String.ltb (userId b) (userId a)
         = negb (String.ltb (userId a) (userId b))
      /\ (forall s, 0 <= position a <= JS.strlen s ->
                    tp1 s (Insert a) (Insert b)))
  /\ apply (apply "ab" (ins "A" 1 "X"))
           (transform (ins "B" 1 "Y") (ins "A" 1 "X")) = "aXYb"
  /\ apply (apply "ab" (ins "B" 1 "Y"))
           (transform (ins "A" 1 "X") (ins "B" 1 "Y")) = "aXYb".
Proof.
  split; [|split; reflexivity].
  intros a b Hpos Hne. split; [|split].
  - simpl. unfold transformInsertInsert.
    rewrite Hpos, Z.ltb_irrefl, Z.eqb_refl. reflexivity.
  - apply ltb_antisym_neq. congruence.
  - intros s Hs. apply tp1_insert_insert; simpl; try lia. tauto.
Qed.

Lemma transform_insert_tie_break_witness :
  transform (ins "A" 1 "X") (ins "B" 1 "Y") = ins "A" 1 "X"
  /\ transform (ins "B" 1 "Y") (ins "A" 1 "X") = ins "B" 2 "Y"
  /\ tp1 "ab" (ins "A" 1 "X") (ins "B" 1 "Y").
Proof.
  pose proof (proj1 transform_insert_tie_break) as H.
  split; [|split].
  - apply (H {| ins_base := mkBase "op" "A" 0 1; text := "X" |}
             {| ins_base := mkBase "op" "B" 0 1; text := "Y" |});
      [reflexivity | discriminate].
  - apply (H {| ins_base := mkBase "op" "B" 0 1; text := "Y" |}
             {| ins_base := mkBase "op" "A" 0 1; text := "X" |});
      [reflexivity | discriminate].
  - apply (H {| ins_base := mkBase "op" "A" 0 1; text := "X" |}
             {| ins_base := mkBase "op" "B" 0 1; text := "Y" |});
      [reflexivity | discriminate |].
    simpl. unfold JS.strlen. simpl. lia.
Defined.

(** C1, at the input of the specification's third scenario. Base
    ["abcdef"], [a] deletes 4 units at 1, [b] inserts ["X"] at 3: applying
    [a] and then [transform b a] gives ["aXf"], applying [b] and then
    [transform a b] gives ["af"]. The two orders do not converge: the
    insert transformed against the delete survives at the deletion point,
    the delete transformed against the insert sweeps the inserted text. *)
Theorem tp1_insert_inside_delete_diverges :
  let s := "abcdef" in
  let a := del "A" 1 4 in
  let b := ins "B" 3 "X" in
  apply (apply s a) (transform b a) = "aXf"
  /\ apply (apply s b) (transform a b) = "af"
  /\ apply (apply s a) (transform b a) <> apply (apply s b) (transform a b).
Proof. repeat split; try reflexivity. discriminate. Qed.

Lemma strlen_applyInsert s (i : InsertOperation) :
  JS.strlen (applyInsert s i) = JS.strlen s + JS.strlen (text i).
Proof.
  rewrite !strlen_chars, chars_applyInsert_at, length_ins_at. lia.
Qed.

Lemma strlen_applyDelete s (d : DeleteOperation) :
  valid_on s (Delete d) ->
  JS.strlen (applyDelete s d) = JS.strlen s - length d.
Proof.
  intros (Hp & Hk & Hr). pose proof (strlen_chars s) as Ls.
  rewrite (strlen_chars (applyDelete s d)), chars_applyDelete_at by lia.
  rewrite length_del_at by lia. lia.
Qed.

(** X2. The divergence is general: whenever a non-empty insert falls strictly
    inside the range of a concurrent delete, the two orders leave texts of
    different lengths. *)
Theorem tp1_fails_inside_delete s (a : DeleteOperation) (b : InsertOperation) :
  valid_on s (Delete a) -> valid_on s (Insert b) ->
  position a < position b < position a + length a ->
  text b <> "" ->
  ~ tp1 s (Delete a) (Insert b).
Proof.
  intros Ha Hb Hin Hne Htp. unfold tp1 in Htp. simpl in Htp.
  unfold transformInsertDelete, transformDeleteInsert in Htp.
  destruct (Z.leb_spec (position a + length a) (position b)); [lia|].
  destruct (Z.ltb_spec (position a) (position b)); [|lia].
  destruct (Z.leb_spec (position b) (position a)); [lia|].
  destruct (Z.ltb_spec (position b) (position a + length a)); [|lia].
  apply (f_equal JS.strlen) in Htp.
  pose proof (strlen_applyDelete s a Ha) as L1.
  destruct Ha as (Hp & Hk & Hr). simpl in Hb.
  pose proof (strlen_nonneg (text b)) as Hx.
  rewrite !strlen_applyInsert, L1 in Htp. simpl in Htp.
  rewrite strlen_applyDelete in Htp
    by (unfold valid_on; rewrite strlen_applyInsert; simpl; lia).
  rewrite strlen_applyInsert in Htp. simpl in Htp.
  assert (JS.strlen (text b) = 0) as Hz by lia.
  destruct (text b); [congruence|]. unfold JS.strlen in Hz. simpl in Hz. lia.
Qed.

Lemma tp1_fails_inside_delete_witness :
  ~ tp1 "abcdef" (del "A" 1 4) (ins "B" 3 "X").
Proof.
  apply (tp1_fails_inside_delete "abcdef"
           {| del_base := mkBase "op" "A" 0 1; length := 4 |}
           {| ins_base := mkBase "op" "B" 0 3; text := "X" |});
    simpl; unfold JS.strlen; simpl; try lia; discriminate.
Defined.

End Transform.

Section Apply.

Import OTEngine.

(** C2 as stated fails: on ["abc"] an insert at position 5 is past the
    end, yet [apply] returns ["abcX"]; a delete of 5 units at position 2
    runs past the end, yet [apply] returns ["ab"]. *)
Lemma apply_out_of_range_returns :
  position (base (ins "A" 5 "X")) > JS.strlen "abc"
  /\ apply_result "abc" (ins "A" 5 "X") = Applied "abcX"
  /\ apply_result "abc" (ins "A" 5 "X") <> OutOfRange
  /\ 2 + 5 > JS.strlen "abc"
  /\ apply_result "abc" (del "A" 2 5) = Applied "ab"
  /\ apply_result "abc" (del "A" 2 5) <> OutOfRange.
Proof. repeat split; try reflexivity; discriminate. Qed.

Lemma split_at (txt : string) (p : Z) :
  0 <= p <= JS.strlen txt ->
  exists before after,
    txt = before +:+ after
    /\ JS.strlen before = p
    /\ chars before = take (Z.to_nat p) (chars txt)
    /\ chars after = drop (Z.to_nat p) (chars txt).
Proof.
  intros Hp.
  exists (JS.substring txt 0 (Some p)), (JS.substring txt p None).
  pose proof (strlen_chars txt) as L.
  repeat split.
  - apply chars_inj.
    rewrite chars_app, chars_substring_prefix, chars_substring_suffix.
    now rewrite take_drop.
  - rewrite strlen_chars, chars_substring_prefix, length_take. lia.
  - apply chars_substring_prefix.
  - apply chars_substring_suffix.
Qed.

(** C2, amended. [apply] never fails. An insert in range splits the text
    at [position] and puts [text] between the halves; an insert past the
    end appends [text]. A delete in range removes [length] units starting
    at [position]; a delete that runs past the end removes everything
    from [position] (or from the end of the text, if [position] is past
    it) onwards. *)
Theorem apply_never_fails_clamps (txt : string) (operation : Operation) :
  apply_result txt operation = Applied (apply txt operation)
  /\ match operation with
     | Insert op =>
         (0 <= position op <= JS.strlen txt ->
          exists before after,
            txt = before +:+ after
            /\ JS.strlen before = position op
            /\ apply txt operation = before +:+ text op +:+ after)
         /\ (position op > JS.strlen txt ->
             apply txt operation = txt +:+ text op)
     | Delete op =>
         (0 <= position op -> 0 <= length op ->
          position op + length op <= JS.strlen txt ->
          exists before removed after,
            txt = before +:+ removed +:+ after
            /\ JS.strlen before = position op
            /\ JS.strlen removed = length op
            /\ apply txt operation = before +:+ after)
         /\ (0 <= position op -> 0 <= length op ->
             position op + length op > JS.strlen txt ->
             exists before removed,
               txt = before +:+ removed
               /\ JS.strlen before = Z.min (position op) (JS.strlen txt)
               /\ apply txt operation = before)
     end.
Proof.
  split; [reflexivity|].
  pose proof (strlen_chars txt) as L.
  destruct operation as [op|op]; simpl; split.
  - intros Hp. destruct (split_at txt (position op) Hp)
      as (before & after & Htxt & Hlen & Hb & Ha).
    exists before, after. repeat split; trivial.
    apply chars_inj. rewrite chars_applyInsert, !chars_app.
    now rewrite Hb, Ha.
  - intros Hp. apply chars_inj.
    rewrite chars_applyInsert, chars_app.
    rewrite take_ge, drop_ge by lia. now rewrite app_nil_r.
  - intros Hp Hl Hr.
    destruct (split_at txt (position op) ltac:(lia))
      as (before & rest & Htxt & Hlen & Hb & Hrest).
    assert (Hrl : JS.strlen rest = JS.strlen txt - position op).
    { rewrite (strlen_chars rest), Hrest, length_drop. lia. }
    destruct (split_at rest (length op) ltac:(lia))
      as (removed & after & Hrest' & Hlen' & Hm & Ha).
    exists before, removed, after. repeat split; trivial.
    + now rewrite <- Hrest'.
    + apply chars_inj. rewrite chars_applyDelete, chars_app.
      rewrite Hb, Ha, Hrest, drop_drop. do 2 f_equal. lia.
  - intros Hp Hl Hr.
    destruct (split_at txt (Z.min (position op) (JS.strlen txt))
                       ltac:(lia))
      as (before & removed & Htxt & Hlen & Hb & Hrm).
    exists before, removed. repeat split; trivial.
    apply chars_inj. rewrite chars_applyDelete, Hb.
    rewrite drop_ge by lia. rewrite app_nil_r.
    destruct (Z_le_gt_dec (position op) (JS.strlen txt)).
    + f_equal. lia.
    + rewrite !take_ge by lia. reflexivity.
Qed.

Lemma apply_never_fails_clamps_witness :
  (exists before after,
      "hello" = before +:+ after /\ JS.strlen before = 2
      /\ apply "hello" (ins "A" 2 "XY") = before +:+ "XY" +:+ after)
  /\ (exists before removed after,
         "hello" = before +:+ removed +:+ after /\ JS.strlen before = 1
         /\ JS.strlen removed = 3
         /\ apply "hello" (del "A" 1 3) = before +:+ after)
  /\ apply "hello" (ins "A" 9 "XY") = "helloXY"
  /\ (exists before removed,
         "hello" = before +:+ removed /\ JS.strlen before = 2
         /\ apply "hello" (del "A" 2 7) = before).
Proof.
  repeat apply conj.
  - apply (proj1 (proj2 (apply_never_fails_clamps "hello" (ins "A" 2 "XY")))).
    simpl; unfold JS.strlen; simpl; lia.
  - apply (proj1 (proj2 (apply_never_fails_clamps "hello" (del "A" 1 3))));
      simpl; unfold JS.strlen; simpl; lia.
  - apply (proj2 (proj2 (apply_never_fails_clamps "hello" (ins "A" 9 "XY")))).
    simpl; unfold JS.strlen; simpl; lia.
  - apply (proj2 (proj2 (apply_never_fails_clamps "hello" (del "A" 2 7))));
      simpl; unfold JS.strlen; simpl; lia.
Defined.

End Apply.

Section Compose.

Import OTEngine.

Lemma compose_insert_insert (i1 i2 : InsertOperation) (s : string) :
  position i2 = position i1 + JS.strlen (text i1) ->
  0 <= position i1 <= JS.strlen s ->
  applyInsert (applyInsert s i1) i2
  = applyInsert s (ins_with_text i1 (text i1 +:+ text i2)).
Proof.
  intros Hadj Hp. apply chars_inj.
  rewrite !chars_applyInsert. simpl. rewrite chars_app, Hadj.
  pose proof (strlen_chars s) as L.
  pose proof (strlen_chars (text i1)) as L1.
  set (l := chars s) in *. set (p := Z.to_nat (position i1)).
  assert (Hlen : List.length (take p l ++ chars (text i1))
                 = Z.to_nat (position i1 + JS.strlen (text i1))).
  { rewrite length_app, length_take. lia. }
  rewrite (app_assoc (take p l)).
  rewrite take_app_length', drop_app_length' by (symmetry; exact Hlen).
  now rewrite <- !app_assoc.
Qed.

Lemma compose_delete_delete (d1 d2 : DeleteOperation) (s : string) :
  position d2 = position d1 ->
  0 <= position d1 -> 0 <= length d1 -> 0 <= length d2 ->
  position d1 + (length d1 + length d2) <= JS.strlen s ->
  applyDelete (applyDelete s d1) d2
  = applyDelete s (del_with_length d1 (length d1 + length d2)).
Proof.
  intros Hsame Hp Hk Hm Hr. apply chars_inj.
  rewrite !chars_applyDelete. simpl. rewrite Hsame.
  pose proof (strlen_chars s) as L.
  set (l := chars s) in *. set (p := Z.to_nat (position d1)).
  assert (Hlen : List.length (take p l) = p).
  { rewrite length_take. lia. }
  rewrite take_app_length' by (symmetry; exact Hlen).
  f_equal.
  rewrite drop_app_ge by lia. rewrite Hlen, drop_drop. f_equal. lia.
Qed.

Lemma compose_Some_iff (a b c : Operation) :
  compose a b = Some c <-> composable a b c.
Proof.
  unfold composable. split.
  - destruct a as [i1|d1], b as [i2|d2]; simpl; try discriminate.
    + destruct (Z.eqb_spec (position i1 + JS.strlen (text i1))
                           (position i2)) as [E|]; [|discriminate].
      destruct (String.eqb_spec (userId i1) (userId i2)) as [U|];
        [|discriminate].
      simpl. intros [= <-]. left. exists i1, i2. auto.
    + destruct (Z.eqb_spec (position d1) (position d2)) as [E|];
        [|discriminate].
      destruct (String.eqb_spec (userId d1) (userId d2)) as [U|];
        [|discriminate].
      simpl. intros [= <-]. right. exists d1, d2. auto.
  - intros [(i1 & i2 & -> & -> & Hp & Hu & ->)
           |(d1 & d2 & -> & -> & Hp & Hu & ->)]; simpl.
    + rewrite Hp, Hu, Z.eqb_refl, String.eqb_refl. reflexivity.
    + rewrite Hp, Hu, Z.eqb_refl, String.eqb_refl. reflexivity.
Qed.

(** C5. Whenever [compose a b] returns [c], and [a], [b] are operations
    of the data model and [c] is valid on [s], applying [a] and then [b]
    to [s] gives the text that applying [c] gives. [compose] returns an
    operation exactly for a same-user insert [(p, s)] followed by an
    insert at [p + len s], giving the insert of [s ++ t] at [p], and for
    a same-user delete [(p, k)] followed by a delete [(p, m)], giving the
    delete [(p, k + m)]; otherwise it returns none. *)
Theorem compose_sound_exact (a b : Operation) :
  (forall c s,
      compose a b = Some c ->
      well_formed a -> well_formed b -> valid_on s c ->
      apply (apply s a) b = apply s c)
  /\ (forall c, compose a b = Some c <-> composable a b c)
  /\ ((forall c, ~ composable a b c) -> compose a b = None).
Proof.
  split; [|split].
  - intros c s Hc Ha Hb Hv. apply compose_Some_iff in Hc.
    destruct Hc as [(i1 & i2 & -> & -> & Hp & Hu & ->)
                   |(d1 & d2 & -> & -> & Hp & Hu & ->)]; simpl in *.
    + now apply compose_insert_insert.
    + apply compose_delete_delete; tauto.
  - intros c. apply compose_Some_iff.
  - intros Hno. destruct (compose a b) as [c|] eqn:E; [|reflexivity].
    apply compose_Some_iff in E. now apply Hno in E.
Qed.

Lemma compose_sound_exact_witness :
  compose (ins "A" 0 "he") (ins "A" 2 "llo") = Some (ins "A" 0 "hello")
  /\ apply (apply "" (ins "A" 0 "he")) (ins "A" 2 "llo")
     = apply "" (ins "A" 0 "hello")
  /\ compose (ins "A" 0 "he") (del "A" 2 1) = None.
Proof.
  split; [reflexivity|]. split.
  - apply (proj1 (compose_sound_exact (ins "A" 0 "he") (ins "A" 2 "llo"))
             (ins "A" 0 "hello") "").
    + reflexivity.
    + simpl. lia.
    + simpl. lia.
    + simpl. unfold JS.strlen. simpl. lia.
  - apply (proj2 (proj2
             (compose_sound_exact (ins "A" 0 "he") (del "A" 2 1)))).
    intros c [(i1 & i2 & _ & Hb & _)|(d1 & d2 & Ha & _)]; discriminate.
Defined.

(** The same soundness, with validity read step by step: [a] valid on
    [s] and [b] valid on the text [a] leaves. *)
Lemma compose_sound_stepwise (a b c : Operation) (s : string) :
  compose a b = Some c ->
  valid_on s a -> valid_on (apply s a) b ->
  apply (apply s a) b = apply s c.
Proof.
  intros Hc Ha Hb. apply compose_Some_iff in Hc.
  destruct Hc as [(i1 & i2 & -> & -> & Hp & Hu & ->)
                 |(d1 & d2 & -> & -> & Hp & Hu & ->)]; simpl in *.
  - now apply compose_insert_insert.
  - destruct Ha as (Hp1 & Hk & Hr), Hb as (_ & Hm & Hr2).
    apply compose_delete_delete; trivial.
    rewrite strlen_chars, chars_applyDelete, length_app, length_take,
      length_drop in Hr2.
    pose proof (strlen_chars s). lia.
Qed.

End Compose.

Section Detect.

(** C7. The change detector returns none when the texts are equal; an
    insert of [len new - len old] units ending at the caret, with the
    text read from [new], when [new] is longer; a delete of
    [len old - len new] units at the caret when [new] is shorter; and
    none when the lengths agree but the contents differ. When the caret
    lies inside [new] the inserted text is the units
    [position .. caret - 1] of [new]. *)
Theorem detectChange_cases (env : Clock) (oldText newText : string)
    (cursorPosition : Z) (uid : string) :
  let oldLen := JS.strlen oldText in
  let newLen := JS.strlen newText in
  let insertedLength := newLen - oldLen in
  (oldText = newText ->
   detectChange env oldText newText cursorPosition uid = None)
  /\ (newLen > oldLen ->
      detectChange env oldText newText cursorPosition uid
      = Some (Insert
          {| ins_base := {| id := fresh_id env; userId := uid;
                            timestamp := now env;
                            position := cursorPosition - insertedLength |};
             text := JS.substring newText
                       (cursorPosition - insertedLength)
                       (Some cursorPosition) |}))
  /\ (0 <= cursorPosition - insertedLength ->
      insertedLength >= 0 -> cursorPosition <= newLen ->
      chars (JS.substring newText (cursorPosition - insertedLength)
               (Some cursorPosition))
      = take (Z.to_nat insertedLength)
          (drop (Z.to_nat (cursorPosition - insertedLength))
             (chars newText)))
  /\ (newLen < oldLen ->
      detectChange env oldText newText cursorPosition uid
      = Some (Delete
          {| del_base := {| id := fresh_id env; userId := uid;
                            timestamp := now env;
                            position := cursorPosition |};
             length := oldLen - newLen |}))
  /\ (newLen = oldLen -> oldText <> newText ->
      detectChange env oldText newText cursorPosition uid = None).
Proof.
  intros oldLen newLen insertedLength. unfold detectChange.
  fold oldLen. fold newLen. fold insertedLength.
  assert (Hslice :
    0 <= cursorPosition - insertedLength ->
    insertedLength >= 0 -> cursorPosition <= newLen ->
    chars (JS.substring newText (cursorPosition - insertedLength)
             (Some cursorPosition))
    = take (Z.to_nat insertedLength)
        (drop (Z.to_nat (cursorPosition - insertedLength))
           (chars newText))).
  { intros H0 H1 H2. rewrite chars_substring_range by (fold newLen; lia).
    do 2 f_equal. lia. }
  destruct (String.eqb_spec oldText newText) as [E|NE].
  - repeat split; trivial; try reflexivity; intros H; exfalso;
      subst; unfold oldLen, newLen in *; try lia; try congruence.
  - repeat split; trivial; intros H.
    + contradiction.
    + destruct (Z.gtb_spec newLen oldLen); [reflexivity|lia].
    + destruct (Z.gtb_spec newLen oldLen); [lia|].
      destruct (Z.ltb_spec newLen oldLen); [reflexivity|lia].
    + intros _. destruct (Z.gtb_spec newLen oldLen); [lia|].
      destruct (Z.ltb_spec newLen oldLen); [lia|reflexivity].
Qed.

Lemma detectChange_cases_witness :
  detectChange (mkClock 7 "op_7") "abc" "abc" 3 "A" = None
  /\ detectChange (mkClock 7 "op_7") "abc" "abXYc" 4 "A"
     = Some (Insert {| ins_base := mkBase "op_7" "A" 7 2; text := "XY" |})
  /\ chars (JS.substring "abXYc" 2 (Some 4))
     = take 2 (drop 2 (chars "abXYc"))
  /\ detectChange (mkClock 7 "op_7") "abcde" "abe" 2 "A"
     = Some (Delete {| del_base := mkBase "op_7" "A" 7 2; length := 2 |})
  /\ detectChange (mkClock 7 "op_7") "abc" "abd" 3 "A" = None.
Proof.
  repeat apply conj.
  - apply (proj1 (detectChange_cases (mkClock 7 "op_7") "abc" "abc" 3 "A")).
    reflexivity.
  - apply (proj1 (proj2
      (detectChange_cases (mkClock 7 "op_7") "abc" "abXYc" 4 "A"))).
    unfold JS.strlen; simpl; lia.
  - apply (proj1 (proj2 (proj2
      (detectChange_cases (mkClock 7 "op_7") "abc" "abXYc" 4 "A"))));
      unfold JS.strlen; simpl; lia.
  - apply (proj1 (proj2 (proj2 (proj2
      (detectChange_cases (mkClock 7 "op_7") "abcde" "abe" 2 "A"))))).
    unfold JS.strlen; simpl; lia.
  - apply (proj2 (proj2 (proj2 (proj2
      (detectChange_cases (mkClock 7 "op_7") "abc" "abd" 3 "A"))))).
    + reflexivity.
    + discriminate.
Defined.

End Detect.

(** ** Properties of the relay *)

Section Relay.

Import Server.

Lemma applyToContent_apply txt op :
  applyToContent txt op = OTEngine.apply txt op.
Proof. destruct op; reflexivity. Qed.

Lemma doc_inv_set_users doc us : doc_inv doc -> doc_inv (set_users doc us).
Proof. intros H. exact H. Qed.

Lemma getDocument_spec documentId docs :
  docs_inv docs ->
  doc_inv (getDocument documentId docs).1
  /\ docs_inv (getDocument documentId docs).2
  /\ (getDocument documentId docs).2 !! documentId
     = Some (getDocument documentId docs).1.
Proof.
  intros Hinv. unfold getDocument.
  destruct (docs !! documentId) as [doc|] eqn:E; simpl.
  - split; [|split]; trivial. exact (Hinv _ _ E).
  - assert (Hnew : doc_inv
      {| doc_id := documentId; content := ""; version := 0;
         operations := []; users := [] |}) by (split; reflexivity).
    split; [exact Hnew|]. split.
    + apply map_Forall_insert_2; assumption.
    + apply lookup_insert_eq.
Qed.

Lemma removeUser_inv documentId socketId docs :
  docs_inv docs -> docs_inv (removeUser documentId socketId docs).
Proof.
  intros Hinv. unfold removeUser.
  destruct (docs !! documentId) as [doc|] eqn:E; [|assumption].
  apply map_Forall_insert_2; [|assumption].
  apply doc_inv_set_users, (Hinv _ _ E).
Qed.

Lemma addUser_inv documentId socketId sock st :
  relay_inv st -> relay_inv (addUser documentId socketId sock st).2.
Proof.
  intros Hinv. unfold addUser.
  destruct (getDocument_spec documentId _ Hinv) as (Hd & Hdocs & _).
  destruct (getDocument documentId (documents st)) as [doc docs].
  simpl in *. apply map_Forall_insert_2; [|assumption].
  now apply doc_inv_set_users.
Qed.

Lemma replay_snoc log entry :
  replay (log ++ [entry]) = OTEngine.apply (replay log) (logged entry).
Proof. unfold replay. now rewrite fold_left_app. Qed.

Lemma on_join_document_inv socketId documentId sock st :
  relay_inv st ->
  relay_inv (on_join_document socketId documentId sock st).1.
Proof.
  intros Hinv. unfold on_join_document.
  set (left := match JS.when_truthy (currentDocumentId sock) with
               | Some previous =>
                   (rooms sock ∖ {[previous]},
                    removeUser previous socketId (documents st))
               | None => (rooms sock, documents st)
               end).
  assert (Hleft : docs_inv left.2).
  { unfold left. destruct (JS.when_truthy (currentDocumentId sock));
      simpl; [now apply removeUser_inv | assumption]. }
  destruct left as [rooms1 docs1]. simpl in Hleft.
  destruct (getDocument_spec documentId docs1 Hleft) as (_ & Hdocs2 & _).
  destruct (getDocument documentId docs1) as [d0 docs2]. simpl in Hdocs2.
  pose proof (addUser_inv documentId socketId sock
                (set_documents st docs2) Hdocs2) as Hadd.
  destruct (addUser documentId socketId sock (set_documents st docs2))
    as [user st3].
  exact Hadd.
Qed.

Lemma on_operation_inv socketId dateNow op sock st :
  relay_inv st -> relay_inv (on_operation socketId dateNow op sock st).1.
Proof.
  intros Hinv. unfold on_operation.
  destruct (JS.when_truthy (currentDocumentId sock)) as [current|];
    [|assumption].
  destruct (getDocument_spec current _ Hinv) as ((Hv & Hc) & Hdocs & _).
  destruct (getDocument current (documents st)) as [doc docs1].
  simpl in *. apply map_Forall_insert_2; [|assumption].
  split; simpl.
  - rewrite length_app, Hv. simpl. lia.
  - rewrite replay_snoc, Hc. symmetry. apply applyToContent_apply.
Qed.

Lemma on_cursor_position_inv socketId pos sock st :
  relay_inv st -> relay_inv (on_cursor_position socketId pos sock st).1.
Proof.
  intros Hinv. unfold on_cursor_position.
  destruct (JS.when_truthy (currentDocumentId sock)) as [current|];
    [|assumption].
  destruct (currentUser sock); [|assumption].
  destruct (getDocument_spec current _ Hinv) as (Hd & Hdocs & _).
  destruct (getDocument current (documents st)) as [doc docs1].
  simpl in *.
  destruct (JS.map_get socketId (users doc)); simpl; [|assumption].
  apply map_Forall_insert_2; [|assumption].
  now apply doc_inv_set_users.
Qed.

Lemma on_disconnect_inv socketId sock st :
  relay_inv st -> relay_inv (on_disconnect socketId sock st).1.
Proof.
  intros Hinv. unfold on_disconnect.
  destruct (JS.when_truthy (currentDocumentId sock)) as [current|];
    [|assumption].
  pose proof (removeUser_inv current socketId _ Hinv) as Hrem.
  destruct (getDocument_spec current _ Hrem) as (_ & Hdocs & _).
  destruct (getDocument current
              (removeUser current socketId (documents st))) as [doc docs2].
  exact Hdocs.
Qed.

(** C8. The invariant of every document the relay holds: [version] is the
    length of the operation log, and replaying the log from the empty
    string gives [content]. It holds when the relay starts, every handler
    (connection, join-document, operation, cursor-position, disconnect)
    preserves it, and so it holds after every sequence of events. *)
Theorem relay_invariant :
  relay_inv initial
  /\ (forall (socketId : string) (ev : Event) (st : Relay),
         relay_inv st -> relay_inv (handle socketId ev st).1)
  /\ (forall evs : list (string * Event), relay_inv (run evs initial).1).
Proof.
  assert (Hinit : relay_inv initial) by apply map_Forall_empty.
  assert (Hstep : forall socketId ev st,
             relay_inv st -> relay_inv (handle socketId ev st).1).
  { intros socketId ev st Hinv. unfold handle.
    destruct ev as [userName|documentId|dateNow op|pos|];
      try exact Hinv;
      destruct (sockets st !! socketId) as [sock|]; try exact Hinv.
    - now apply on_join_document_inv.
    - now apply on_operation_inv.
    - now apply on_cursor_position_inv.
    - now apply on_disconnect_inv. }
  split; [exact Hinit|]. split; [exact Hstep|].
  intros evs. generalize initial Hinit.
  induction evs as [|[socketId ev] evs IH]; intros st Hinv.
  - exact Hinv.
  - simpl. pose proof (Hstep socketId ev st Hinv) as H1.
    destruct (handle socketId ev st) as [st1 out1].
    specialize (IH st1 H1).
    destruct (run evs st1) as [st2 out2]. exact IH.
Qed.

Lemma relay_invariant_witness :
  relay_inv
    (handle "s1" (operation 101 (del "s1" 1 1))
       {| documents :=
            {[ "d" := {| doc_id := "d"; content := "abc"; version := 1;
                         operations := [mkLogged (ins "s1" 0 "abc") 1 100];
                         users := [("s1", mkUser "s1" "User 1" "#FF6B6B" 0)]
                      |} ]};
          colorIndex := 1;
          sockets :=
            {[ "s1" := {| handshake_userName := None; rooms := {[ "d" ]};
                          currentDocumentId := Some "d";
                          currentUser :=
                            Some (mkUser "s1" "User 1" "#FF6B6B" 0) |} ]}
       |}).1.
Proof.
  apply (proj1 (proj2 relay_invariant)).
  unfold relay_inv, docs_inv. simpl.
  apply map_Forall_singleton. split; reflexivity.
Defined.

(** *** Submitting an operation *)

(** C3 as stated fails. On content ["abc"], a delete of 2 units at
    position 3 would be clamped to position 1 and leave ["a"]; the relay
    leaves ["abc"] and still advances the version. A zero-length delete
    at position 5 would be dropped; the relay advances the version and
    logs it. *)
Lemma submit_neither_clamps_nor_drops :
  summary joined_abc "d" = Some ("abc", 1, 1%nat)
  /\ clamp_as_specified "abc" (del "s1" 3 2) = Some (del "s1" 1 2)
  /\ OTEngine.apply "abc" (del "s1" 1 2) = "a"
  /\ summary (handle "s1" (operation 101 (del "s1" 3 2)) joined_abc).1 "d"
     = Some ("abc", 2, 2%nat)
  /\ clamp_as_specified "abc" (del "s1" 5 0) = None
  /\ summary (handle "s1" (operation 101 (del "s1" 5 0)) joined_abc).1 "d"
     = Some ("abc", 2, 2%nat).
Proof. repeat split; vm_compute; reflexivity. Qed.

Lemma take_clamp {A} (l : list A) (p : Z) :
  take (Z.to_nat (JS.clamp (Z.of_nat (List.length l)) p)) l
  = take (Z.to_nat p) l.
Proof.
  unfold JS.clamp.
  destruct (Z_le_gt_dec p (Z.of_nat (List.length l))).
  - f_equal. lia.
  - rewrite !take_ge by lia. reflexivity.
Qed.

Lemma drop_clamp {A} (l : list A) (p : Z) :
  drop (Z.to_nat (JS.clamp (Z.of_nat (List.length l)) p)) l
  = drop (Z.to_nat p) l.
Proof.
  unfold JS.clamp.
  destruct (Z_le_gt_dec p (Z.of_nat (List.length l))).
  - f_equal. lia.
  - rewrite !drop_ge by lia. reflexivity.
Qed.

(** What [substring] makes of indices out of range: the text an insert
    produces is the one its position clamped into [0, len] produces; a
    delete removes the units between its two ends, each clamped into
    [0, len]. *)
Lemma apply_insert_clamped txt (i : InsertOperation) :
  OTEngine.apply txt (Insert i)
  = OTEngine.apply txt
      (Insert (ins_with_position i (JS.clamp (JS.strlen txt) (position i)))).
Proof.
  apply chars_inj. simpl. rewrite !chars_applyInsert. simpl.
  rewrite strlen_chars. now rewrite take_clamp, drop_clamp.
Qed.

Lemma apply_delete_clamped txt (d : DeleteOperation) :
  let from := JS.clamp (JS.strlen txt) (position d) in
  let to := JS.clamp (JS.strlen txt) (position d + length d) in
  OTEngine.apply txt (Delete d)
  = OTEngine.apply txt
      (Delete (del_with_length (del_with_position d from) (to - from))).
Proof.
  intros from to. apply chars_inj. simpl. rewrite !chars_applyDelete. simpl.
  replace (from + (to - from)) with to by lia.
  unfold from, to. rewrite strlen_chars.
  now rewrite take_clamp, drop_clamp.
Qed.

(** C3, amended. An operation submitted by a joined connection is never
    dropped and its indices are never rewritten, in range or not: the
    content becomes [apply content op], the version is incremented, and
    the operation as submitted, stamped with the new version and the
    server time, is appended to the log; it is then sent with the new
    version to every other roster member. Out-of-range indices are
    absorbed by [substring]: an insert puts its text at its position
    clamped into [0, len]; a delete leaves the units before [from]
    followed by the units from [to] on, where [from] and [to] are its
    position and its position plus length, each clamped into [0, len].
    With a length that is not negative this removes the units between
    [from] and [to], so a delete of zero units or wholly out of range
    leaves the content unchanged; with a negative length it removes
    nothing and repeats the units between [to] and [from]. *)
Theorem submit_applies_as_submitted
    (socketId : string) (dateNow : Z) (op : Operation)
    (sock : Socket) (st : Relay) (current : string) :
  sockets st !! socketId = Some sock ->
  JS.when_truthy (currentDocumentId sock) = Some current ->
  let doc := (getDocument current (documents st)).1 in
  let out := handle socketId (operation dateNow op) st in
  documents out.1 !! current
  = Some {| doc_id := doc_id doc;
            content := OTEngine.apply (content doc) op;
            version := version doc + 1;
            operations := operations doc
                          ++ [mkLogged op (version doc + 1) dateNow];
            users := users doc |}
  /\ out.2 = console_log (log_operation socketId op)
             :: flat_map
                  (fun entry : string * User =>
                     if bool_decide (entry.1 = socketId) then []
                     else [io_to_emit entry.1
                             (operation_msg op (version doc + 1))])
                  (users doc)
  /\ match op with
     | Insert i =>
         OTEngine.apply (content doc) op
         = OTEngine.apply (content doc)
             (Insert (ins_with_position i
                (JS.clamp (JS.strlen (content doc)) (position i))))
     | Delete d =>
         let from := JS.clamp (JS.strlen (content doc)) (position d) in
         let to := JS.clamp (JS.strlen (content doc))
                     (position d + length d) in
         OTEngine.apply (content doc) op
         = OTEngine.apply (content doc)
             (Delete (del_with_length (del_with_position d from)
                        (to - from)))
     end
  /\ match op with
     | Insert i =>
         let from :=
           Z.to_nat (JS.clamp (JS.strlen (content doc)) (position i)) in
         chars (OTEngine.apply (content doc) op)
         = ins_at from (chars (text i)) (chars (content doc))
     | Delete d =>
         let from :=
           Z.to_nat (JS.clamp (JS.strlen (content doc)) (position d)) in
         let to :=
           Z.to_nat (JS.clamp (JS.strlen (content doc))
                       (position d + length d)) in
         chars (OTEngine.apply (content doc) op)
         = take from (chars (content doc)) ++ drop to (chars (content doc))
         /\ (0 <= length d ->
             (from <= to)%nat
             /\ chars (OTEngine.apply (content doc) op)
                = del_at from (to - from) (chars (content doc)))
         /\ (0 <= length d ->
             length d = 0 \/ JS.strlen (content doc) <= position d
             \/ position d + length d <= 0 ->
             OTEngine.apply (content doc) op = content doc)
         /\ (length d < 0 ->
             (to <= from)%nat
             /\ chars (OTEngine.apply (content doc) op)
                = ins_at from
                    (take (from - to) (drop to (chars (content doc))))
                    (chars (content doc)))
     end.
Proof.
  intros Hsock Hcur doc out. subst out. unfold handle.
  rewrite Hsock. unfold on_operation. rewrite Hcur.
  subst doc. destruct (getDocument current (documents st)) as [doc docs1].
  simpl. rewrite applyToContent_apply. split; [|split; [|split]].
  4: { destruct op as [i|d]; simpl.
       - unfold ins_at.
         rewrite chars_applyInsert, strlen_chars, take_clamp, drop_clamp.
         reflexivity.
       - assert (Hgen :
           chars (OTEngine.applyDelete (content doc) d)
           = take (Z.to_nat (JS.clamp (JS.strlen (content doc))
                               (position d))) (chars (content doc))
             ++ drop (Z.to_nat (JS.clamp (JS.strlen (content doc))
                                  (position d + length d)))
                  (chars (content doc))).
         { rewrite chars_applyDelete, strlen_chars, take_clamp, drop_clamp.
           reflexivity. }
         pose proof (strlen_nonneg (content doc)) as Hlen.
         split; [exact Hgen|]. split; [|split].
         + intros Hk. split; [unfold JS.clamp; lia|].
           rewrite Hgen. unfold del_at. do 2 f_equal. unfold JS.clamp. lia.
         + intros Hk Hout. apply chars_inj. rewrite Hgen.
           replace (Z.to_nat (JS.clamp (JS.strlen (content doc))
                                (position d + length d)))
             with (Z.to_nat (JS.clamp (JS.strlen (content doc))
                               (position d)))
             by (unfold JS.clamp; lia).
           apply take_drop.
         + intros Hk. split; [unfold JS.clamp; lia|].
           rewrite Hgen. unfold ins_at. f_equal.
           rewrite <- (take_drop
                         (Z.to_nat (JS.clamp (JS.strlen (content doc))
                                      (position d))
                          - Z.to_nat (JS.clamp (JS.strlen (content doc))
                                        (position d + length d)))
                         (drop (Z.to_nat (JS.clamp (JS.strlen (content doc))
                                            (position d + length d)))
                               (chars (content doc)))) at 1.
           f_equal. rewrite drop_drop. f_equal. unfold JS.clamp. lia. }
  - apply lookup_insert_eq.
  - f_equal. unfold broadcastToDocument. rewrite lookup_insert_eq. simpl.
    apply flat_map_ext. intros [k u]. simpl.
    destruct (decide (k = socketId)) as [->|Hne].
    + now rewrite !bool_decide_eq_true_2.
    + rewrite !bool_decide_eq_false_2; trivial. congruence.
  - destruct op as [i|d].
    + apply apply_insert_clamped.
    + apply apply_delete_clamped.
Qed.

Lemma submit_applies_as_submitted_witness :
  summary (handle "s1" (operation 101 (del "s1" 3 2)) joined_abc).1 "d"
  = Some ("abc", 2, 2%nat)
  /\ (handle "s1" (operation 101 (ins "s1" 9 "!")) joined_abc).2
     = [console_log (log_operation "s1" (ins "s1" 9 "!"))].
Proof.
  split.
  - unfold summary.
    rewrite (proj1 (submit_applies_as_submitted "s1" 101 (del "s1" 3 2)
                      _ joined_abc "d" eq_refl eq_refl)).
    reflexivity.
  - rewrite (proj1 (proj2
      (submit_applies_as_submitted "s1" 101 (ins "s1" 9 "!")
         _ joined_abc "d" eq_refl eq_refl))).
    reflexivity.
Defined.

(** A delete with a negative length, on content ["abc"]: nothing is
    removed, the units between the clamped ends are repeated, and the
    version still advances. *)
Lemma submit_negative_length_repeats :
  summary (handle "s1" (operation 101 (del "s1" 3 (-2))) joined_abc).1 "d"
  = Some ("abcbc", 2, 2%nat)
  /\ summary (handle "s1" (operation 101 (del "s1" 7 (-9))) joined_abc).1 "d"
     = Some ("abcabc", 2, 2%nat).
Proof. split; vm_compute; reflexivity. Qed.

(** *** Operations of a connection that has not joined *)

(** C9. An [operation] message on a connection whose
    [currentDocumentId] is still [null], as it is until the first
    [join-document], is logged and dropped: the relay state (document
    map, every content, version and log, the rosters, the connections) is
    unchanged and the only effect is a [console.error] line; nothing is
    emitted. *)
Theorem operation_before_join_is_dropped
    (socketId : string) (dateNow : Z) (op : Operation)
    (sock : Socket) (st : Relay) :
  sockets st !! socketId = Some sock ->
  currentDocumentId sock = None ->
  let out := handle socketId (operation dateNow op) st in
  out.1 = st
  /\ documents out.1 = documents st
  /\ out.2 = [console_error log_no_document]
  /\ filter (fun e => is_emit e = true) out.2 = [].
Proof.
  intros Hsock Hcur out. subst out. unfold handle.
  rewrite Hsock. unfold on_operation. rewrite Hcur. simpl.
  repeat split; reflexivity.
Qed.

Lemma operation_before_join_is_dropped_witness :
  handle "s2" (operation 101 (ins "s2" 0 "zzz"))
    (handle "s2" (connection None) joined_abc).1
  = ((handle "s2" (connection None) joined_abc).1,
     [console_error log_no_document]).
Proof.
  pose proof (operation_before_join_is_dropped "s2" 101 (ins "s2" 0 "zzz")
                {| handshake_userName := None; rooms := {[ "s2" ]};
                   currentDocumentId := None; currentUser := None |}
                (handle "s2" (connection None) joined_abc).1
                eq_refl eq_refl) as (Hst & _ & Hout & _).
  apply injective_projections; assumption.
Defined.

Lemma handle_keeps_never_joined socketId other ev st :
  never_joined socketId st ->
  (forall documentId, (other, ev) <> (socketId, join_document documentId)) ->
  never_joined socketId (handle other ev st).1.
Proof.
  intros Hnj Hev sock. unfold handle.
  destruct ev as [userName|documentId|dateNow op|pos|].
  - simpl. destruct (decide (other = socketId)) as [->|Hne].
    + rewrite lookup_insert_eq. now intros [= <-].
    + rewrite lookup_insert_ne by assumption. apply Hnj.
  - destruct (sockets st !! other) as [osock|] eqn:Ho; [|apply Hnj].
    unfold on_join_document.
    destruct (match JS.when_truthy (currentDocumentId osock) with
              | Some previous => _ | None => _ end) as [rooms1 docs1].
    destruct (getDocument documentId docs1) as [d0 docs2].
    unfold addUser. simpl.
    destruct (getDocument documentId docs2) as [d1 docs3]. simpl.
    destruct (decide (other = socketId)) as [->|Hne].
    + now destruct (Hev documentId).
    + rewrite lookup_insert_ne by assumption. apply Hnj.
  - destruct (sockets st !! other) as [osock|] eqn:Ho; [|apply Hnj].
    unfold on_operation.
    destruct (JS.when_truthy (currentDocumentId osock)); [|apply Hnj].
    destruct (getDocument s (documents st)). apply Hnj.
  - destruct (sockets st !! other) as [osock|] eqn:Ho; [|apply Hnj].
    unfold on_cursor_position.
    destruct (JS.when_truthy (currentDocumentId osock)); [|apply Hnj].
    destruct (currentUser osock); [|apply Hnj].
    destruct (getDocument s (documents st)) as [doc docs1].
    destruct (JS.map_get other (users doc)); apply Hnj.
  - destruct (sockets st !! other) as [osock|] eqn:Ho; [|apply Hnj].
    unfold on_disconnect.
    destruct (JS.when_truthy (currentDocumentId osock)).
    + destruct (getDocument s _). simpl.
      intros H. apply lookup_delete_Some in H as [_ H]. now apply Hnj.
    + simpl. intros H. apply lookup_delete_Some in H as [_ H].
      now apply Hnj.
Qed.

Lemma run_keeps_never_joined socketId evs st :
  never_joined socketId st ->
  (forall documentId, (socketId, join_document documentId) ∉ evs) ->
  never_joined socketId (run evs st).1.
Proof.
  revert st. induction evs as [|[other ev] evs IH]; intros st Hnj Hevs.
  - exact Hnj.
  - simpl.
    assert (H1 : never_joined socketId (handle other ev st).1).
    { apply handle_keeps_never_joined; [assumption|].
      intros documentId E. apply (Hevs documentId). rewrite E. left. }
    destruct (handle other ev st) as [st1 out1].
    specialize (IH st1 H1).
    destruct (run evs st1) as [st2 out2]. apply IH.
    intros documentId Hin. apply (Hevs documentId). now right.
Qed.

(** From a fresh relay, as long as a connection has sent no
    [join-document], each of its [operation] messages changes nothing
    and emits nothing. *)
Lemma operation_without_join_in_trace socketId evs dateNow op :
  (forall documentId, (socketId, join_document documentId) ∉ evs) ->
  let st := (run evs initial).1 in
  (handle socketId (operation dateNow op) st).1 = st
  /\ filter (fun e => is_emit e = true)
       (handle socketId (operation dateNow op) st).2 = [].
Proof.
  intros Hevs st.
  assert (Hnj : never_joined socketId st).
  { apply run_keeps_never_joined; [|assumption].
    intros sock H. simpl in H. now rewrite lookup_empty in H. }
  unfold handle. destruct (sockets st !! socketId) as [sock|] eqn:E.
  - unfold on_operation. rewrite (Hnj sock E). simpl. auto.
  - auto.
Qed.

End Relay.

(** ** Further properties of the operation algebra *)

Section Algebra.

Import OTEngine.

(** X3. An insert always lengthens the text by the length of its text,
    wherever its position lies; a delete valid on the text shortens it by
    its length; a delete with non-negative position and length never
    lengthens the text, even out of range. *)
Theorem apply_length (s : string) :
  (forall i : InsertOperation,
      JS.strlen (apply s (Insert i)) = JS.strlen s + JS.strlen (text i))
  /\ (forall d : DeleteOperation,
        valid_on s (Delete d) ->
        JS.strlen (apply s (Delete d)) = JS.strlen s - length d)
  /\ (forall d : DeleteOperation,
        well_formed (Delete d) ->
        JS.strlen (apply s (Delete d)) <= JS.strlen s).
Proof.
  split; [|split].
  - intros i. apply strlen_applyInsert.
  - intros d Hd. now apply strlen_applyDelete.
  - intros d (Hp & Hk). simpl.
    rewrite (strlen_chars (applyDelete s d)), chars_applyDelete.
    rewrite length_app, length_take, length_drop.
    pose proof (strlen_chars s). lia.
Qed.

Lemma apply_length_witness :
  JS.strlen (apply "hello" (del "A" 1 3)) = 2
  /\ JS.strlen (apply "hello" (del "A" 4 9)) <= 5.
Proof.
  split.
  - apply (proj1 (proj2 (apply_length "hello"))
             {| del_base := mkBase "op" "A" 0 1; length := 3 |}).
    simpl. unfold JS.strlen. simpl. lia.
  - apply (proj2 (proj2 (apply_length "hello"))
             {| del_base := mkBase "op" "A" 0 4; length := 9 |}).
    simpl. lia.
Defined.

(** X4. Transforming keeps an operation in range: if [a] and [b] are both
    valid on [s], then [transform a b] is valid on the text [b] leaves. *)
Theorem transform_valid (s : string) (a b : Operation) :
  valid_on s a -> valid_on s b -> valid_on (apply s b) (transform a b).
Proof.
  intros Ha Hb.
  destruct a as [i1|d1], b as [i2|d2]; simpl in *.
  - rewrite strlen_applyInsert. pose proof (strlen_nonneg (text i2)).
    unfold transformInsertInsert.
    repeat match goal with
           | |- context [if ?c then _ else _] => destruct c
           end; simpl; lia.
  - rewrite strlen_applyDelete by exact Hb.
    unfold transformInsertDelete.
    destruct (Z.leb_spec (position d2 + length d2) (position i1));
      [simpl; lia|].
    destruct (Z.ltb_spec (position d2) (position i1)); simpl; lia.
  - rewrite strlen_applyInsert. pose proof (strlen_nonneg (text i2)).
    unfold transformDeleteInsert.
    destruct (Z.leb_spec (position i2) (position d1)); [simpl; lia|].
    destruct (Z.ltb_spec (position i2) (position d1 + length d1));
      simpl; lia.
  - rewrite strlen_applyDelete by exact Hb.
    unfold transformDeleteDelete.
    destruct (Z.leb_spec (position d2 + length d2) (position d1));
      [simpl; lia|].
    destruct (Z.geb_spec (position d2) (position d1 + length d1));
      [simpl; lia|].
    destruct (Z.leb_spec (position d2) (position d1)); simpl; lia.
Qed.

Lemma transform_valid_witness :
  valid_on (apply "abcdefgh" (del "B" 3 3))
           (transform (del "A" 2 3) (del "B" 3 3)).
Proof.
  apply transform_valid; simpl; unfold JS.strlen; simpl; lia.
Defined.

Lemma with_position_same (b : BaseOperation) : with_position b (position b) = b.
Proof. now destruct b. Qed.

(** X5. An operation that changes no text leaves every other operation
    alone, and stays one when it is transformed: [transform a b = a]
    whenever [b] inserts the empty string or deletes zero units, and
    [transform a b] is such an operation whenever [a] is. *)
Theorem transform_noop (a b : Operation) :
  (is_noop b -> transform a b = a)
  /\ (is_noop a -> is_noop (transform a b)).
Proof.
  split.
  - destruct a as [[ba x]|[ba k]], b as [i2|d2]; simpl; intros Hb.
    + unfold transformInsertInsert. simpl. rewrite Hb.
      change (JS.strlen "") with 0. rewrite Z.add_0_r.
      unfold ins_with_position. simpl. rewrite with_position_same.
      repeat match goal with
             | |- context [if ?c then _ else _] => destruct c
             end; reflexivity.
    + unfold transformInsertDelete. simpl. rewrite Hb, Z.add_0_r, Z.sub_0_r.
      unfold ins_with_position. simpl. rewrite with_position_same.
      destruct (Z.leb_spec (position d2) (position ba)); [reflexivity|].
      destruct (Z.ltb_spec (position d2) (position ba)); [lia|reflexivity].
    + unfold transformDeleteInsert. simpl. rewrite Hb.
      change (JS.strlen "") with 0. rewrite !Z.add_0_r.
      unfold del_with_position, del_with_length. simpl.
      rewrite with_position_same.
      repeat match goal with
             | |- context [if ?c then _ else _] => destruct c
             end; reflexivity.
    + unfold transformDeleteDelete. simpl. rewrite Hb, Z.add_0_r, Z.sub_0_r.
      unfold del_with_position, del_with_length. simpl.
      rewrite with_position_same.
      destruct (Z.leb_spec (position d2) (position ba)); [reflexivity|].
      destruct (Z.geb_spec (position d2) (position ba + k)); [reflexivity|].
      rewrite Z.min_r by lia. now rewrite Z.sub_0_r.
  - destruct a as [i1|d1], b as [i2|d2]; simpl; intros Ha.
    + destruct (transformInsertInsert_shape i1 i2) as [p ->]. exact Ha.
    + destruct (transformInsertDelete_shape i1 d2) as [p ->]. exact Ha.
    + unfold transformDeleteInsert. rewrite Ha.
      destruct (Z.leb_spec (position i2) (position d1)); [exact Ha|].
      destruct (Z.ltb_spec (position i2) (position d1 + 0)); [lia|exact Ha].
    + unfold transformDeleteDelete. rewrite Ha.
      destruct (Z.leb_spec (position d2 + length d2) (position d1));
        [exact Ha|].
      destruct (Z.geb_spec (position d2) (position d1 + 0)); [exact Ha|].
      destruct (Z.leb_spec (position d2) (position d1)); simpl; lia.
Qed.

Lemma transform_noop_witness :
  transform (ins "A" 2 "xy") (del "B" 1 0) = ins "A" 2 "xy"
  /\ is_noop (transform (del "A" 2 0) (del "B" 1 4)).
Proof.
  split.
  - apply (proj1 (transform_noop (ins "A" 2 "xy") (del "B" 1 0))).
    reflexivity.
  - apply (proj2 (transform_noop (del "A" 2 0) (del "B" 1 4))).
    reflexivity.
Defined.

(** X6. Applying an insert of the empty string or a delete of zero units
    returns the text unchanged, whatever the position, in range or not. *)
Theorem apply_noop (s : string) (o : Operation) :
  is_noop o -> apply s o = s.
Proof.
  destruct o as [i|d]; simpl; intros H; apply chars_inj.
  - rewrite chars_applyInsert, H. simpl. apply take_drop.
  - rewrite chars_applyDelete, H, Z.add_0_r. apply take_drop.
Qed.

Lemma apply_noop_witness : apply "abc" (del "A" 7 0) = "abc".
Proof. apply apply_noop. reflexivity. Defined.

(** X7. A delete whose range lies inside the range of a concurrent delete
    is transformed into a delete of zero units: once the covering delete
    is applied, the covered one removes nothing more. *)
Theorem transform_covered_delete (a b : DeleteOperation) (t : string) :
  0 <= length a ->
  position b <= position a ->
  position a + length a <= position b + length b ->
  length (transformDeleteDelete a b) = 0
  /\ apply t (transform (Delete a) (Delete b)) = t.
Proof.
  intros Hk Hq Hcover.
  assert (Hz : length (transformDeleteDelete a b) = 0).
  { unfold transformDeleteDelete.
    destruct (Z.leb_spec (position b + length b) (position a));
      [simpl; lia|].
    destruct (Z.geb_spec (position b) (position a + length a)); [lia|].
    destruct (Z.leb_spec (position b) (position a)); simpl; lia. }
  split; [exact Hz|]. simpl. apply chars_inj.
  rewrite chars_applyDelete, Hz, Z.add_0_r. apply take_drop.
Qed.

Lemma transform_covered_delete_witness :
  apply "af" (transform (del "A" 2 2) (del "B" 1 4)) = "af".
Proof.
  refine (proj2 (transform_covered_delete
                   {| del_base := mkBase "op" "A" 0 2; length := 2 |}
                   {| del_base := mkBase "op" "B" 0 1; length := 4 |} "af"
                   _ _ _)); simpl; lia.
Defined.

Lemma same_but_indices_transform (a b : Operation) :
  same_but_indices a (transform a b).
Proof.
  destruct a as [i|d], b as [i2|d2]; simpl.
  - destruct (transformInsertInsert_shape i i2) as [p ->]. simpl. auto.
  - destruct (transformInsertDelete_shape i d2) as [p ->]. simpl. auto.
  - destruct (transformDeleteInsert_shape d i2) as [p [l ->]]. simpl. auto.
  - destruct (transformDeleteDelete_shape d d2) as [p [l ->]]. simpl. auto.
Qed.

Lemma same_but_indices_trans (a b c : Operation) :
  same_but_indices a b -> same_but_indices b c -> same_but_indices a c.
Proof.
  destruct a, b, c; simpl; try tauto.
  - intros (-> & -> & -> & ->) H. exact H.
  - intros (-> & -> & ->) H. exact H.
Qed.

(** X8. Transforming against a whole queue keeps the variant of the
    operation and its [id], [userId] and [timestamp], and the [text] of
    an insert: only [position] and a delete's [length] can change, however
    long the queue. *)
Theorem transformAgainst_frame (op : Operation) (qs : list Operation) :
  same_but_indices op (transformAgainst op qs).
Proof.
  revert op. induction qs as [|q qs IH]; intros op; simpl.
  - destruct op; simpl; auto.
  - eapply same_but_indices_trans; [apply same_but_indices_transform|].
    apply IH.
Qed.

(** X11. [compose] is associative: composing three operations grouped to
    the left or to the right yields the same operation, or none in both
    cases. *)
Theorem compose_assoc (a b c : Operation) :
  compose_left a b c = compose_right a b c.
Proof.
  unfold compose_left, compose_right.
  destruct a as [i1|d1], b as [i2|d2], c as [i3|d3]; simpl;
    try reflexivity;
    repeat match goal with
           | |- context [if ?x && ?y then _ else _] =>
               destruct x eqn:?, y eqn:?; simpl
           end;
    try reflexivity;
    repeat match goal with
           | H : (_ =? _) = true |- _ => apply Z.eqb_eq in H
           | H : (_ =? _) = false |- _ => apply Z.eqb_neq in H
           | H : String.eqb _ _ = true |- _ => apply String.eqb_eq in H
           | H : String.eqb _ _ = false |- _ => apply String.eqb_neq in H
           end;
    simpl in *; rewrite ?strlen_app in *;
    try congruence; try lia.
  - do 2 f_equal. unfold ins_with_text. simpl. f_equal.
    apply chars_inj. rewrite !chars_app. now rewrite app_assoc.
  - do 2 f_equal. unfold del_with_length. simpl. f_equal. lia.
Qed.

(** X10. Two inserts at one position under one user id are not ordered by
    the tie-break: neither moves, and the two orders converge exactly when
    the two texts commute under concatenation. *)
Theorem tp1_same_user_tie (s : string) (a b : InsertOperation) :
  position a = position b -> userId a = userId b ->
  0 <= position a <= JS.strlen s ->
  transform (Insert a) (Insert b) = Insert a
  /\ transform (Insert b) (Insert a) = Insert b
  /\ (tp1 s (Insert a) (Insert b)
      <-> text a +:+ text b = text b +:+ text a).
Proof.
  intros Hp Hu Hr.
  assert (Hlt : forall u, String.ltb u u = false).
  { intros u. unfold String.ltb.
    pose proof (String.compare_antisym u u) as E.
    destruct (String.compare u u); trivial. discriminate E. }
  assert (Ha : transformInsertInsert a b = a).
  { unfold transformInsertInsert.
    rewrite Hp, Z.ltb_irrefl, Z.eqb_refl, Hu, Hlt. reflexivity. }
  assert (Hb : transformInsertInsert b a = b).
  { unfold transformInsertInsert.
    rewrite Hp, Z.ltb_irrefl, Z.eqb_refl, Hu, Hlt. reflexivity. }
  simpl. rewrite Ha, Hb. split; [reflexivity|]. split; [reflexivity|].
  unfold tp1. simpl. rewrite Ha, Hb.
  pose proof (strlen_chars s) as Ls.
  assert (Hshape : forall x y : InsertOperation,
             position x = position a -> position y = position a ->
             chars (applyInsert (applyInsert s x) y)
             = take (Z.to_nat (position a)) (chars s)
               ++ (chars (text y) ++ chars (text x))
               ++ drop (Z.to_nat (position a)) (chars s)).
  { intros x y Hx Hy. rewrite !chars_applyInsert, Hx, Hy.
    set (n := Z.to_nat (position a)). set (l := chars s) in *.
    assert (Hn : List.length (take n l) = n)
      by (rewrite length_take; lia).
    rewrite take_app_length', drop_app_length' by (symmetry; exact Hn).
    now rewrite <- !app_assoc. }
  split.
  - intros H. apply (f_equal chars) in H.
    rewrite (Hshape a b), (Hshape b a) in H by congruence.
    apply app_inv_head, app_inv_tail in H.
    apply chars_inj. now rewrite !chars_app.
  - intros H. apply chars_inj.
    rewrite (Hshape a b), (Hshape b a) by congruence.
    apply (f_equal chars) in H. rewrite !chars_app in H. now rewrite H.
Qed.

Lemma tp1_same_user_tie_witness :
  ~ tp1 "ab" (ins "A" 1 "X") (ins "A" 1 "Y").
Proof.
  intros H.
  apply (proj2 (proj2 (tp1_same_user_tie "ab"
           {| ins_base := mkBase "op" "A" 0 1; text := "X" |}
           {| ins_base := mkBase "op" "A" 0 1; text := "Y" |}
           eq_refl eq_refl ltac:(simpl; unfold JS.strlen; simpl; lia)))) in H.
  discriminate H.
Defined.

End Algebra.

Section DetectRoundTrip.

Import OTEngine.

(** X12. The change detector recovers a single edit. If [new] is [old]
    with a non-empty text inserted at a valid position and the caret
    stands just after the inserted text, the detector returns that insert
    (same position, same text); if [new] is [old] with a non-empty valid
    range removed and the caret stands at the start of the range, it
    returns that delete. *)
Theorem detectChange_recovers_edit (env : Clock) (old uid : string) :
  (forall (p : Z) (x : string),
      0 <= p <= JS.strlen old -> x <> "" ->
      detectChange env old
        (apply old (Insert {| ins_base := mkBase "" "" 0 p; text := x |}))
        (p + JS.strlen x) uid
      = Some (Insert {| ins_base := mkBase (fresh_id env) uid (now env) p;
                        text := x |}))
  /\ (forall p k : Z,
        0 <= p -> 0 < k -> p + k <= JS.strlen old ->
        detectChange env old
          (apply old (Delete {| del_base := mkBase "" "" 0 p; length := k |}))
          p uid
        = Some (Delete {| del_base := mkBase (fresh_id env) uid (now env) p;
                          length := k |})).
Proof.
  split.
  - intros p x Hp Hx.
    set (op := {| ins_base := mkBase "" "" 0 p; text := x |}).
    assert (Hxlen : 0 < JS.strlen x).
    { destruct x; [congruence|]. unfold JS.strlen. simpl. lia. }
    pose proof (strlen_applyInsert old op) as Hlen. simpl in Hlen.
    unfold detectChange. simpl apply.
    destruct (String.eqb_spec old (applyInsert old op)) as [E|_].
    { rewrite <- E in Hlen. lia. }
    rewrite Hlen.
    destruct (Z.gtb_spec (JS.strlen old + JS.strlen x) (JS.strlen old));
      [|lia].
    unfold createInsertOperation.
    replace (JS.strlen old + JS.strlen x - JS.strlen old)
      with (JS.strlen x) by lia.
    replace (p + JS.strlen x - JS.strlen x) with p by lia.
    do 3 f_equal. apply chars_inj.
    rewrite chars_substring_range by lia.
    rewrite chars_applyInsert. simpl.
    pose proof (strlen_chars old) as Lo. pose proof (strlen_chars x) as Lx.
    rewrite drop_app_length' by (rewrite length_take; lia).
    rewrite take_app_length' by lia. reflexivity.
  - intros p k Hp Hk Hr.
    set (op := {| del_base := mkBase "" "" 0 p; length := k |}).
    assert (Hv : valid_on old (Delete op)) by (simpl; lia).
    pose proof (strlen_applyDelete old op Hv) as Hlen. simpl in Hlen.
    unfold detectChange. simpl apply.
    destruct (String.eqb_spec old (applyDelete old op)) as [E|_].
    { rewrite <- E in Hlen. lia. }
    rewrite Hlen.
    destruct (Z.gtb_spec (JS.strlen old - k) (JS.strlen old)); [lia|].
    destruct (Z.ltb_spec (JS.strlen old - k) (JS.strlen old)); [|lia].
    unfold createDeleteOperation. do 3 f_equal. lia.
Qed.

Lemma detectChange_recovers_edit_witness :
  detectChange (mkClock 7 "op_7") "abc" "abXYc" 4 "A"
  = Some (Insert {| ins_base := mkBase "op_7" "A" 7 2; text := "XY" |})
  /\ detectChange (mkClock 7 "op_7") "abcde" "abe" 2 "A"
     = Some (Delete {| del_base := mkBase "op_7" "A" 7 2; length := 2 |}).
Proof.
  split.
  - apply (proj1 (detectChange_recovers_edit (mkClock 7 "op_7") "abc" "A")
             2 "XY"); [unfold JS.strlen; simpl; lia | discriminate].
  - apply (proj2 (detectChange_recovers_edit (mkClock 7 "op_7") "abcde" "A")
             2 2); unfold JS.strlen; simpl; lia.
Defined.

End DetectRoundTrip.

(** ** Further properties of the relay *)

(** ** The ordered map *)

Section JsMap.

Context {V : Type}.
Implicit Types (m : JS.Map V) (k : string) (v : V).

Lemma map_get_set_eq k v m : JS.map_get k (JS.map_set k v m) = Some v.
Proof.
  induction m as [|[k' v'] m IH]; simpl.
  - now rewrite String.eqb_refl.
  - destruct (String.eqb_spec k' k) as [->|Hne]; simpl.
    + now rewrite String.eqb_refl.
    + destruct (String.eqb_spec k' k); [contradiction|exact IH].
Qed.

Lemma map_get_set_ne k k' v m :
  k <> k' -> JS.map_get k' (JS.map_set k v m) = JS.map_get k' m.
Proof.
  intros Hne. induction m as [|[k1 v1] m IH]; simpl.
  - destruct (String.eqb_spec k k'); [contradiction|reflexivity].
  - destruct (String.eqb_spec k1 k) as [->|H1]; simpl.
    + destruct (String.eqb_spec k k'); [contradiction|reflexivity].
    + destruct (String.eqb_spec k1 k'); [reflexivity|exact IH].
Qed.

Lemma map_get_delete_eq k m : JS.map_get k (JS.map_delete k m) = None.
Proof.
  induction m as [|[k1 v1] m IH]; simpl; [reflexivity|].
  destruct (String.eqb_spec k1 k) as [->|H1]; simpl; [exact IH|].
  destruct (String.eqb_spec k1 k); [contradiction|exact IH].
Qed.

Lemma map_get_delete_ne k k' m :
  k <> k' -> JS.map_get k' (JS.map_delete k m) = JS.map_get k' m.
Proof.
  intros Hne. induction m as [|[k1 v1] m IH]; simpl; [reflexivity|].
  destruct (String.eqb_spec k1 k) as [->|H1]; simpl.
  - destruct (String.eqb_spec k k'); [contradiction|exact IH].
  - destruct (String.eqb_spec k1 k'); [reflexivity|exact IH].
Qed.

Lemma map_delete_absent k m : JS.map_get k m = None -> JS.map_delete k m = m.
Proof.
  induction m as [|[k1 v1] m IH]; simpl; [reflexivity|].
  destruct (String.eqb_spec k1 k) as [->|H1]; [discriminate|].
  intros H. now rewrite IH.
Qed.

Lemma elem_of_map_set k v m entry :
  entry ∈ JS.map_set k v m -> entry = (k, v) \/ entry ∈ m.
Proof.
  induction m as [|[k1 v1] m IH]; simpl.
  - intros H. apply list_elem_of_singleton in H. now left.
  - destruct (String.eqb_spec k1 k) as [->|H1].
    + intros H. apply elem_of_cons in H as [->|H]; [now left|].
      right. now right.
    + intros H. apply elem_of_cons in H as [->|H]; [right; left|].
      destruct (IH H) as [->|Hin]; [now left|right; now right].
Qed.

Lemma elem_of_map_delete k m entry :
  entry ∈ JS.map_delete k m -> entry ∈ m /\ entry.1 <> k.
Proof.
  induction m as [|[k1 v1] m IH]; simpl.
  - intros H. now apply elem_of_nil in H.
  - destruct (String.eqb_spec k1 k) as [->|H1].
    + intros H. destruct (IH H). split; [now right|assumption].
    + intros H. apply elem_of_cons in H as [->|H].
      * split; [left|exact H1].
      * destruct (IH H). split; [now right|assumption].
Qed.

Lemma map_get_Some_elem k v m : JS.map_get k m = Some v -> (k, v) ∈ m.
Proof.
  induction m as [|[k1 v1] m IH]; simpl; [discriminate|].
  destruct (String.eqb_spec k1 k) as [->|H1].
  - intros [= ->]. left.
  - intros H. right. now apply IH.
Qed.

End JsMap.

Section RelayFrame.

Import Server.

Lemma same_text_refl doc : same_text doc doc.
Proof. repeat split. Qed.

Lemma same_text_trans d1 d2 d3 :
  same_text d1 d2 -> same_text d2 d3 -> same_text d1 d3.
Proof.
  intros (A1 & A2 & A3 & A4) (B1 & B2 & B3 & B4).
  repeat split; congruence.
Qed.

Lemma same_text_extends d1 d2 : same_text d1 d2 -> extends d1 d2.
Proof.
  intros (A1 & A2 & A3 & A4). repeat split; [assumption|lia|].
  rewrite A4. reflexivity.
Qed.

Lemma extends_trans d1 d2 d3 : extends d1 d2 -> extends d2 d3 -> extends d1 d3.
Proof.
  intros (A1 & A2 & A3) (B1 & B2 & B3).
  repeat split; [congruence|lia|]. now transitivity (operations d2).
Qed.

Lemma docs_rel_refl docs : docs_rel same_text docs docs.
Proof. intros id doc H. exists doc. split; [assumption|apply same_text_refl]. Qed.

Lemma docs_rel_trans docs1 docs2 docs3 :
  docs_rel same_text docs1 docs2 -> docs_rel same_text docs2 docs3 ->
  docs_rel same_text docs1 docs3.
Proof.
  intros H12 H23 id doc H.
  destruct (H12 id doc H) as (d2 & H2 & R12).
  destruct (H23 id d2 H2) as (d3 & H3 & R23).
  exists d3. split; [assumption|]. eapply same_text_trans; eassumption.
Qed.

Lemma getDocument_same_text documentId docs :
  docs_rel same_text docs (getDocument documentId docs).2.
Proof.
  unfold getDocument. destruct (docs !! documentId) eqn:E; simpl.
  - apply docs_rel_refl.
  - intros id doc H. exists doc. split; [|apply same_text_refl].
    rewrite lookup_insert_ne; [assumption|]. congruence.
Qed.

Lemma getDocument_lookup documentId docs :
  (getDocument documentId docs).2 !! documentId
  = Some (getDocument documentId docs).1.
Proof.
  unfold getDocument. destruct (docs !! documentId) eqn:E; simpl.
  - assumption.
  - apply lookup_insert_eq.
Qed.

Lemma getDocument_found documentId docs doc :
  docs !! documentId = Some doc -> getDocument documentId docs = (doc, docs).
Proof. intros H. unfold getDocument. now rewrite H. Qed.

Lemma insert_users_same_text documentId doc us docs :
  docs !! documentId = Some doc ->
  docs_rel same_text docs (<[documentId := set_users doc us]> docs).
Proof.
  intros Hd id d H. destruct (decide (documentId = id)) as [<-|Hne].
  - exists (set_users doc us). rewrite lookup_insert_eq. split; trivial.
    assert (d = doc) as -> by congruence. repeat split.
  - exists d. rewrite lookup_insert_ne by assumption.
    split; [assumption|apply same_text_refl].
Qed.

Lemma removeUser_same_text documentId socketId docs :
  docs_rel same_text docs (removeUser documentId socketId docs).
Proof.
  unfold removeUser. destruct (docs !! documentId) as [doc|] eqn:E.
  - now apply insert_users_same_text.
  - apply docs_rel_refl.
Qed.

Lemma addUser_same_text documentId socketId sock st :
  docs_rel same_text (documents st)
    (documents (addUser documentId socketId sock st).2).
Proof.
  unfold addUser.
  pose proof (getDocument_same_text documentId (documents st)) as H1.
  pose proof (getDocument_lookup documentId (documents st)) as H2.
  destruct (getDocument documentId (documents st)) as [doc docs]. simpl in *.
  eapply docs_rel_trans; [exact H1|]. now apply insert_users_same_text.
Qed.

Lemma on_join_document_same_text socketId documentId sock st :
  docs_rel same_text (documents st)
    (documents (on_join_document socketId documentId sock st).1).
Proof.
  unfold on_join_document.
  set (left := match JS.when_truthy (currentDocumentId sock) with
               | Some previous =>
                   (rooms sock ∖ {[previous]},
                    removeUser previous socketId (documents st))
               | None => (rooms sock, documents st)
               end).
  assert (Hleft : docs_rel same_text (documents st) left.2).
  { unfold left. destruct (JS.when_truthy (currentDocumentId sock)); simpl;
      [apply removeUser_same_text | apply docs_rel_refl]. }
  destruct left as [rooms1 docs1]. simpl in Hleft.
  pose proof (getDocument_same_text documentId docs1) as H2.
  destruct (getDocument documentId docs1) as [d0 docs2]. simpl in H2.
  pose proof (addUser_same_text documentId socketId sock
                (set_documents st docs2)) as H3.
  destruct (addUser documentId socketId sock (set_documents st docs2))
    as [user st3]. simpl in *.
  eapply docs_rel_trans; [exact Hleft|].
  eapply docs_rel_trans; [exact H2|exact H3].
Qed.

Lemma on_cursor_position_same_text socketId pos sock st :
  docs_rel same_text (documents st)
    (documents (on_cursor_position socketId pos sock st).1).
Proof.
  unfold on_cursor_position.
  destruct (JS.when_truthy (currentDocumentId sock)) as [current|];
    [|apply docs_rel_refl].
  destruct (currentUser sock); [|apply docs_rel_refl].
  pose proof (getDocument_same_text current (documents st)) as H1.
  pose proof (getDocument_lookup current (documents st)) as H2.
  destruct (getDocument current (documents st)) as [doc docs1]. simpl in *.
  destruct (JS.map_get socketId (users doc)); simpl; [|exact H1].
  eapply docs_rel_trans; [exact H1|]. now apply insert_users_same_text.
Qed.

Lemma on_disconnect_same_text socketId sock st :
  docs_rel same_text (documents st)
    (documents (on_disconnect socketId sock st).1).
Proof.
  unfold on_disconnect.
  destruct (JS.when_truthy (currentDocumentId sock)) as [current|];
    [|apply docs_rel_refl].
  pose proof (removeUser_same_text current socketId (documents st)) as H1.
  pose proof (getDocument_same_text current
                (removeUser current socketId (documents st))) as H2.
  destruct (getDocument current (removeUser current socketId (documents st)))
    as [doc docs2]. simpl in *.
  eapply docs_rel_trans; eassumption.
Qed.

Lemma on_operation_frame socketId dateNow op sock st id doc :
  documents st !! id = Some doc ->
  exists doc',
    documents (on_operation socketId dateNow op sock st).1 !! id = Some doc'
    /\ extends doc doc'
    /\ (JS.when_truthy (currentDocumentId sock) <> Some id ->
        same_text doc doc').
Proof.
  intros Hd. unfold on_operation.
  destruct (JS.when_truthy (currentDocumentId sock)) as [current|].
  - pose proof (getDocument_same_text current (documents st)) as H1.
    pose proof (getDocument_lookup current (documents st)) as H2.
    destruct (getDocument current (documents st)) as [cur docs1].
    simpl in *. destruct (H1 id doc Hd) as (d1 & Hd1 & R1).
    destruct (decide (current = id)) as [->|Hne].
    + eexists. rewrite lookup_insert_eq. split; [reflexivity|].
      assert (d1 = cur) as -> by congruence.
      destruct R1 as (A1 & A2 & A3 & A4). split.
      * repeat split; simpl; [assumption|lia|].
        rewrite A4. now apply prefix_app_r.
      * congruence.
    + exists d1. rewrite lookup_insert_ne by assumption.
      split; [assumption|]. split; [now apply same_text_extends|auto].
  - exists doc. simpl. split; [assumption|].
    split; [apply same_text_extends|intros _]; apply same_text_refl.
Qed.

Lemma handle_non_operation_same_text socketId ev st :
  is_operation ev = false ->
  docs_rel same_text (documents st) (documents (handle socketId ev st).1).
Proof.
  intros Hop. unfold handle.
  destruct ev as [userName|documentId|dateNow op|pos|]; try discriminate;
    try apply docs_rel_refl;
    destruct (sockets st !! socketId) as [sock|]; try apply docs_rel_refl.
  - apply on_join_document_same_text.
  - apply on_cursor_position_same_text.
  - apply on_disconnect_same_text.
Qed.

(** X14. Only an [operation] message changes the text of a document, and
    only of the document its sender is in: any other event, and an
    operation sent from another document, leaves the document in the map
    with the same id, content, version and log. *)
Theorem only_operation_changes_text
    (socketId : string) (ev : Event) (st : Relay) (id : string)
    (doc : Document) :
  documents st !! id = Some doc ->
  (is_operation ev = true -> current_document socketId st <> Some id) ->
  exists doc',
    documents (handle socketId ev st).1 !! id = Some doc'
    /\ same_text doc doc'.
Proof.
  intros Hd Hev. unfold handle.
  destruct ev as [userName|documentId|dateNow op|pos|].
  - exists doc. split; [assumption|apply same_text_refl].
  - destruct (sockets st !! socketId) as [sock|];
      [|exists doc; split; [assumption|apply same_text_refl]].
    now apply on_join_document_same_text.
  - unfold current_document in Hev.
    destruct (sockets st !! socketId) as [sock|];
      [|exists doc; split; [assumption|apply same_text_refl]].
    destruct (on_operation_frame socketId dateNow op sock st id doc Hd)
      as (doc' & H1 & _ & H3).
    exists doc'. split; [assumption|]. apply H3. now apply Hev.
  - destruct (sockets st !! socketId) as [sock|];
      [|exists doc; split; [assumption|apply same_text_refl]].
    now apply on_cursor_position_same_text.
  - destruct (sockets st !! socketId) as [sock|];
      [|exists doc; split; [assumption|apply same_text_refl]].
    now apply on_disconnect_same_text.
Qed.

Lemma only_operation_changes_text_witness :
  summary (handle "s1" (cursor_position 2) joined_abc).1 "d"
  = Some ("abc", 1, 1%nat).
Proof.
  destruct (only_operation_changes_text "s1" (cursor_position 2)
              joined_abc "d" _ eq_refl)
    as (doc' & H & _ & Hc & Hv & Hl); [discriminate|].
  unfold summary. rewrite H. simpl. rewrite Hc, Hv, Hl. reflexivity.
Defined.

Lemma docs_same_text_extends docs docs' id doc :
  docs_rel same_text docs docs' -> docs !! id = Some doc ->
  exists doc', docs' !! id = Some doc' /\ extends doc doc'.
Proof.
  intros H Hd. destruct (H id doc Hd) as (doc' & H1 & H2).
  exists doc'. split; [assumption|now apply same_text_extends].
Qed.

Lemma handle_extends socketId ev st id doc :
  documents st !! id = Some doc ->
  exists doc', documents (handle socketId ev st).1 !! id = Some doc'
               /\ extends doc doc'.
Proof.
  intros Hd. unfold handle.
  destruct ev as [userName|documentId|dateNow op|pos|];
    try (destruct (sockets st !! socketId) as [sock|]);
    try (exists doc; split;
         [assumption|apply same_text_extends, same_text_refl]).
  - eapply docs_same_text_extends;
      [apply on_join_document_same_text|assumption].
  - destruct (on_operation_frame socketId dateNow op sock st id doc Hd)
      as (doc' & H1 & H2 & _). eauto.
  - eapply docs_same_text_extends;
      [apply on_cursor_position_same_text|assumption].
  - eapply docs_same_text_extends;
      [apply on_disconnect_same_text|assumption].
Qed.

(** X15. The log of a document is append-only and a document is never
    removed: over any sequence of events a document that exists still
    exists afterwards, under the same id, with a version that has not
    decreased and a log that has the earlier log as a prefix. *)
Theorem log_append_only (evs : list (string * Event)) (st : Relay)
    (id : string) (doc : Document) :
  documents st !! id = Some doc ->
  exists doc', documents (run evs st).1 !! id = Some doc'
               /\ extends doc doc'.
Proof.
  revert st doc. induction evs as [|[socketId ev] evs IH]; intros st doc Hd.
  - exists doc. split; [assumption|apply same_text_extends, same_text_refl].
  - simpl.
    destruct (handle_extends socketId ev st id doc Hd) as (d1 & H1 & E1).
    destruct (handle socketId ev st) as [st1 out1]. simpl in H1.
    destruct (IH st1 d1 H1) as (d2 & H2 & E2).
    destruct (run evs st1) as [st2 out2]. simpl in *.
    exists d2. split; [assumption|]. eapply extends_trans; eassumption.
Qed.

Lemma log_append_only_witness :
  exists doc',
    documents (run [("s1", operation 101 (del "s1" 0 1))] joined_abc).1
      !! "d" = Some doc'
    /\ [mkLogged (ins "s1" 0 "abc") 1 100] `prefix_of` operations doc'.
Proof.
  destruct (log_append_only [("s1", operation 101 (del "s1" 0 1))]
              joined_abc "d" _ eq_refl) as (doc' & H & _ & _ & Hl).
  exists doc'. split; [exact H|exact Hl].
Defined.

Lemma elem_of_broadcast e documentId msg exclude docs :
  e ∈ broadcastToDocument documentId msg exclude docs ->
  exists doc k u,
    docs !! documentId = Some doc /\ (k, u) ∈ users doc
    /\ Some k <> exclude /\ e = io_to_emit k msg.
Proof.
  unfold broadcastToDocument.
  destruct (docs !! documentId) as [doc|]; [|intros H; inversion H].
  intros H. apply list_elem_of_In, in_flat_map in H as ([k u] & Hin & He).
  simpl in He. case_bool_decide as Hx; [inversion He|].
  destruct He as [<-|[]]. exists doc, k, u.
  repeat split; trivial. now apply list_elem_of_In.
Qed.

Lemma broadcast_elem_of documentId msg exclude docs doc k u :
  docs !! documentId = Some doc -> (k, u) ∈ users doc ->
  Some k <> exclude ->
  io_to_emit k msg ∈ broadcastToDocument documentId msg exclude docs.
Proof.
  intros Hd Hin Hne. unfold broadcastToDocument. rewrite Hd.
  apply list_elem_of_In, in_flat_map. exists (k, u).
  split; [now apply list_elem_of_In|]. simpl.
  rewrite bool_decide_eq_false_2 by assumption. now left.
Qed.

(** X17. No handler broadcasts to the connection whose message it is
    handling: no [io.to(socketId).emit] of an event on [socketId] is
    addressed to [socketId] itself. *)
Theorem never_echoes_to_sender
    (socketId : string) (ev : Event) (st : Relay) (msg : Payload) :
  io_to_emit socketId msg ∉ (handle socketId ev st).2.
Proof.
  unfold handle.
  destruct ev as [userName|documentId|dateNow op|pos|].
  - simpl. intros H. apply list_elem_of_singleton in H. discriminate.
  - destruct (sockets st !! socketId) as [sock|]; [|apply not_elem_of_nil].
    unfold on_join_document.
    destruct (match JS.when_truthy (currentDocumentId sock) with
              | Some previous => _ | None => _ end) as [rooms1 docs1].
    destruct (getDocument documentId docs1) as [d0 docs2].
    destruct (addUser documentId socketId sock (set_documents st docs2))
      as [user st3]. simpl.
    intros H. apply elem_of_cons in H as [H|H]; [discriminate|].
    apply elem_of_cons in H as [H|H]; [discriminate|].
    apply elem_of_app in H as [H|H].
    + apply elem_of_broadcast in H as (doc & k & u & _ & _ & Hne & He).
      injection He as -> _. now apply Hne.
    + apply list_elem_of_singleton in H. discriminate.
  - destruct (sockets st !! socketId) as [sock|]; [|apply not_elem_of_nil].
    unfold on_operation.
    destruct (JS.when_truthy (currentDocumentId sock)) as [current|].
    + destruct (getDocument current (documents st)) as [doc docs1]. simpl.
      intros H. apply elem_of_cons in H as [H|H]; [discriminate|].
      apply elem_of_broadcast in H as (d & k & u & _ & _ & Hne & He).
      injection He as -> _. now apply Hne.
    + simpl. intros H. apply list_elem_of_singleton in H. discriminate.
  - destruct (sockets st !! socketId) as [sock|]; [|apply not_elem_of_nil].
    unfold on_cursor_position.
    destruct (JS.when_truthy (currentDocumentId sock)) as [current|];
      [|apply not_elem_of_nil].
    destruct (currentUser sock) as [cu|]; [|apply not_elem_of_nil].
    destruct (getDocument current (documents st)) as [doc docs1].
    destruct (JS.map_get socketId (users doc)) as [mu|];
      [|apply not_elem_of_nil].
    simpl. intros H.
    apply elem_of_broadcast in H as (d & k & u & _ & _ & Hne & He).
    injection He as -> _. now apply Hne.
  - destruct (sockets st !! socketId) as [sock|]; [|apply not_elem_of_nil].
    unfold on_disconnect.
    destruct (JS.when_truthy (currentDocumentId sock)) as [current|].
    + pose proof (getDocument_lookup current
                    (removeUser current socketId (documents st))) as Hl.
      assert (Hgone : forall doc,
                 removeUser current socketId (documents st) !! current
                 = Some doc -> forall u, (socketId, u) ∉ users doc).
      { intros doc Hd u Hin. unfold removeUser in Hd.
        destruct (documents st !! current) as [d0|] eqn:E.
        - rewrite lookup_insert_eq in Hd. injection Hd as <-. simpl in Hin.
          apply elem_of_map_delete in Hin as [_ Hne]. now apply Hne.
        - congruence. }
      unfold getDocument in *.
      destruct (removeUser current socketId (documents st) !! current)
        as [doc|] eqn:E; simpl in *.
      * intros H. apply elem_of_cons in H as [H|H]; [discriminate|].
        apply elem_of_broadcast in H as (d & k & u & Hd & Hin & _ & He).
        injection He as -> _. rewrite E in Hd. injection Hd as <-.
        now apply (Hgone doc eq_refl u).
      * intros H. apply elem_of_cons in H as [H|H]; [discriminate|].
        apply elem_of_broadcast in H as (d & k & u & Hd & Hin & _ & He).
        rewrite lookup_insert_eq in Hd. injection Hd as <-.
        simpl in Hin. now apply elem_of_nil in Hin.
    + simpl. intros H. apply list_elem_of_singleton in H. discriminate.
Qed.

Lemma getDocument_other documentId id docs :
  id <> documentId -> (getDocument documentId docs).2 !! id = docs !! id.
Proof.
  intros Hne. unfold getDocument.
  destruct (docs !! documentId); simpl; [reflexivity|].
  now rewrite lookup_insert_ne by congruence.
Qed.

Lemma removeUser_other documentId socketId id docs :
  id <> documentId -> removeUser documentId socketId docs !! id = docs !! id.
Proof.
  intros Hne. unfold removeUser.
  destruct (docs !! documentId); [|reflexivity].
  now rewrite lookup_insert_ne by congruence.
Qed.

Lemma roster_removeUser documentId socketId (st : Relay) docs :
  documents st = removeUser documentId socketId docs ->
  JS.map_get socketId (roster st documentId) = None.
Proof.
  intros E. unfold roster. rewrite E. unfold removeUser.
  destruct (docs !! documentId) as [doc|] eqn:Hd.
  - rewrite lookup_insert_eq. simpl. apply map_get_delete_eq.
  - now rewrite Hd.
Qed.

Lemma addUser_spec documentId socketId sock st :
  let doc0 := (getDocument documentId (documents st)).1 in
  let result := addUser documentId socketId sock st in
  documents result.2 !! documentId
  = Some (set_users doc0 (JS.map_set socketId result.1 (users doc0)))
  /\ id result.1 = socketId /\ cursor result.1 = 0
  /\ colorIndex result.2 = colorIndex st + 1
  /\ sockets result.2 = sockets st
  /\ (forall other, other <> documentId ->
                    documents result.2 !! other = documents st !! other).
Proof.
  unfold addUser.
  pose proof (fun other => getDocument_other documentId other (documents st))
    as Ho.
  destruct (getDocument documentId (documents st)) as [doc0 docs]. simpl in *.
  repeat split.
  - apply lookup_insert_eq.
  - intros other Hne. rewrite lookup_insert_ne by congruence. now apply Ho.
Qed.

(** X18. After [join-document] the connection is enrolled: it is in the
    roster of the document under its socket id with cursor 0, its closure
    points to the document, it has been sent the document state, and it
    has left the roster of the document it was in before. *)
Theorem join_document_enrols
    (socketId documentId : string) (sock : Socket) (st : Relay) :
  sockets st !! socketId = Some sock ->
  let out := handle socketId (join_document documentId) st in
  exists doc user joined,
    documents out.1 !! documentId = Some doc
    /\ JS.map_get socketId (users doc) = Some user
    /\ id user = socketId /\ cursor user = 0
    /\ sockets out.1 !! socketId
       = Some {| handshake_userName := handshake_userName sock;
                 rooms := joined;
                 currentDocumentId := Some documentId;
                 currentUser := Some user |}
    /\ documentId ∈ joined
    /\ socket_emit socketId
         (document_state (content doc) (version doc)
            (JS.map_values (users doc))) ∈ out.2
    /\ (forall previous,
          JS.when_truthy (currentDocumentId sock) = Some previous ->
          previous <> documentId ->
          JS.map_get socketId (roster out.1 previous) = None).
Proof.
  intros Hsock out. subst out. unfold handle. rewrite Hsock.
  unfold on_join_document.
  set (left := match JS.when_truthy (currentDocumentId sock) with
               | Some previous =>
                   (rooms sock ∖ {[previous]},
                    removeUser previous socketId (documents st))
               | None => (rooms sock, documents st)
               end).
  assert (Hprev : forall previous,
             JS.when_truthy (currentDocumentId sock) = Some previous ->
             left.2 = removeUser previous socketId (documents st)).
  { intros previous E. unfold left. now rewrite E. }
  destruct left as [rooms1 docs1]. simpl in Hprev.
  pose proof (fun other => getDocument_other documentId other docs1) as Ho.
  destruct (getDocument documentId docs1) as [d0 docs2]. simpl in Ho.
  pose proof (addUser_spec documentId socketId sock (set_documents st docs2))
    as (Hdoc & Hid & Hcur & _ & _ & Hother).
  destruct (addUser documentId socketId sock (set_documents st docs2))
    as [user st3]. simpl in *.
  rewrite (getDocument_found _ _ _ Hdoc). simpl.
  eexists _, user, _. split; [exact Hdoc|].
  split; [apply map_get_set_eq|].
  split; [exact Hid|]. split; [exact Hcur|].
  split; [apply lookup_insert_eq|].
  split; [set_solver|].
  split; [right; left|].
  intros previous E Hne. unfold roster. simpl.
  rewrite (Hother previous Hne), (Ho previous Hne), (Hprev previous E).
  unfold removeUser. destruct (documents st !! previous) as [p|] eqn:Hp.
  - rewrite lookup_insert_eq. simpl. apply map_get_delete_eq.
  - now rewrite Hp.
Qed.

Lemma join_document_enrols_witness :
  exists doc user,
    documents (handle "s1" (join_document "e") joined_abc).1 !! "e"
    = Some doc
    /\ JS.map_get "s1" (users doc) = Some user
    /\ id user = "s1" /\ cursor user = 0.
Proof.
  destruct (join_document_enrols "s1" "e" _ joined_abc eq_refl)
    as (doc & user & joined & H1 & H2 & H3 & H4 & _).
  exists doc, user. auto.
Defined.

(** X19. After [disconnect] the connection is gone from the relay and
    from the roster of its document, the other entries of that roster are
    untouched, and every member that remains is sent [user-left] with the
    remaining roster. *)
Theorem disconnect_leaves (socketId : string) (sock : Socket) (st : Relay) :
  sockets st !! socketId = Some sock ->
  let out := handle socketId disconnect st in
  sockets out.1 !! socketId = None
  /\ (forall other, other <> socketId ->
                    sockets out.1 !! other = sockets st !! other)
  /\ (forall current,
        JS.when_truthy (currentDocumentId sock) = Some current ->
        JS.map_get socketId (roster out.1 current) = None
        /\ (forall other, other <> socketId ->
               JS.map_get other (roster out.1 current)
               = JS.map_get other (roster st current))
        /\ (forall k u, (k, u) ∈ roster out.1 current ->
               io_to_emit k
                 (user_left socketId (JS.map_values (roster out.1 current)))
               ∈ out.2)).
Proof.
  intros Hsock out. subst out. unfold handle. rewrite Hsock.
  unfold on_disconnect.
  destruct (JS.when_truthy (currentDocumentId sock)) as [current|] eqn:Hcur.
  - pose proof (getDocument_lookup current
                  (removeUser current socketId (documents st))) as Hl.
    assert (Hrem : forall doc,
               removeUser current socketId (documents st) !! current
               = Some doc ->
               users doc = JS.map_delete socketId (roster st current)).
    { intros doc Hd. unfold removeUser, roster in *.
      destruct (documents st !! current) as [d0|] eqn:E.
      - rewrite lookup_insert_eq in Hd. now injection Hd as <-.
      - congruence. }
    unfold getDocument in *.
    destruct (removeUser current socketId (documents st) !! current)
      as [doc|] eqn:E; simpl in *.
    + split; [apply lookup_delete_eq|].
      split; [intros other Hne; now apply lookup_delete_ne|].
      intros c [= <-].
      match goal with
      | |- context [roster ?s current] =>
          assert (Hr : roster s current
                       = JS.map_delete socketId (roster st current))
            by (unfold roster at 1; simpl; rewrite E; now apply Hrem)
      end.
      rewrite !Hr, (Hrem doc eq_refl).
      split; [apply map_get_delete_eq|].
      split; [intros other Hne; now apply map_get_delete_ne|].
      intros k u Hin. right.
      eapply broadcast_elem_of; [exact E| |discriminate].
      rewrite (Hrem doc eq_refl). exact Hin.
    + split; [apply lookup_delete_eq|].
      split; [intros other Hne; now apply lookup_delete_ne|].
      intros c [= <-].
      assert (Hnone : documents st !! current = None).
      { unfold removeUser in E. destruct (documents st !! current) eqn:E2;
          [|reflexivity]. now rewrite lookup_insert_eq in E. }
      match goal with
      | |- context [roster ?s current] =>
          assert (Hr : roster s current = [])
            by (unfold roster; simpl; now rewrite lookup_insert_eq)
      end.
      rewrite !Hr. unfold roster. rewrite Hnone.
      split; [reflexivity|]. split; [reflexivity|].
      intros k u Hin. now apply elem_of_nil in Hin.
  - simpl. split; [apply lookup_delete_eq|].
    split; [intros other Hne; now apply lookup_delete_ne|].
    intros c [=].
Qed.

Lemma disconnect_leaves_witness :
  sockets (handle "s1" disconnect joined_abc).1 !! "s1" = None.
Proof. apply (disconnect_leaves "s1" _ joined_abc eq_refl). Defined.

(** X20. [cursor-position] writes the cursor of the sender and nothing
    else: in every roster the entries of the other sockets are as they
    were; when the sender is joined and enrolled its entry has the new
    value, whatever the value (there is no range check), and the others
    are told. *)
Theorem cursor_position_sets_own_cursor
    (socketId : string) (pos : Z) (sock : Socket) (st : Relay) :
  sockets st !! socketId = Some sock ->
  let out := handle socketId (cursor_position pos) st in
  sockets out.1 = sockets st
  /\ (forall documentId other, other <> socketId ->
        JS.map_get other (roster out.1 documentId)
        = JS.map_get other (roster st documentId))
  /\ (forall current user,
        JS.when_truthy (currentDocumentId sock) = Some current ->
        is_Some (currentUser sock) ->
        JS.map_get socketId (roster st current) = Some user ->
        JS.map_get socketId (roster out.1 current)
        = Some {| id := id user; name := name user; color := color user;
                  cursor := pos |}
        /\ (forall k u, (k, u) ∈ roster out.1 current -> k <> socketId ->
               io_to_emit k (cursor_update socketId pos) ∈ out.2)).
Proof.
  intros Hsock out. subst out. unfold handle. rewrite Hsock.
  unfold on_cursor_position.
  destruct (JS.when_truthy (currentDocumentId sock)) as [current|] eqn:Hcur.
  2: { simpl. split; [reflexivity|]. split; [reflexivity|].
       intros c u [=]. }
  destruct (currentUser sock) as [cu|] eqn:Hcu.
  2: { simpl. split; [reflexivity|]. split; [reflexivity|].
       intros c u _ [x [=]]. }
  pose proof (getDocument_lookup current (documents st)) as Hl.
  pose proof (fun other => getDocument_other current other (documents st))
    as Ho.
  assert (Hros : users (getDocument current (documents st)).1
                 = roster st current).
  { unfold getDocument, roster.
    destruct (documents st !! current); reflexivity. }
  destruct (getDocument current (documents st)) as [doc docs1]. simpl in *.
  destruct (JS.map_get socketId (users doc)) as [mu|] eqn:Hmu; simpl.
  - split; [reflexivity|]. split.
    + intros documentId other Hne. unfold roster. simpl.
      destruct (decide (documentId = current)) as [->|Hd].
      * rewrite lookup_insert_eq. simpl. rewrite map_get_set_ne by congruence.
        now rewrite Hros.
      * rewrite lookup_insert_ne by congruence. now rewrite Ho.
    + intros c user [= <-] _ Hu. rewrite <- Hros, Hmu in Hu.
      injection Hu as <-. unfold roster. simpl. rewrite lookup_insert_eq.
      simpl. split; [apply map_get_set_eq|].
      intros k u Hin Hne.
      eapply broadcast_elem_of; [apply lookup_insert_eq|exact Hin|congruence].
  - split; [reflexivity|]. split.
    + intros documentId other Hne. unfold roster. simpl.
      destruct (decide (documentId = current)) as [->|Hd].
      * rewrite Hl. now rewrite Hros.
      * now rewrite Ho.
    + intros c user [= <-] _ Hu. rewrite <- Hros, Hmu in Hu. discriminate.
Qed.

Lemma cursor_position_sets_own_cursor_witness :
  JS.map_get "s1"
    (roster (handle "s1" (cursor_position 7) joined_abc).1 "d")
  = Some (mkUser "s1" "User 1" "#FF6B6B" 7).
Proof.
  destruct (cursor_position_sets_own_cursor "s1" 7 _ joined_abc eq_refl)
    as (_ & _ & H).
  destruct (H "d" _ eq_refl (ex_intro _ _ eq_refl) eq_refl) as [H1 _].
  exact H1.
Defined.

(** *** Invariants of the documents *)

Section DocInvariant.

Variable P : string -> Document -> Prop.
Hypothesis P_fresh :
  forall documentId,
    P documentId {| doc_id := documentId; content := ""; version := 0;
                    operations := []; users := [] |}.
Hypothesis P_users : forall k doc us, P k doc -> P k (set_users doc us).
Hypothesis P_commit :
  forall k doc op dateNow,
    P k doc ->
    P k {| doc_id := doc_id doc;
           content := applyToContent (content doc) op;
           version := version doc + 1;
           operations := operations doc
                         ++ [mkLogged op (version doc + 1) dateNow];
           users := users doc |}.

Lemma inv_getDocument documentId docs :
  map_Forall P docs ->
  P documentId (getDocument documentId docs).1
  /\ map_Forall P (getDocument documentId docs).2.
Proof.
  intros Hinv. unfold getDocument.
  destruct (docs !! documentId) as [doc|] eqn:E; simpl.
  - split; [exact (Hinv _ _ E)|assumption].
  - split; [apply P_fresh|]. apply map_Forall_insert_2; [apply P_fresh|].
    assumption.
Qed.

Lemma inv_removeUser documentId socketId docs :
  map_Forall P docs -> map_Forall P (removeUser documentId socketId docs).
Proof.
  intros Hinv. unfold removeUser.
  destruct (docs !! documentId) as [doc|] eqn:E; [|assumption].
  apply map_Forall_insert_2; [|assumption]. apply P_users, (Hinv _ _ E).
Qed.

Lemma inv_addUser documentId socketId sock st :
  map_Forall P (documents st) ->
  map_Forall P (documents (addUser documentId socketId sock st).2).
Proof.
  intros Hinv. unfold addUser.
  destruct (inv_getDocument documentId _ Hinv) as (Hd & Hdocs).
  destruct (getDocument documentId (documents st)) as [doc docs].
  simpl in *. apply map_Forall_insert_2; [|assumption]. now apply P_users.
Qed.

Lemma inv_handle socketId ev st :
  map_Forall P (documents st) ->
  map_Forall P (documents (handle socketId ev st).1).
Proof.
  intros Hinv. unfold handle.
  destruct ev as [userName|documentId|dateNow op|pos|];
    try exact Hinv;
    destruct (sockets st !! socketId) as [sock|]; try exact Hinv.
  - unfold on_join_document.
    set (left := match JS.when_truthy (currentDocumentId sock) with
                 | Some previous =>
                     (rooms sock ∖ {[previous]},
                      removeUser previous socketId (documents st))
                 | None => (rooms sock, documents st)
                 end).
    assert (Hleft : map_Forall P left.2).
    { unfold left. destruct (JS.when_truthy (currentDocumentId sock));
        simpl; [now apply inv_removeUser | assumption]. }
    destruct left as [rooms1 docs1]. simpl in Hleft.
    destruct (inv_getDocument documentId docs1 Hleft) as (_ & Hdocs2).
    destruct (getDocument documentId docs1) as [d0 docs2]. simpl in Hdocs2.
    pose proof (inv_addUser documentId socketId sock
                  (set_documents st docs2) Hdocs2) as Hadd.
    destruct (addUser documentId socketId sock (set_documents st docs2))
      as [user st3].
    exact Hadd.
  - unfold on_operation.
    destruct (JS.when_truthy (currentDocumentId sock)) as [current|];
      [|assumption].
    destruct (inv_getDocument current _ Hinv) as (Hd & Hdocs).
    destruct (getDocument current (documents st)) as [doc docs1].
    simpl in *. apply map_Forall_insert_2; [|assumption].
    now apply P_commit.
  - unfold on_cursor_position.
    destruct (JS.when_truthy (currentDocumentId sock)) as [current|];
      [|assumption].
    destruct (currentUser sock); [|assumption].
    destruct (inv_getDocument current _ Hinv) as (Hd & Hdocs).
    destruct (getDocument current (documents st)) as [doc docs1].
    simpl in *.
    destruct (JS.map_get socketId (users doc)); simpl; [|assumption].
    apply map_Forall_insert_2; [|assumption]. now apply P_users.
  - unfold on_disconnect.
    destruct (JS.when_truthy (currentDocumentId sock)) as [current|];
      [|assumption].
    pose proof (inv_removeUser current socketId _ Hinv) as Hrem.
    destruct (inv_getDocument current _ Hrem) as (_ & Hdocs).
    destruct (getDocument current
                (removeUser current socketId (documents st))) as [doc docs2].
    exact Hdocs.
Qed.

Lemma inv_run evs st :
  map_Forall P (documents st) -> map_Forall P (documents (run evs st).1).
Proof.
  revert st. induction evs as [|[socketId ev] evs IH]; intros st Hinv.
  - exact Hinv.
  - simpl. pose proof (inv_handle socketId ev st Hinv) as H1.
    destruct (handle socketId ev st) as [st1 out1].
    specialize (IH st1 H1).
    destruct (run evs st1) as [st2 out2]. exact IH.
Qed.

End DocInvariant.

(** X16. In every state the relay reaches, each document is stored
    under its own id, and the entries of its log carry the versions 1, 2,
    3, ... in order: the entry at index [i] has [serverVersion = i + 1]. *)
Theorem log_versions_count_up
    (evs : list (string * Event)) (documentId : string) (doc : Document) :
  documents (run evs initial).1 !! documentId = Some doc ->
  doc_id doc = documentId
  /\ forall (i : nat) (entry : LoggedOperation),
       operations doc !! i = Some entry ->
       serverVersion entry = Z.of_nat i + 1.
Proof.
  intros Hd.
  pose (P := fun (k : string) (d : Document) =>
               doc_id d = k
               /\ version d = Z.of_nat (List.length (operations d))
               /\ forall (i : nat) (entry : LoggedOperation),
                    operations d !! i = Some entry ->
                    serverVersion entry = Z.of_nat i + 1).
  assert (H : map_Forall P (documents (run evs initial).1)).
  { apply inv_run.
    - intros k. repeat split. intros i e H. simpl in H.
      now rewrite lookup_nil in H.
    - intros k d us Hp. exact Hp.
    - intros k d op dateNow (Hid & Hv & Hlog). repeat split; simpl.
      + exact Hid.
      + rewrite length_app. simpl. lia.
      + intros i e Hi. apply lookup_app_Some in Hi as [Hi|[Hge Hi]].
        * now apply Hlog.
        * apply list_lookup_singleton_Some in Hi as [Hi <-]. simpl. lia.
    - apply map_Forall_empty. }
  destruct (H _ _ Hd) as (Hid & _ & Hlog). split; assumption.
Qed.

Lemma log_versions_count_up_witness :
  exists doc,
    documents joined_abc !! "d" = Some doc
    /\ doc_id doc = "d"
    /\ serverVersion <$> operations doc !! 0%nat = Some 1.
Proof.
  eexists. split; [reflexivity|].
  destruct (log_versions_count_up
              [("s1", connection None); ("s1", join_document "d");
               ("s1", operation 100 (ins "s1" 0 "abc"))] "d" _ eq_refl)
    as [H1 H2].
  split; [exact H1|]. exact (f_equal Some (H2 0%nat _ eq_refl)).
Defined.

End RelayFrame.

Section JsMapKeys.

Context {V : Type}.
Implicit Types (m : JS.Map V) (k : string) (v : V).

Lemma map_get_None_keys k m : JS.map_get k m = None <-> k ∉ map_keys m.
Proof.
  induction m as [|[k1 v1] m IH]; simpl.
  - split; [intros _; apply not_elem_of_nil|reflexivity].
  - destruct (String.eqb_spec k1 k) as [->|H1].
    + split; [discriminate|]. intros H. exfalso. apply H. left.
    + rewrite IH. split.
      * intros H Hin. apply elem_of_cons in Hin as [->|Hin]; auto.
      * intros H Hin. apply H. now right.
Qed.

Lemma keys_map_set k v m :
  map_keys (JS.map_set k v m)
  = match JS.map_get k m with
    | Some _ => map_keys m
    | None => map_keys m ++ [k]
    end.
Proof.
  induction m as [|[k1 v1] m IH]; simpl; [reflexivity|].
  destruct (String.eqb_spec k1 k) as [->|H1]; simpl; [reflexivity|].
  rewrite IH. now destruct (JS.map_get k m).
Qed.

Lemma keys_map_delete k m k' :
  k' ∈ map_keys (JS.map_delete k m) <-> k' ∈ map_keys m /\ k' <> k.
Proof.
  induction m as [|[k1 v1] m IH]; simpl.
  - split; [intros H; now apply elem_of_nil in H|intros [H _]; exact H].
  - destruct (String.eqb_spec k1 k) as [->|H1]; simpl.
    + rewrite IH. split.
      * intros [H Hne]. split; [now right|assumption].
      * intros [H Hne]. apply elem_of_cons in H as [->|H]; [contradiction|].
        now split.
    + rewrite !elem_of_cons, IH. split.
      * intros [->|[H Hne]]; [split; [now left|assumption]|].
        split; [now right|assumption].
      * intros [[->|H] Hne]; [now left|right; now split].
Qed.

Lemma NoDup_map_set k v m :
  NoDup (map_keys m) -> NoDup (map_keys (JS.map_set k v m)).
Proof.
  intros H. rewrite keys_map_set.
  destruct (JS.map_get k m) eqn:E; [assumption|].
  apply NoDup_app. split; [assumption|]. split.
  - intros x Hx Hk. apply list_elem_of_singleton in Hk as ->.
    now apply map_get_None_keys in E.
  - apply NoDup_singleton.
Qed.

Lemma NoDup_map_delete k m :
  NoDup (map_keys m) -> NoDup (map_keys (JS.map_delete k m)).
Proof.
  induction m as [|[k1 v1] m IH]; simpl; [trivial|].
  intros H. apply NoDup_cons in H as [Hn Hd].
  destruct (String.eqb_spec k1 k) as [->|H1]; simpl; [now apply IH|].
  apply NoDup_cons. split; [|now apply IH].
  intros Hin. apply keys_map_delete in Hin as [Hin _]. contradiction.
Qed.

Lemma elem_of_map_keys k v m : (k, v) ∈ m -> k ∈ map_keys m.
Proof.
  intros H. apply list_elem_of_In, in_map_iff.
  exists (k, v). split; [reflexivity|now apply list_elem_of_In].
Qed.

Lemma map_get_elem_NoDup k v m :
  NoDup (map_keys m) -> (k, v) ∈ m -> JS.map_get k m = Some v.
Proof.
  induction m as [|[k1 v1] m IH]; simpl.
  - intros _ H. now apply elem_of_nil in H.
  - intros Hnd H. apply NoDup_cons in Hnd as [Hn Hd].
    apply elem_of_cons in H as [[= -> ->]|H].
    + now rewrite String.eqb_refl.
    + destruct (String.eqb_spec k1 k) as [->|H1]; [|now apply IH].
      exfalso. apply Hn. now apply elem_of_map_keys in H.
Qed.

Lemma map_get_is_Some_keys k m : is_Some (JS.map_get k m) <-> k ∈ map_keys m.
Proof.
  destruct (JS.map_get k m) eqn:E.
  - split; [intros _|eauto]. apply map_get_Some_elem in E.
    now apply elem_of_map_keys in E.
  - apply map_get_None_keys in E. split; [intros [x [=]]|contradiction].
Qed.

End JsMapKeys.

Section Rosters.

Import Server.

Lemma roster_users_of st x : roster st x = users_of (documents st) x.
Proof. reflexivity. Qed.

Lemma users_of_getDocument d docs x :
  users_of (getDocument d docs).2 x = users_of docs x.
Proof.
  unfold users_of, getDocument.
  destruct (docs !! d) as [doc|] eqn:E; simpl; [reflexivity|].
  destruct (decide (d = x)) as [<-|Hne].
  - now rewrite lookup_insert_eq, E.
  - now rewrite lookup_insert_ne.
Qed.

Lemma users_getDocument d docs :
  users (getDocument d docs).1 = users_of docs d.
Proof.
  unfold users_of, getDocument. now destruct (docs !! d).
Qed.

Lemma users_of_insert d doc docs x :
  users_of (<[d := doc]> docs) x
  = if decide (x = d) then users doc else users_of docs x.
Proof.
  unfold users_of. destruct (decide (x = d)) as [->|Hne].
  - now rewrite lookup_insert_eq.
  - now rewrite lookup_insert_ne.
Qed.

Lemma users_of_removeUser d s docs x :
  users_of (removeUser d s docs) x
  = if decide (x = d) then JS.map_delete s (users_of docs x)
    else users_of docs x.
Proof.
  unfold removeUser. destruct (docs !! d) as [doc|] eqn:E.
  - rewrite users_of_insert. destruct (decide (x = d)) as [->|]; trivial.
    simpl. unfold users_of. now rewrite E.
  - destruct (decide (x = d)) as [->|]; trivial.
    unfold users_of. now rewrite E.
Qed.

Lemma users_of_addUser d s sock st x :
  users_of (documents (addUser d s sock st).2) x
  = if decide (x = d)
    then JS.map_set s (addUser d s sock st).1 (users_of (documents st) x)
    else users_of (documents st) x.
Proof.
  unfold addUser.
  pose proof (users_of_getDocument d (documents st) x) as H1.
  pose proof (users_getDocument d (documents st)) as H2.
  destruct (getDocument d (documents st)) as [doc docs]. simpl in *.
  rewrite users_of_insert. destruct (decide (x = d)) as [->|]; trivial.
  simpl. now rewrite H2.
Qed.

Lemma color_in_palette (n : Z) :
  0 <= n ->
  nth (Z.to_nat (n mod Z.of_nat (List.length COLORS))) COLORS "" ∈ COLORS.
Proof.
  intros Hn. apply list_elem_of_In, nth_In.
  change (Z.of_nat (List.length COLORS)) with 8.
  change (List.length COLORS) with 8%nat.
  pose proof (Z.mod_pos_bound n 8). lia.
Qed.

Lemma addUser_good d s sock st :
  0 <= colorIndex st -> good_user s (addUser d s sock st).1.
Proof.
  intros Hn. unfold addUser.
  destruct (getDocument d (documents st)) as [doc docs]. simpl.
  split; [reflexivity|]. simpl. now apply color_in_palette.
Qed.

(** The rosters after [join-document]. *)
Lemma roster_join s d sock st x :
  roster (on_join_document s d sock st).1 x
  = if decide (x = d)
    then JS.map_set s
           (addUser d s sock
              (set_documents st
                 (getDocument d
                    (match JS.when_truthy (currentDocumentId sock) with
                     | Some previous => removeUser previous s (documents st)
                     | None => documents st
                     end)).2)).1
           (roster_left s sock st x)
    else roster_left s sock st x.
Proof.
  unfold on_join_document, roster_left.
  destruct (JS.when_truthy (currentDocumentId sock)) as [previous|] eqn:Hp.
  - pose proof (users_of_getDocument d
                  (removeUser previous s (documents st)) x) as H1.
    destruct (getDocument d (removeUser previous s (documents st)))
      as [d0 docs2]. simpl in *.
    pose proof (users_of_addUser d s sock (set_documents st docs2) x) as H2.
    destruct (addUser d s sock (set_documents st docs2)) as [user st3].
    simpl in *. rewrite roster_users_of. simpl. rewrite H2, H1.
    rewrite users_of_removeUser.
    destruct (decide (x = d)), (decide (x = previous)),
      (decide (Some previous = Some x)); try congruence; reflexivity.
  - pose proof (users_of_getDocument d (documents st) x) as H1.
    destruct (getDocument d (documents st)) as [d0 docs2]. simpl in *.
    pose proof (users_of_addUser d s sock (set_documents st docs2) x) as H2.
    destruct (addUser d s sock (set_documents st docs2)) as [user st3].
    simpl in *. rewrite roster_users_of. simpl. rewrite H2, H1.
    destruct (decide (x = d)), (decide (None = Some x)); try congruence;
      reflexivity.
Qed.

Lemma roster_operation s dateNow op sock st x :
  roster (on_operation s dateNow op sock st).1 x = roster st x.
Proof.
  unfold on_operation.
  destruct (JS.when_truthy (currentDocumentId sock)) as [current|];
    [|reflexivity].
  pose proof (users_of_getDocument current (documents st) x) as H1.
  pose proof (users_getDocument current (documents st)) as H2.
  destruct (getDocument current (documents st)) as [doc docs1]. simpl in *.
  rewrite !roster_users_of. simpl. rewrite users_of_insert.
  destruct (decide (x = current)) as [->|]; simpl; congruence.
Qed.

Lemma roster_cursor s pos sock st x :
  roster (on_cursor_position s pos sock st).1 x
  = match JS.when_truthy (currentDocumentId sock), currentUser sock,
          JS.map_get s (roster st x) with
    | Some current, Some _, Some user =>
        if decide (x = current)
        then JS.map_set s {| id := id user; name := name user;
                             color := color user; cursor := pos |}
               (roster st x)
        else roster st x
    | _, _, _ => roster st x
    end.
Proof.
  unfold on_cursor_position.
  destruct (JS.when_truthy (currentDocumentId sock)) as [current|];
    [|now destruct (JS.map_get s (roster st x))].
  destruct (currentUser sock) as [cu|];
    [|now destruct (JS.map_get s (roster st x))].
  pose proof (users_of_getDocument current (documents st) x) as H1.
  pose proof (users_getDocument current (documents st)) as H2.
  destruct (getDocument current (documents st)) as [doc docs1]. simpl in *.
  rewrite !roster_users_of.
  destruct (decide (x = current)) as [->|Hne].
  - rewrite H2. destruct (JS.map_get s (users_of (documents st) current))
      as [mu|]; simpl.
    + rewrite users_of_insert, decide_True by reflexivity. reflexivity.
    + exact H1.
  - destruct (JS.map_get s (users doc)) as [mu|]; simpl.
    + rewrite users_of_insert, decide_False by assumption. rewrite H1.
      now destruct (JS.map_get s (users_of (documents st) x)).
    + rewrite H1. now destruct (JS.map_get s (users_of (documents st) x)).
Qed.

Lemma roster_disconnect s sock st x :
  roster (on_disconnect s sock st).1 x = roster_left s sock st x.
Proof.
  unfold on_disconnect, roster_left.
  destruct (JS.when_truthy (currentDocumentId sock)) as [current|] eqn:Hc.
  - pose proof (users_of_getDocument current
                  (removeUser current s (documents st)) x) as H1.
    destruct (getDocument current (removeUser current s (documents st)))
      as [doc docs2]. simpl in *.
    rewrite !roster_users_of. simpl. rewrite H1, users_of_removeUser.
    destruct (decide (x = current)), (decide (Some current = Some x));
      try congruence; reflexivity.
  - now rewrite decide_False by discriminate.
Qed.

End Rosters.

Section RelayWf.

Import Server.

Lemma elem_of_keys_map_set {V} k (v : V) m k' :
  k' ∈ map_keys (JS.map_set k v m) <-> k' = k \/ k' ∈ map_keys m.
Proof.
  rewrite keys_map_set. destruct (JS.map_get k m) eqn:E.
  - split; [now right|]. intros [->|H]; [|assumption].
    apply map_get_is_Some_keys. eauto.
  - rewrite elem_of_app, list_elem_of_singleton. tauto.
Qed.

Lemma roster_wf_nil : roster_wf [].
Proof.
  split; [apply NoDup_nil; constructor|].
  intros k u H. now apply elem_of_nil in H.
Qed.

Lemma roster_wf_set s u m :
  roster_wf m -> good_user s u -> roster_wf (JS.map_set s u m).
Proof.
  intros [Hnd Hgood] Hu. split; [now apply NoDup_map_set|].
  intros k u' Hin. apply elem_of_map_set in Hin as [[= -> ->]|Hin]; auto.
Qed.

Lemma roster_wf_delete s m : roster_wf m -> roster_wf (JS.map_delete s m).
Proof.
  intros [Hnd Hgood]. split; [now apply NoDup_map_delete|].
  intros k u Hin. apply elem_of_map_delete in Hin as [Hin _]. auto.
Qed.

Lemma roster_left_wf s sock st x :
  roster_wf (roster st x) -> roster_wf (roster_left s sock st x).
Proof.
  intros H. unfold roster_left. case_decide; [now apply roster_wf_delete|].
  assumption.
Qed.

Lemma keys_roster_left s sock st x k :
  k ∈ map_keys (roster_left s sock st x) ->
  k ∈ map_keys (roster st x)
  /\ (JS.when_truthy (currentDocumentId sock) = Some x -> k <> s).
Proof.
  unfold roster_left. case_decide as Hc.
  - intros H. apply keys_map_delete in H as [H1 H2]. auto.
  - intros H. split; [assumption|contradiction].
Qed.

Lemma keys_roster_left_2 s sock st x k :
  k ∈ map_keys (roster st x) -> k <> s ->
  k ∈ map_keys (roster_left s sock st x).
Proof.
  intros H Hne. unfold roster_left. case_decide; [|assumption].
  apply keys_map_delete. auto.
Qed.

Lemma when_truthy_Some v d : JS.when_truthy v = Some d -> v = Some d /\ d <> "".
Proof.
  destruct v as [s|]; simpl; [|discriminate].
  destruct (String.eqb_spec s ""); [discriminate|]. intros [= ->]. auto.
Qed.

Lemma when_truthy_of_Some d : d <> "" -> JS.when_truthy (Some d) = Some d.
Proof.
  intros H. simpl. destruct (String.eqb_spec d ""); [contradiction|reflexivity].
Qed.

Lemma sockets_join s d sock st :
  exists joined user,
    sockets (on_join_document s d sock st).1
    = <[s := {| handshake_userName := handshake_userName sock;
                rooms := joined; currentDocumentId := Some d;
                currentUser := Some user |}]> (sockets st)
    /\ colorIndex (on_join_document s d sock st).1 = colorIndex st + 1.
Proof.
  unfold on_join_document.
  destruct (match JS.when_truthy (currentDocumentId sock) with
            | Some previous => _ | None => _ end) as [rooms1 docs1].
  destruct (getDocument d docs1) as [d0 docs2].
  pose proof (addUser_spec d s sock (set_documents st docs2))
    as (_ & _ & _ & Hci & Hs & _).
  destruct (addUser d s sock (set_documents st docs2)) as [user st3].
  simpl in *. rewrite Hs, Hci. eauto.
Qed.

Lemma sockets_other_handlers s ev st :
  (forall d, ev <> join_document d) ->
  (forall u, ev <> connection u) ->
  colorIndex (handle s ev st).1 = colorIndex st
  /\ (sockets (handle s ev st).1 = sockets st
      \/ (ev = disconnect
          /\ sockets (handle s ev st).1 = delete s (sockets st))).
Proof.
  intros Hj Hc. unfold handle.
  destruct ev as [u|d|dateNow op|pos|]; try congruence;
    destruct (sockets st !! s) as [sock|]; auto.
  - unfold on_operation.
    destruct (JS.when_truthy (currentDocumentId sock)); auto.
    destruct (getDocument s0 (documents st)). auto.
  - unfold on_cursor_position.
    destruct (JS.when_truthy (currentDocumentId sock)); auto.
    destruct (currentUser sock); auto.
    destruct (getDocument s0 (documents st)) as [doc docs1].
    destruct (JS.map_get s (users doc)); auto.
  - unfold on_disconnect.
    destruct (JS.when_truthy (currentDocumentId sock)).
    + destruct (getDocument s0 _). simpl. auto.
    + simpl. auto.
Qed.

Lemma wf_join s d sock st :
  relay_wf st -> sockets st !! s = Some sock ->
  relay_wf (on_join_document s d sock st).1.
Proof.
  intros (Hci & Hros & Hin & Hcons) Hsock.
  destruct (sockets_join s d sock st) as (joined & user & Hs & Hc).
  pose proof (roster_join s d sock st) as Hr.
  set (out := (on_join_document s d sock st).1) in *.
  set (u0 := (addUser d s sock _).1) in Hr.
  assert (Hgood : good_user s u0) by (apply addUser_good; exact Hci).
  split; [lia|]. split; [|split].
  - intros x. rewrite Hr. case_decide.
    + apply roster_wf_set; [|assumption]. apply roster_left_wf, Hros.
    + apply roster_left_wf, Hros.
  - intros k ksock x Hk Hcur. rewrite Hs in Hk. rewrite Hr.
    destruct (decide (k = s)) as [->|Hne].
    + rewrite lookup_insert_eq in Hk. injection Hk as <-.
      apply when_truthy_Some in Hcur as [[= <-] _].
      rewrite decide_True by reflexivity.
      apply elem_of_keys_map_set. now left.
    + rewrite lookup_insert_ne in Hk by congruence.
      pose proof (Hin k ksock x Hk Hcur) as Hmem.
      pose proof (keys_roster_left_2 s sock st x k Hmem Hne) as Hl.
      case_decide; [|assumption]. apply elem_of_keys_map_set. now right.
  - intros x k Hk Hx. rewrite Hs. rewrite Hr in Hk.
    destruct (decide (k = s)) as [->|Hne].
    + rewrite lookup_insert_eq. eexists. split; [reflexivity|]. simpl.
      f_equal. case_decide as Hxd; [congruence|].
      apply keys_roster_left in Hk as [Hk Hleft].
      destruct (Hcons x s Hk Hx) as (sock' & Hs' & Hc').
      assert (sock' = sock) as -> by congruence.
      exfalso. apply Hleft; [|reflexivity].
      rewrite Hc'. now apply when_truthy_of_Some.
    + rewrite lookup_insert_ne by congruence. apply Hcons; [|assumption].
      case_decide.
      * apply elem_of_keys_map_set in Hk as [->|Hk]; [contradiction|].
        now apply keys_roster_left in Hk as [Hk _].
      * now apply keys_roster_left in Hk as [Hk _].
Qed.

Lemma wf_same_rosters st st' :
  relay_wf st ->
  colorIndex st' = colorIndex st -> sockets st' = sockets st ->
  (forall x, roster st' x = roster st x) ->
  relay_wf st'.
Proof.
  intros (Hci & Hros & Hin & Hcons) Hc Hs Hr.
  split; [lia|]. split; [|split].
  - intros x. rewrite Hr. apply Hros.
  - intros k sock x. rewrite Hs, Hr. apply Hin.
  - intros x k. rewrite Hs, Hr. apply Hcons.
Qed.

Lemma wf_operation s dateNow op sock st :
  relay_wf st -> relay_wf (on_operation s dateNow op sock st).1.
Proof.
  intros Hwf. apply (wf_same_rosters st); trivial.
  - unfold on_operation.
    destruct (JS.when_truthy (currentDocumentId sock)); trivial.
    now destruct (getDocument s0 (documents st)).
  - unfold on_operation.
    destruct (JS.when_truthy (currentDocumentId sock)); trivial.
    now destruct (getDocument s0 (documents st)).
  - apply roster_operation.
Qed.

Lemma wf_cursor s pos sock st :
  relay_wf st -> relay_wf (on_cursor_position s pos sock st).1.
Proof.
  intros (Hci & Hros & Hin & Hcons).
  assert (Hc : colorIndex (on_cursor_position s pos sock st).1
               = colorIndex st
               /\ sockets (on_cursor_position s pos sock st).1 = sockets st).
  { unfold on_cursor_position.
    destruct (JS.when_truthy (currentDocumentId sock)); auto.
    destruct (currentUser sock); auto.
    destruct (getDocument s0 (documents st)) as [doc docs1].
    destruct (JS.map_get s (users doc)); auto. }
  destruct Hc as [Hc Hs].
  pose proof (roster_cursor s pos sock st) as Hr.
  assert (Hkeys : forall x k,
             k ∈ map_keys (roster (on_cursor_position s pos sock st).1 x)
             <-> k ∈ map_keys (roster st x)).
  { intros x k. rewrite Hr.
    destruct (JS.when_truthy (currentDocumentId sock)); [|reflexivity].
    destruct (currentUser sock); [|reflexivity].
    destruct (JS.map_get s (roster st x)) eqn:E; [|reflexivity].
    case_decide; [|reflexivity].
    rewrite elem_of_keys_map_set. split; [|now right].
    intros [->|Hk]; [|assumption]. apply map_get_is_Some_keys. eauto. }
  split; [lia|]. split; [|split].
  - intros x. rewrite Hr.
    destruct (JS.when_truthy (currentDocumentId sock)); [|apply Hros].
    destruct (currentUser sock); [|apply Hros].
    destruct (JS.map_get s (roster st x)) as [mu|] eqn:E; [|apply Hros].
    case_decide; [|apply Hros].
    apply roster_wf_set; [apply Hros|].
    apply map_get_Some_elem in E. apply (proj2 (Hros x)) in E.
    exact E.
  - intros k ksock x. rewrite Hs, Hkeys. apply Hin.
  - intros x k. rewrite Hs, Hkeys. apply Hcons.
Qed.

Lemma wf_disconnect s sock st :
  relay_wf st -> sockets st !! s = Some sock ->
  relay_wf (on_disconnect s sock st).1.
Proof.
  intros (Hci & Hros & Hin & Hcons) Hsock.
  assert (Hc : colorIndex (on_disconnect s sock st).1 = colorIndex st
               /\ sockets (on_disconnect s sock st).1
                  = delete s (sockets st)).
  { unfold on_disconnect.
    destruct (JS.when_truthy (currentDocumentId sock)); auto.
    now destruct (getDocument s0 _). }
  destruct Hc as [Hc Hs].
  pose proof (roster_disconnect s sock st) as Hr.
  split; [lia|]. split; [|split].
  - intros x. rewrite Hr. apply roster_left_wf, Hros.
  - intros k ksock x Hk Hcur. rewrite Hs in Hk.
    apply lookup_delete_Some in Hk as [Hne Hk]. rewrite Hr.
    apply keys_roster_left_2; [|congruence]. now apply (Hin k ksock).
  - intros x k Hk Hx. rewrite Hr in Hk.
    apply keys_roster_left in Hk as [Hk Hleft].
    destruct (Hcons x k Hk Hx) as (ksock & Hks & Hkc).
    exists ksock. split; [|assumption]. rewrite Hs.
    apply lookup_delete_Some. split; [|assumption].
    intros ->. assert (ksock = sock) as -> by congruence.
    apply Hleft; [|reflexivity]. rewrite Hkc. now apply when_truthy_of_Some.
Qed.

Lemma wf_connection s userName st :
  relay_wf st -> sockets st !! s = None ->
  relay_wf (on_connection s userName st).1.
Proof.
  intros (Hci & Hros & Hin & Hcons) Hfresh.
  split; [exact Hci|]. split; [exact Hros|]. split.
  - intros k ksock x Hk Hcur. simpl in Hk.
    destruct (decide (k = s)) as [->|Hne].
    + rewrite lookup_insert_eq in Hk. injection Hk as <-. discriminate.
    + rewrite lookup_insert_ne in Hk by congruence. now apply (Hin k ksock).
  - intros x k Hk Hx. destruct (Hcons x k Hk Hx) as (ksock & Hks & Hkc).
    exists ksock. split; [|assumption]. simpl.
    rewrite lookup_insert_ne; [assumption|]. congruence.
Qed.

Lemma wf_handle s ev st :
  relay_wf st -> (is_connection ev = true -> sockets st !! s = None) ->
  relay_wf (handle s ev st).1.
Proof.
  intros Hwf Hfresh. unfold handle.
  destruct ev as [u|d|dateNow op|pos|].
  - apply wf_connection; auto.
  - destruct (sockets st !! s) as [sock|] eqn:E; [|assumption].
    now apply wf_join.
  - destruct (sockets st !! s) as [sock|] eqn:E; [|assumption].
    now apply wf_operation.
  - destruct (sockets st !! s) as [sock|] eqn:E; [|assumption].
    now apply wf_cursor.
  - destruct (sockets st !! s) as [sock|] eqn:E; [|assumption].
    now apply wf_disconnect.
Qed.

Lemma wf_initial : relay_wf initial.
Proof.
  split; [simpl; lia|]. split; [|split].
  - intros x. apply roster_wf_nil.
  - intros s sock d H. simpl in H. now rewrite lookup_empty in H.
  - intros d k H. now apply elem_of_nil in H.
Qed.

Lemma wf_run evs st :
  relay_wf st -> fresh_connections evs st -> relay_wf (run evs st).1.
Proof.
  revert st. induction evs as [|[s ev] evs IH]; intros st Hwf Hfresh.
  - exact Hwf.
  - simpl in *. destruct Hfresh as [Hf Hrest].
    pose proof (wf_handle s ev st Hwf Hf) as H1.
    destruct (handle s ev st) as [st1 out1]. simpl in *.
    specialize (IH st1 H1 Hrest).
    destruct (run evs st1) as [st2 out2]. exact IH.
Qed.

(** X21. In every state the relay reaches, as long as no socket id is
    handed out while it is still connected, rosters and connections agree:
    no roster lists a socket id twice, every entry sits under its own
    socket id and wears a colour of the palette, a connection that has
    joined a document is in its roster, and every entry of the roster of
    a document (the one with the empty id apart) belongs to a live
    connection that is currently in that document. *)
Theorem reachable_relay_wf (evs : list (string * Event)) :
  fresh_connections evs initial -> relay_wf (run evs initial).1.
Proof. intros Hfresh. apply wf_run; [apply wf_initial|exact Hfresh]. Qed.

Lemma reachable_relay_wf_witness : relay_wf joined_abc.
Proof.
  apply (reachable_relay_wf
           [("s1", connection None); ("s1", join_document "d");
            ("s1", operation 100 (ins "s1" 0 "abc"))]).
  simpl. repeat split; try discriminate; reflexivity.
Defined.

End RelayWf.

Section Sync.

Import Server.

Lemma apply_all_app txt o1 o2 :
  apply_all txt (o1 ++ o2) = apply_all (apply_all txt o1) o2.
Proof. apply fold_left_app. Qed.

Lemma no_operation_in_broadcast st sid c msg excl docs :
  (forall op v, msg <> operation_msg op v) ->
  omap (operation_for st sid) (broadcastToDocument c msg excl docs) = [].
Proof.
  intros Hmsg. unfold broadcastToDocument.
  destruct (docs !! c) as [doc|]; [|reflexivity].
  induction (users doc) as [|[k u] m IH]; [reflexivity|].
  simpl flat_map. rewrite omap_app, IH, app_nil_r.
  case_bool_decide; [reflexivity|]. simpl.
  destruct msg; try reflexivity. now destruct (Hmsg operation0 version0).
Qed.

(** A broadcast of an operation to the roster of a document, seen from a
    socket that is in the room of its own id and in no room named like
    another member. *)
Lemma operations_in_broadcast st sid sock c op v s docs doc :
  docs !! c = Some doc -> NoDup (map_keys (users doc)) ->
  sockets st !! sid = Some sock -> sid ∈ rooms sock ->
  (forall k, k ∈ map_keys (users doc) -> k <> sid -> k ∉ rooms sock) ->
  omap (operation_for st sid)
    (broadcastToDocument c (operation_msg op v) (Some s) docs)
  = if decide (sid ∈ map_keys (users doc) /\ sid <> s) then [op] else [].
Proof.
  intros Hd Hnd Hsock Hown. unfold broadcastToDocument. rewrite Hd. clear Hd.
  revert Hnd. induction (users doc) as [|[k u] m IH]; intros Hnd Hrooms.
  - rewrite decide_False; [reflexivity|].
    intros [H _]. now apply elem_of_nil in H.
  - change (map_keys ((k, u) :: m)) with (k :: map_keys m) in *.
    apply NoDup_cons in Hnd as [Hk Hnd].
    simpl flat_map. rewrite omap_app, (IH Hnd); clear IH.
    2: { intros k' Hin. apply Hrooms. now right. }
    assert (Hhead : omap (operation_for st sid)
                      (if bool_decide (Some k = Some s) then []
                       else [io_to_emit k (operation_msg op v)])
                    = if decide (k = sid /\ sid <> s) then [op] else []).
    { case_bool_decide as Hks.
      - injection Hks as ->. rewrite decide_False; [reflexivity|].
        intros [-> H]. contradiction.
      - simpl omap. unfold operation_for, in_room. rewrite Hsock.
        destruct (decide (k = sid)) as [->|Hne].
        + rewrite bool_decide_eq_true_2 by assumption.
          rewrite decide_True; [reflexivity|]. split; congruence.
        + rewrite bool_decide_eq_false_2
            by (apply Hrooms; [left|assumption]).
          rewrite decide_False; [reflexivity|]. tauto. }
    rewrite Hhead.
    destruct (decide (k = sid /\ sid <> s)) as [[-> Hs]|Hn1].
    + rewrite (decide_False (P := sid ∈ map_keys m /\ sid <> s)) by tauto.
      rewrite decide_True; [reflexivity|]. split; [left|assumption].
    + destruct (decide (sid ∈ map_keys m /\ sid <> s)) as [[H1 H2]|Hn2].
      * rewrite decide_True; [reflexivity|]. split; [now right|assumption].
      * rewrite decide_False; [reflexivity|]. intros [H1 H2].
        apply elem_of_cons in H1 as [->|H1]; tauto.
Qed.

Lemma sockets_handle_other s sid ev st :
  s <> sid -> sockets (handle s ev st).1 !! sid = sockets st !! sid.
Proof.
  intros Hne. unfold handle.
  destruct ev as [u|d|dateNow op|pos|].
  - simpl. now rewrite lookup_insert_ne.
  - destruct (sockets st !! s) as [sock|] eqn:E; [|reflexivity].
    destruct (sockets_join s d sock st) as (joined & user & Hs & _).
    rewrite Hs. now rewrite lookup_insert_ne.
  - destruct (sockets st !! s) as [sock|] eqn:E; [|reflexivity].
    unfold on_operation.
    destruct (JS.when_truthy (currentDocumentId sock)); [|reflexivity].
    now destruct (getDocument s0 (documents st)).
  - destruct (sockets st !! s) as [sock|] eqn:E; [|reflexivity].
    unfold on_cursor_position.
    destruct (JS.when_truthy (currentDocumentId sock)); [|reflexivity].
    destruct (currentUser sock); [|reflexivity].
    destruct (getDocument s0 (documents st)) as [doc docs1].
    now destruct (JS.map_get s (users doc)).
  - destruct (sockets st !! s) as [sock|] eqn:E; [|reflexivity].
    unfold on_disconnect.
    destruct (JS.when_truthy (currentDocumentId sock)).
    + destruct (getDocument s0 _). simpl. now rewrite lookup_delete_ne.
    + simpl. now rewrite lookup_delete_ne.
Qed.

(** One event of another connection: the operations the member of [d]
    receives are exactly what changes the content of [d]. *)
Lemma step_in_sync s ev st sid sock d doc :
  relay_wf st ->
  sockets st !! sid = Some sock -> currentDocumentId sock = Some d ->
  d <> "" -> s <> sid ->
  documents st !! d = Some doc ->
  sid ∈ rooms sock ->
  (forall k, k <> sid -> is_Some (sockets st !! k) -> k ∉ rooms sock) ->
  exists doc',
    documents (handle s ev st).1 !! d = Some doc'
    /\ content doc'
       = apply_all (content doc)
           (omap (operation_for (handle s ev st).1 sid) (handle s ev st).2).
Proof.
  intros Hwf Hsock Hcur Hd Hne Hdoc Hown Hrooms.
  pose proof (sockets_handle_other s sid ev st Hne) as Hsock1.
  rewrite Hsock in Hsock1.
  destruct (is_operation ev) eqn:Hop.
  2: { destruct (handle_non_operation_same_text s ev st Hop d doc Hdoc)
         as (doc' & Hdoc' & _ & Hc & _).
       exists doc'. split; [assumption|]. rewrite Hc.
       replace (omap (operation_for (handle s ev st).1 sid)
                  (handle s ev st).2) with
         (@nil Operation); [reflexivity|].
       symmetry. clear Hsock1. unfold handle.
       destruct ev as [u|dj|dateNow op|pos|]; try discriminate;
         try reflexivity;
         destruct (sockets st !! s) as [ssock|]; try reflexivity.
       - unfold on_join_document.
         destruct (match JS.when_truthy (currentDocumentId ssock) with
                   | Some previous => _ | None => _ end) as [rooms1 docs1].
         destruct (getDocument dj docs1) as [d0 docs2].
         destruct (addUser dj s ssock (set_documents st docs2))
           as [user st3]. simpl.
         rewrite omap_app.
         rewrite no_operation_in_broadcast by discriminate. reflexivity.
       - unfold on_cursor_position.
         destruct (JS.when_truthy (currentDocumentId ssock)); try reflexivity.
         destruct (currentUser ssock); try reflexivity.
         destruct (getDocument s0 (documents st)) as [cd docs1].
         destruct (JS.map_get s (users cd)); try reflexivity. simpl.
         now rewrite no_operation_in_broadcast by discriminate.
       - unfold on_disconnect.
         destruct (JS.when_truthy (currentDocumentId ssock)); try reflexivity.
         destruct (getDocument s0 _) as [cd docs2]. simpl.
         now rewrite no_operation_in_broadcast by discriminate. }
  destruct ev as [u|dj|dateNow op|pos|]; try discriminate.
  revert Hsock1. unfold handle.
  destruct (sockets st !! s) as [ssock|] eqn:Hs.
  2: { exists doc. split; [assumption|reflexivity]. }
  unfold on_operation.
  destruct (JS.when_truthy (currentDocumentId ssock)) as [c|] eqn:Hc.
  2: { exists doc. split; [assumption|reflexivity]. }
  destruct Hwf as (_ & Hros & Hin & Hcons).
  pose proof (Hin s ssock c Hs Hc) as Hmem.
  assert (Hcdoc : exists cdoc, documents st !! c = Some cdoc).
  { unfold roster in Hmem. destruct (documents st !! c); eauto.
    now apply elem_of_nil in Hmem. }
  destruct Hcdoc as [cdoc Hcdoc].
  rewrite (getDocument_found _ _ _ Hcdoc). simpl. intros Hsock1.
  assert (Hnd : NoDup (map_keys (users cdoc))).
  { pose proof (proj1 (Hros c)) as H. unfold roster in H.
    now rewrite Hcdoc in H. }
  assert (Hcne : c <> "") by (now apply when_truthy_Some in Hc as [_ ?]).
  rewrite (operations_in_broadcast _ sid sock c op _ s _
             {| doc_id := doc_id cdoc;
                content := applyToContent (content cdoc) op;
                version := version cdoc + 1;
                operations := operations cdoc
                              ++ [mkLogged op (version cdoc + 1) dateNow];
                users := users cdoc |});
    [|apply lookup_insert_eq|exact Hnd|exact Hsock1|exact Hown|].
  2: { simpl. intros k Hk Hksid. apply Hrooms; [assumption|].
       assert (Hk' : k ∈ map_keys (roster st c))
         by (unfold roster; now rewrite Hcdoc).
       destruct (Hcons c k Hk' Hcne) as (sock' & Hs' & _). eauto. }
  simpl. destruct (decide (c = d)) as [->|Hcd].
  - assert (cdoc = doc) as -> by congruence.
    eexists. rewrite lookup_insert_eq. split; [reflexivity|]. simpl.
    rewrite decide_True.
    + simpl. apply applyToContent_apply.
    + split; [|congruence].
      pose proof (Hin sid sock d Hsock) as H. unfold roster in H.
      rewrite Hdoc in H. apply H. rewrite Hcur.
      now apply when_truthy_of_Some.
  - exists doc. rewrite lookup_insert_ne by assumption.
    split; [assumption|]. rewrite decide_False; [reflexivity|].
    intros [Hk _].
    assert (Hk' : sid ∈ map_keys (roster st c))
      by (unfold roster; now rewrite Hcdoc).
    destruct (Hcons c sid Hk' Hcne) as (sock' & Hs' & Hc').
    congruence.
Qed.

(** X22. A member of a document that sends nothing itself stays in step
    with the relay, provided it is in the room of its own id and no
    other socket, connected or still to connect, has an id that is the
    name of a room the member is in: applying, in order, the operations
    of the [operation] messages it receives, as a client does with
    [OTEngine.apply], gives the content the relay holds. *)
Theorem passive_member_in_sync
    (post : list (string * Event)) (st : Relay)
    (sid d : string) (sock : Socket) (doc : Document) :
  relay_wf st -> fresh_connections post st ->
  sockets st !! sid = Some sock -> currentDocumentId sock = Some d ->
  d <> "" ->
  documents st !! d = Some doc ->
  sid ∈ rooms sock ->
  (forall k, k <> sid -> is_Some (sockets st !! k) -> k ∉ rooms sock) ->
  (forall s ev, (s, ev) ∈ post -> s <> sid /\ s ∉ rooms sock) ->
  exists doc',
    documents (run post st).1 !! d = Some doc'
    /\ content doc'
       = apply_all (content doc) (operations_received sid post st).
Proof.
  revert st doc. induction post as [|[s ev] post IH];
    intros st doc Hwf Hfresh Hsock Hcur Hd Hdoc Hown Hrooms Hpassive.
  - exists doc. split; [assumption|reflexivity].
  - simpl in *. destruct Hfresh as [Hf Hrest].
    destruct (Hpassive s ev) as [Hne Hsroom]; [left|].
    destruct (step_in_sync s ev st sid sock d doc
                Hwf Hsock Hcur Hd Hne Hdoc Hown Hrooms)
      as (doc1 & Hdoc1 & Hc1).
    pose proof (wf_handle s ev st Hwf Hf) as Hwf1.
    pose proof (sockets_handle_other s sid ev st Hne) as Hs1.
    assert (Hrooms1 : forall k, k <> sid ->
              is_Some (sockets (handle s ev st).1 !! k) -> k ∉ rooms sock).
    { intros k Hk Hlive. destruct (decide (k = s)) as [->|Hks];
        [assumption|].
      rewrite sockets_handle_other in Hlive by congruence. auto. }
    destruct (handle s ev st) as [st1 out1]. simpl in *.
    rewrite Hsock in Hs1.
    destruct (IH st1 doc1 Hwf1 Hrest Hs1 Hcur Hd Hdoc1 Hown Hrooms1)
      as (doc2 & Hdoc2 & Hc2).
    { intros s' ev' Hin. apply (Hpassive s' ev'). now right. }
    destruct (run post st1) as [st2 out2]. simpl in *.
    exists doc2. split; [assumption|].
    now rewrite apply_all_app, <- Hc1.
Qed.

Lemma passive_member_in_sync_witness :
  exists doc',
    documents (run [("s1", operation 101 (ins "s1" 3 "!"))] two_joined).1
      !! "d" = Some doc'
    /\ content doc'
       = apply_all "abc"
           (operations_received "s2"
              [("s1", operation 101 (ins "s1" 3 "!"))] two_joined).
Proof.
  assert (Hwf : relay_wf two_joined).
  { unfold two_joined, joined_abc.
    apply wf_run; [apply wf_run; [apply wf_initial|]|];
      simpl; repeat split; try discriminate; reflexivity. }
  assert (Hfresh : fresh_connections
                     [("s1", operation 101 (ins "s1" 3 "!"))] two_joined).
  { simpl. split; [discriminate|exact I]. }
  assert (Hown : "s2" ∈ ({["s2"; "d"]} : gset string))
    by (vm_compute; reflexivity).
  assert (Hrooms : forall k, k <> "s2" ->
             is_Some (sockets two_joined !! k) ->
             k ∉ ({["s2"; "d"]} : gset string)).
  { intros k Hk Hlive Hin.
    apply elem_of_union in Hin as [Hin|Hin];
      apply elem_of_singleton in Hin; subst k; [congruence|].
    destruct Hlive as [x Hx]. vm_compute in Hx. discriminate Hx. }
  assert (Hpassive : forall s ev,
             (s, ev) ∈ [("s1", operation 101 (ins "s1" 3 "!"))] ->
             s <> "s2" /\ s ∉ ({["s2"; "d"]} : gset string)).
  { intros s ev H. apply list_elem_of_singleton in H.
    injection H as -> _. split; [discriminate|].
    intros Hin. apply elem_of_union in Hin as [Hin|Hin];
      apply elem_of_singleton in Hin; discriminate Hin. }
  assert (Hd : "d" <> "") by discriminate.
  destruct (passive_member_in_sync _ two_joined "s2" "d"
              {| handshake_userName := Some "Bob";
                 rooms := {["s2"; "d"]};
                 currentDocumentId := Some "d";
                 currentUser := Some (mkUser "s2" "Bob" "#4ECDC4" 0) |}
              _ Hwf Hfresh eq_refl eq_refl Hd eq_refl Hown Hrooms Hpassive)
    as (doc' & H1 & H2).
  exists doc'. split; [exact H1|exact H2].
Defined.

(** Without that proviso the member can fall out of step. In
    [room_named_like_socket] the socket ["p"] is alone in the document
    ["d"] and in the room ["d"], and a socket whose id is ["d"] shares
    the document ["e"] with ["q"]. An operation of ["q"] is broadcast to
    the room ["d"], so ["p"] receives and applies it, while the document
    ["d"] of the relay stays empty. *)
Lemma room_named_like_socket_breaks_sync :
  let post := [("q", operation 7 (ins "q" 0 "x"))] in
  operations_received "p" post room_named_like_socket = [ins "q" 0 "x"]
  /\ content <$> documents (run post room_named_like_socket).1 !! "d"
     = Some ""
  /\ apply_all "" (operations_received "p" post room_named_like_socket)
     = "x".
Proof. repeat split; vm_compute; reflexivity. Qed.

End Sync.

Section Existence.

Import Server.

Lemma getDocument_creates d docs id :
  is_Some ((getDocument d docs).2 !! id) -> is_Some (docs !! id) \/ id = d.
Proof.
  unfold getDocument. destruct (docs !! d) eqn:E; simpl; [auto|].
  destruct (decide (d = id)) as [->|Hne]; [auto|].
  rewrite lookup_insert_ne by assumption. auto.
Qed.

Lemma removeUser_creates d s docs id :
  is_Some (removeUser d s docs !! id) -> is_Some (docs !! id).
Proof.
  unfold removeUser. destruct (docs !! d) eqn:E; [|auto].
  destruct (decide (d = id)) as [->|Hne].
  - intros _. eauto.
  - now rewrite lookup_insert_ne by assumption.
Qed.

Lemma insert_existing_creates (d : string) (doc0 doc : Document)
    (docs : gmap string Document) (id : string) :
  docs !! d = Some doc0 ->
  is_Some (<[d := doc]> docs !! id) -> is_Some (docs !! id).
Proof.
  intros Hd. destruct (decide (d = id)) as [->|Hne].
  - intros _. eauto.
  - now rewrite lookup_insert_ne by assumption.
Qed.

Lemma addUser_creates d s sock st id :
  is_Some (documents (addUser d s sock st).2 !! id) ->
  is_Some (documents st !! id) \/ id = d.
Proof.
  unfold addUser.
  pose proof (getDocument_creates d (documents st) id) as H1.
  pose proof (getDocument_lookup d (documents st)) as H2.
  destruct (getDocument d (documents st)) as [doc docs]. simpl in *.
  intros H. apply H1. eapply insert_existing_creates; eassumption.
Qed.

(** A handler creates no document, [join-document] of that id apart. *)
Lemma handle_creates s ev st id :
  current_exists st ->
  is_Some (documents (handle s ev st).1 !! id) ->
  is_Some (documents st !! id) \/ ev = join_document id.
Proof.
  intros Hex. unfold handle.
  destruct ev as [u|d|dateNow op|pos|]; [auto|..];
    destruct (sockets st !! s) as [sock|] eqn:Hs; auto.
  - unfold on_join_document.
    set (left := match JS.when_truthy (currentDocumentId sock) with
                 | Some previous =>
                     (rooms sock ∖ {[previous]},
                      removeUser previous s (documents st))
                 | None => (rooms sock, documents st)
                 end).
    assert (Hleft : is_Some (left.2 !! id) -> is_Some (documents st !! id)).
    { unfold left. destruct (JS.when_truthy (currentDocumentId sock)); simpl;
        [apply removeUser_creates|auto]. }
    destruct left as [rooms1 docs1]. simpl in Hleft.
    pose proof (getDocument_creates d docs1 id) as H2.
    destruct (getDocument d docs1) as [d0 docs2]. simpl in H2.
    pose proof (addUser_creates d s sock (set_documents st docs2) id) as H3.
    destruct (addUser d s sock (set_documents st docs2)) as [user st3].
    simpl in *. intros H. destruct (H3 H) as [H'| ->]; [|auto].
    destruct (H2 H') as [H''| ->]; auto.
  - unfold on_operation.
    destruct (JS.when_truthy (currentDocumentId sock)) as [c|] eqn:Hc;
      [|auto].
    destruct (Hex s sock c Hs Hc) as [cdoc Hcdoc].
    rewrite (getDocument_found _ _ _ Hcdoc). simpl. intros H. left.
    eapply insert_existing_creates; eassumption.
  - unfold on_cursor_position.
    destruct (JS.when_truthy (currentDocumentId sock)) as [c|] eqn:Hc;
      [|auto].
    destruct (currentUser sock); [|auto].
    destruct (Hex s sock c Hs Hc) as [cdoc Hcdoc].
    rewrite (getDocument_found _ _ _ Hcdoc).
    destruct (JS.map_get s (users cdoc)); simpl; [|auto]. intros H. left.
    eapply insert_existing_creates; eassumption.
  - unfold on_disconnect.
    destruct (JS.when_truthy (currentDocumentId sock)) as [c|] eqn:Hc;
      [|auto].
    destruct (Hex s sock c Hs Hc) as [cdoc Hcdoc].
    pose proof (getDocument_creates c (removeUser c s (documents st)) id)
      as H1.
    assert (Hx : is_Some (removeUser c s (documents st) !! c)).
    { unfold removeUser. rewrite Hcdoc, lookup_insert_eq. eauto. }
    destruct (getDocument c (removeUser c s (documents st))) as [doc docs2]
      eqn:Eg. simpl in *. intros H.
    destruct (H1 H) as [H'| ->].
    + left. now apply removeUser_creates in H'.
    + left. eauto.
Qed.

Lemma on_join_document_exists s d sock st :
  is_Some (documents (on_join_document s d sock st).1 !! d).
Proof.
  unfold on_join_document.
  destruct (match JS.when_truthy (currentDocumentId sock) with
            | Some previous => _ | None => _ end) as [rooms1 docs1].
  destruct (getDocument d docs1) as [d0 docs2].
  pose proof (addUser_spec d s sock (set_documents st docs2)) as (Hd & _).
  destruct (addUser d s sock (set_documents st docs2)) as [user st3].
  simpl in *. eauto.
Qed.

Lemma handle_current_exists s ev st :
  current_exists st -> current_exists (handle s ev st).1.
Proof.
  intros Hex k ksock c Hk Hc.
  assert (Hkeep : forall id, is_Some (documents st !! id) ->
                             is_Some (documents (handle s ev st).1 !! id)).
  { intros id [doc Hd].
    destruct (handle_extends s ev st id doc Hd) as (doc' & H & _). eauto. }
  destruct (decide (k = s)) as [->|Hne].
  - destruct ev as [u|d|dateNow op|pos|].
    + unfold handle in Hk. simpl in Hk. rewrite lookup_insert_eq in Hk.
      injection Hk as <-. discriminate.
    + unfold handle in *. destruct (sockets st !! s) as [sock|] eqn:Hs.
      * destruct (sockets_join s d sock st) as (joined & user & Hsk & _).
        rewrite Hsk, lookup_insert_eq in Hk. injection Hk as <-.
        apply when_truthy_Some in Hc as [[= <-] _].
        apply on_join_document_exists.
      * apply (Hkeep c). eapply Hex; eassumption.
    + apply Hkeep.
      destruct (sockets_other_handlers s (operation dateNow op) st)
        as [_ [Hs|[? _]]]; try discriminate.
      rewrite Hs in Hk. eapply Hex; eassumption.
    + apply Hkeep.
      destruct (sockets_other_handlers s (cursor_position pos) st)
        as [_ [Hs|[? _]]]; try discriminate.
      rewrite Hs in Hk. eapply Hex; eassumption.
    + destruct (sockets_other_handlers s disconnect st)
        as [_ [Hs|[_ Hs]]]; try discriminate;
        rewrite Hs in Hk.
      * apply Hkeep. eapply Hex; eassumption.
      * rewrite lookup_delete_eq in Hk. discriminate.
  - rewrite sockets_handle_other in Hk by congruence.
    apply Hkeep. eapply Hex; eassumption.
Qed.

Lemma run_creates evs st id :
  current_exists st ->
  is_Some (documents (run evs st).1 !! id) ->
  is_Some (documents st !! id)
  \/ exists s, (s, join_document id) ∈ evs.
Proof.
  revert st. induction evs as [|[s ev] evs IH]; intros st Hex H.
  - now left.
  - simpl in H.
    pose proof (handle_creates s ev st id Hex) as H1.
    pose proof (handle_current_exists s ev st Hex) as Hex1.
    destruct (handle s ev st) as [st1 out1]. simpl in *.
    specialize (IH st1 Hex1).
    destruct (run evs st1) as [st2 out2]. simpl in *.
    destruct (IH H) as [H2|[s' Hin]].
    + destruct (H1 H2) as [H3| ->]; [now left|].
      right. exists s. left.
    + right. exists s'. now right.
Qed.

(** X23. A document exists only once some connection has asked to join
    it: until then [GET /api/documents/:id] answers 404. *)
Theorem api_unknown_document (evs : list (string * Event)) (id : string) :
  (forall s, (s, join_document id) ∉ evs) ->
  Api.get_document id (run evs initial).1
  = Api.not_found "Document not found".
Proof.
  intros Hno. unfold Api.get_document.
  destruct (documents (run evs initial).1 !! id) as [doc|] eqn:E;
    [|reflexivity].
  destruct (run_creates evs initial id) as [H|[s Hin]].
  - intros k ksock c Hk. simpl in Hk. now rewrite lookup_empty in Hk.
  - eauto.
  - simpl in H. rewrite lookup_empty in H. now destruct H.
  - now destruct (Hno s).
Qed.

Lemma api_unknown_document_witness :
  Api.get_document "e" joined_abc = Api.not_found "Document not found".
Proof.
  apply (api_unknown_document
           [("s1", connection None); ("s1", join_document "d");
            ("s1", operation 100 (ins "s1" 0 "abc"))] "e").
  intros s H.
  repeat (apply elem_of_cons in H as [H|H]; [discriminate H|]).
  now apply elem_of_nil in H.
Defined.


(** X25. The document with the empty id cannot be worked in. A connection
    that joins it is enrolled in its roster, yet counts as not joined:
    its operations are dropped with an error, its cursor messages are
    ignored, and its disconnect does not take it out of that roster. *)
Theorem empty_document_id_is_not_joined
    (s : string) (sock : Socket) (st : Relay) :
  sockets st !! s = Some sock ->
  let st1 := (handle s (join_document "") st).1 in
  is_Some (JS.map_get s (roster st1 ""))
  /\ (forall dateNow op,
        handle s (operation dateNow op) st1
        = (st1, [console_error log_no_document]))
  /\ (forall pos, handle s (cursor_position pos) st1 = (st1, []))
  /\ roster (handle s disconnect st1).1 "" = roster st1 "".
Proof.
  intros Hs st1.
  destruct (sockets_join s "" sock st) as (joined & user & Hsk & _).
  assert (Hs1 : sockets st1 !! s
                = Some {| handshake_userName := handshake_userName sock;
                          rooms := joined; currentDocumentId := Some "";
                          currentUser := Some user |}).
  { unfold st1, handle. rewrite Hs, Hsk. apply lookup_insert_eq. }
  split; [|split; [|split]].
  - unfold st1, handle. rewrite Hs, roster_join.
    rewrite decide_True by reflexivity. rewrite map_get_set_eq. eauto.
  - intros dateNow op. unfold handle. rewrite Hs1. reflexivity.
  - intros pos. unfold handle. rewrite Hs1. reflexivity.
  - unfold handle at 1. rewrite Hs1. rewrite roster_disconnect.
    unfold roster_left. case_decide as Hc; [discriminate Hc|reflexivity].
Qed.

Lemma empty_document_id_is_not_joined_witness :
  handle "s1" (operation 101 (ins "s1" 0 "x"))
    (handle "s1" (join_document "") joined_abc).1
  = ((handle "s1" (join_document "") joined_abc).1,
     [console_error log_no_document]).
Proof.
  destruct (empty_document_id_is_not_joined "s1" _ joined_abc eq_refl)
    as (_ & H & _).
  apply H.
Defined.

End Existence.

(** ** Properties of the user registry *)

Section UserManagerProps.

Import UserManager.

Lemma length_map_set {V} k (v : V) m :
  List.length (JS.map_set k v m)
  = match JS.map_get k m with
    | Some _ => List.length m
    | None => S (List.length m)
    end.
Proof.
  induction m as [|[k1 v1] m IH]; simpl; [reflexivity|].
  destruct (String.eqb_spec k1 k); simpl; [reflexivity|].
  rewrite IH. now destruct (JS.map_get k m).
Qed.

(** X26. Adding then looking up returns the data with [joinedAt] set to
    the time of the call (overriding a [joinedAt] of the data); the other
    users are untouched; a user already present is replaced in place, a
    new one is appended. *)
Theorem userManager_addUser_getUser (dateNow : Z) (userId : string)
    (userData : gmap string Value)
    (m : t) :
  getUser userId (addUser dateNow userId userData m)
  = Some (<["joinedAt" := Num dateNow]> userData)
  /\ (forall other, other <> userId ->
        getUser other (addUser dateNow userId userData m) = getUser other m)
  /\ List.length (getAllUsers (addUser dateNow userId userData m))
     = match getUser userId m with
       | Some _ => List.length (getAllUsers m)
       | None => S (List.length (getAllUsers m))
       end.
Proof.
  unfold getUser, addUser, getAllUsers, JS.map_values. simpl.
  split; [apply map_get_set_eq|]. split.
  - intros other Hne. apply map_get_set_ne. congruence.
  - rewrite !length_map, length_map_set.
    now destruct (JS.map_get userId (users m)).
Qed.

Lemma userManager_addUser_getUser_witness :
  getUser "u2" (addUser 5 "u1" ∅ (addUser 3 "u2" ∅ new))
  = getUser "u2" (addUser 3 "u2" ∅ new).
Proof.
  apply (proj1 (proj2 (userManager_addUser_getUser 5 "u1" ∅
                         (addUser 3 "u2" ∅ new)))).
  discriminate.
Defined.

(** X27. Removing makes the lookup fail and leaves the other users
    alone; removing a user that is not there changes nothing. *)
Theorem userManager_removeUser_getUser (userId : string) (m : t) :
  getUser userId (removeUser userId m) = None
  /\ (forall other, other <> userId ->
        getUser other (removeUser userId m) = getUser other m)
  /\ (getUser userId m = None -> removeUser userId m = m).
Proof.
  unfold getUser, removeUser. simpl.
  split; [apply map_get_delete_eq|]. split.
  - intros other Hne. apply map_get_delete_ne. congruence.
  - intros H. destruct m as [us]. simpl in *. f_equal.
    now apply map_delete_absent.
Qed.

Lemma userManager_removeUser_getUser_witness :
  removeUser "u1" (addUser 3 "u2" ∅ new) = addUser 3 "u2" ∅ new.
Proof.
  apply (proj2 (proj2 (userManager_removeUser_getUser "u1"
                         (addUser 3 "u2" ∅ new)))).
  reflexivity.
Defined.

(** X28. [updateCursor] on a missing user does nothing (it creates no
    entry); on a present one it sets [cursor] and keeps every other field
    of that user, every other user, and the number and order of ids. *)
Theorem userManager_updateCursor (userId : string) (position : Value) (m : t) :
  (getUser userId m = None -> updateCursor userId position m = m)
  /\ (forall user,
        getUser userId m = Some user ->
        getUser userId (updateCursor userId position m)
        = Some (<["cursor" := position]> user)
        /\ (forall field, field <> "cursor" ->
              <["cursor" := position]> user !! field = user !! field)
        /\ map_keys (users (updateCursor userId position m))
           = map_keys (users m))
  /\ (forall other, other <> userId ->
        getUser other (updateCursor userId position m) = getUser other m).
Proof.
  unfold getUser, updateCursor. split; [|split].
  - intros H. now rewrite H.
  - intros user H. rewrite H. simpl. split; [apply map_get_set_eq|]. split.
    + intros field Hne. apply lookup_insert_ne. congruence.
    + rewrite keys_map_set. now rewrite H.
  - intros other Hne. destruct (JS.map_get userId (users m)); [|reflexivity].
    simpl. apply map_get_set_ne. congruence.
Qed.

Lemma userManager_updateCursor_witness :
  updateCursor "u1" (Num 4) (addUser 3 "u2" ∅ new) = addUser 3 "u2" ∅ new.
Proof.
  apply (proj1 (userManager_updateCursor "u1" (Num 4) (addUser 3 "u2" ∅ new))).
  reflexivity.
Defined.

End UserManagerProps.

(** ** Properties of the cursor overlay *)

Section CursorProps.

Import CursorView.

Lemma split_lines_last (s : string) :
  exists before line,
    chars s = before ++ chars line
    /\ Some line = last (split_lines s)
    /\ List.length (split_lines s) = S (line_feeds (chars s))
    /\ (newline ∉ chars line)
    /\ (before = [] \/ exists b, before = b ++ [newline])
    /\ line_feeds before = line_feeds (chars s).
Proof.
  induction s as [|c s IH].
  - exists [], EmptyString. simpl. repeat split; auto.
    apply not_elem_of_nil.
  - destruct IH as (before & line & Hs & Hlast & Hlen & Hnl & Hb & Hcount).
    simpl split_lines. change (chars (String c s)) with (c :: chars s).
    unfold line_feeds in *.
    destruct (Ascii.eqb_spec c newline) as [->|Hc].
    + exists (newline :: before), line. rewrite filter_cons_True by reflexivity.
      repeat split.
      * simpl. now rewrite Hs.
      * simpl. destruct (split_lines s); [discriminate|exact Hlast].
      * simpl. now rewrite Hlen.
      * exact Hnl.
      * right. destruct Hb as [->|[b ->]]; [now exists []|].
        now exists (newline :: b).
      * rewrite filter_cons_True by reflexivity. simpl. now rewrite Hcount.
    + rewrite filter_cons_False by assumption.
      destruct (split_lines s) as [|l0 more] eqn:E; [discriminate|].
      destruct more as [|l1 more].
      * (* the first line is the last one *)
        simpl in Hlast. injection Hlast as ->.
        assert (Hbefore : before = []).
        { destruct Hb as [->|[b ->]]; [reflexivity|].
          exfalso. simpl in Hlen. injection Hlen as Hlen.
          rewrite <- Hcount, filter_app, length_app in Hlen.
          rewrite filter_cons_True in Hlen by reflexivity.
          simpl in Hlen. lia. }
        subst before. exists [], (String c l0).
        change (chars (String c l0)) with (c :: chars l0).
        rewrite app_nil_l in Hs.
        split; [now rewrite Hs|]. split; [reflexivity|].
        split; [exact Hlen|]. split; [|split; [now left|exact Hcount]].
        intros Hin. apply elem_of_cons in Hin as [Hin|Hin]; auto.
      * exists (c :: before), line. repeat split.
        -- simpl. now rewrite Hs.
        -- exact Hlast.
        -- simpl in *. exact Hlen.
        -- exact Hnl.
        -- right. destruct Hb as [->|[b ->]].
           ++ exfalso. simpl in Hlen. injection Hlen as Hlen.
              rewrite <- Hcount in Hlen. simpl in Hlen. lia.
           ++ now exists (c :: b).
        -- rewrite filter_cons_False by assumption. exact Hcount.
Qed.

(** X13. The line of a remote cursor is the number of line feeds before
    it, its column the number of code units since the last of them (or
    since the start of the text); a cursor position outside the text is
    clamped by [substring]. *)
Theorem lineColumn_spec (content : string) (cursorPosition : Z) :
  let prefix := chars (JS.substring content 0 (Some cursorPosition)) in
  exists before line,
    prefix = before ++ line
    /\ (newline ∉ line)
    /\ (before = [] \/ exists b, before = b ++ [newline])
    /\ lineColumn content cursorPosition
       = (Z.of_nat (line_feeds prefix), Z.of_nat (List.length line)).
Proof.
  intros prefix. unfold lineColumn.
  destruct (split_lines_last (JS.substring content 0 (Some cursorPosition)))
    as (before & line & Hs & Hlast & Hlen & Hnl & Hb & Hcount).
  exists before, (chars line). fold prefix in Hs, Hlen, Hcount.
  repeat split; try assumption.
  rewrite Hlen. f_equal; [lia|].
  replace (Z.to_nat (Z.of_nat (S (line_feeds prefix)) - 1))
    with (Init.Nat.pred (List.length
            (split_lines (JS.substring content 0 (Some cursorPosition)))))
    by (rewrite Hlen; lia).
  rewrite strlen_chars. do 2 f_equal.
  symmetry in Hlast. rewrite last_lookup in Hlast.
  apply nth_lookup_Some with (d := EmptyString) in Hlast.
  now rewrite Hlast.
Qed.

End CursorProps.

